(** * AirLoop: the dataset catalog and the batch sampler

    A shallow embedding of [datasets/base.py]: the class [DatasetBase]
    (catalog of environments and sequences, filtering, random splitting,
    item access) and the class [DefaultSampler] (construction of the list
    of mini-batches).

    Python values are modelled as follows.
    - an [int] is a [Z]; a [str] is a [string];
    - the catalog [_seqs], a [dict] from environment to a [list] of
      sequences, is an association list in insertion order;
    - an exception is a value of [exn]; a call that may raise returns a
      [result];
    - the ambient generator of [np.random] is an explicit state [rng]
      threaded through the sampler; [np.random.shuffle], the permutation
      of [default_rng(seed)] and the module [re] are parameters;
    - the floating-point numbers of [rand_split] are rationals;
    - where object identity matters ([copy(self)], the dictionary of a
      subset), objects live in a store and are named by their location;
    - for the constructor an instance is its dictionary of attributes,
      and reading and writing the catalog file are parameters.

    The first part, up to the random split as objects, follows the
    statements of the specification; the second part adds properties of
    the same classes read off the code: the shape and order of the
    batches, what the constructors raise, how filtering, splitting and
    item access work together, the catalog cache. *)

From Stdlib Require Import String Ascii ZArith QArith Qround Qabs Lqa.
From Stdlib Require Import List Bool Lia Permutation.
Import ListNotations.
Open Scope string_scope.
Open Scope list_scope.
Open Scope Z_scope.

Set Implicit Arguments.
#[local] Set Warnings "-register-all".

(** ** Exceptions and results *)

(** The three assertion messages of [DatasetBase.__getitem__]. *)
Inductive assert_msg : Type :=
| NoSuchEnvironment (env : string)
| NoSuchSequence (env seq : string)
| IndexOutOfBound (env seq : string) (idx : Z).

Inductive exn : Type :=
| AssertionError (msg : assert_msg)
| KeyError (key : string)
| ValueError
| ZeroDivisionError
| IndexError
| AttributeError (name : string)
| TypeError
| NotImplementedError
| ReError.

Inductive result (A : Type) : Type :=
| Ok (a : A)
| Raise (e : exn).

Arguments Ok {A} a.
Arguments Raise {A} e.

Definition rbind {A B : Type} (r : result A) (k : A -> result B) : result B :=
  match r with
  | Ok a => k a
  | Raise e => Raise e
  end.

Declare Scope result_scope.
Delimit Scope result_scope with result.
Notation "'let?' x ':=' r 'in' k" := (rbind r (fun x => k))
  (at level 10, x pattern, r at level 100, k at level 200) : result_scope.
Open Scope result_scope.

Fixpoint rmap {A B : Type} (f : A -> result B) (l : list A) : result (list B) :=
  match l with
  | [] => Ok []
  | x :: l' =>
      let? y := f x in
      let? ys := rmap f l' in
      Ok (y :: ys)
  end.

(** ** Python and numpy primitives *)

(** [ceil (a / b)] on integers, with the floor division of [Z]. *)
Definition ceil_div (a b : Z) : Z := - ((- a) / b).

(** The values of [np.arange(start, stop, step)] for a non-zero step:
    [ceil ((stop - start) / step)] values, none when that is negative. *)
Definition arange (start stop step : Z) : list Z :=
  map (fun i => start + Z.of_nat i * step)
      (seq 0 (Z.to_nat (ceil_div (stop - start) step))).

(** [np.arange] on integers; a zero step raises [ZeroDivisionError]. *)
Definition np_arange (start stop step : Z) : result (list Z) :=
  if step =? 0 then Raise ZeroDivisionError else Ok (arange start stop step).

(** A bound of a slice [l[lo:hi]] brought into [0 .. len]: a negative
    bound counts from the end. *)
Definition slice_bound (len i : Z) : Z :=
  if i <? 0 then Z.max 0 (i + len) else Z.min i len.

(** [l[lo:hi]] *)
Definition py_slice {A : Type} (l : list A) (lo hi : Z) : list A :=
  let len := Z.of_nat (length l) in
  let lo' := slice_bound len lo in
  let hi' := slice_bound len hi in
  firstn (Z.to_nat (hi' - lo')) (skipn (Z.to_nat lo') l).

(** ** The catalog *)

Definition catalog : Type := list (string * list string).

(** A Python [dict] has each key once. *)
Definition dict_ok (c : catalog) : Prop := NoDup (map fst c).

(** [d[key]] *)
Fixpoint dict_get (c : catalog) (key : string) : result (list string) :=
  match c with
  | [] => Raise (KeyError key)
  | (k, v) :: c' => if String.eqb k key then Ok v else dict_get c' key
  end.

(** [key in d] *)
Definition dict_mem (c : catalog) (key : string) : bool :=
  existsb (String.eqb key) (map fst c).

(** [seq in l] *)
Definition list_mem (l : list string) (x : string) : bool :=
  existsb (String.eqb x) l.

(** Values returned by the item-fetch hook: a tuple is told apart from
    everything else, as [isinstance(item, tuple)] does. *)
Inductive pyval : Type :=
| VInt (z : Z)
| VStr (s : string)
| VObj (id : nat)
| VTuple (items : list pyval).

(** The triple [(env, seq, idx)] as a Python value. *)
Definition triple : Type := (string * string * Z)%type.

Definition VTriple (t : triple) : pyval :=
  let '(env, seq, idx) := t in VTuple [VStr env; VStr seq; VInt idx].

(** An instance of (a subclass of) [DatasetBase]: the attributes set by
    [__init__] and the hooks of the concrete dataset. *)
Record DatasetBase : Type := {
  path_prefix : string;
  _seqs : catalog;
  get_size : string -> string -> result Z;
  getitem_impl : string -> string -> Z -> result pyval
}.

Definition envs (self : DatasetBase) : list string := map fst (_seqs self).

Definition seqs (self : DatasetBase) : catalog := _seqs self.

(** [[(env, seq) for env in d.keys() for seq in d[env]]] *)
Definition catalog_env_seqs (c : catalog) : list (string * string) :=
  flat_map (fun env =>
              match dict_get c env with
              | Ok l => map (fun seq => (env, seq)) l
              | Raise _ => []
              end) (map fst c).

Definition get_env_seqs (self : DatasetBase) : list (string * string) :=
  catalog_env_seqs (seqs self).

(** ['_'.join(env + seq)] for two strings. *)
Definition get_seq_id (env seq : string) : string :=
  (env ++ "_" ++ seq)%string.

(** ** itertools *)

(** [itertools.groupby(l, key)]: the maximal runs of consecutive elements
    with equal keys, each with its key. *)
Fixpoint groupby {A : Type} (key : A -> string) (l : list A)
  : list (string * list A) :=
  match l with
  | [] => []
  | x :: l' =>
      match groupby key l' with
      | (k, g) :: gs =>
          if String.eqb (key x) k then (k, x :: g) :: gs
          else (key x, [x]) :: (k, g) :: gs
      | [] => [(key x, [x])]
      end
  end.

(** A tuple of [zip_longest]: the values read, then the fill value [None]
    up to [n] entries. *)
Definition fill {A : Type} (n : nat) (l : list A) : list (option A) :=
  map Some l ++ repeat None (n - length l).

Fixpoint chunks_fill {A : Type} (fuel n : nat) (l : list A)
  : list (list (option A)) :=
  match fuel, l with
  | S fuel', _ :: _ => fill n (firstn n l) :: chunks_fill fuel' n (skipn n l)
  | _, _ => []
  end.

(** [zip_longest] applied to [n] references to one iterator of [l]: each
    tuple takes the next [n] elements of [l]; the last one is filled with
    [None]. Without iterators ([n <= 0]) nothing is produced. *)
Definition zip_longest_iter {A : Type} (l : list A) (n : Z)
  : list (list (option A)) :=
  if n <=? 0 then [] else chunks_fill (length l) (Z.to_nat n) l.

(** ** DefaultSampler *)

(** The argument [shuffle]: the four strings the constructor compares it
    with, and [ShuffleNone] for every other value. *)
Inductive shuffle_mode : Type :=
| ShuffleNone
| ShuffleSeq
| ShuffleBatch
| ShuffleEnv
| ShuffleAll.

Record DefaultSampler : Type := {
  seq_sizes : list ((string * string) * Z);
  bs : Z;
  batches : list (list (option triple))
}.

(** The body of the loop over [seq_sizes], before the shuffle: the windows
    of one (environment, sequence) pair. *)
Definition seq_batches (env_seq : string * string) (size bs : Z)
  (overlap : bool) : result (list (list triple)) :=
  let frame_idx := arange 0 size 1 in
  let? b_start := np_arange 0 (size - bs) (if overlap then 1 else bs) in
  Ok (map (fun st =>
             map (fun idx => (env_seq, idx)) (py_slice frame_idx st (st + bs)))
          b_start).

(** The list of every pair of [dataset.get_env_seqs()] with its size. *)
Definition get_seq_sizes (dataset : DatasetBase)
  : result (list ((string * string) * Z)) :=
  rmap (fun env_seq =>
          let? size := get_size dataset (fst env_seq) (snd env_seq) in
          Ok (env_seq, size))
       (get_env_seqs dataset).

Section Sampler.

(** The state of the generator behind [np.random], and
    [np.random.shuffle] as a function of it. *)
Variable rng : Type.
Variable np_random_shuffle : forall A : Type, list A -> rng -> list A * rng.

Definition shuffle_if {A : Type} (b : bool) (l : list A) (g : rng)
  : list A * rng :=
  if b then np_random_shuffle l g else (l, g).

Definition is_seq (m : shuffle_mode) : bool :=
  match m with ShuffleSeq => true | _ => false end.
Definition is_batch (m : shuffle_mode) : bool :=
  match m with ShuffleBatch => true | _ => false end.
Definition is_env_or_all (m : shuffle_mode) : bool :=
  match m with ShuffleEnv | ShuffleAll => true | _ => false end.
Definition is_all (m : shuffle_mode) : bool :=
  match m with ShuffleAll => true | _ => false end.

(** The loop over [seq_sizes]. *)
Fixpoint build_batches (seq_sizes : list ((string * string) * Z)) (bs : Z)
  (shuffle : shuffle_mode) (overlap : bool) (g : rng)
  : result (list (list triple) * rng) :=
  match seq_sizes with
  | [] => Ok ([], g)
  | (env_seq, size) :: rest =>
      let? batch := seq_batches env_seq size bs overlap in
      let '(batch, g) := shuffle_if (is_batch shuffle) batch g in
      let? (more, g) := build_batches rest bs shuffle overlap g in
      Ok (batch ++ more, g)
  end.

(** The loop over the groups of [groupby]. *)
Fixpoint regroup (groups : list (string * list triple)) (batch_size : Z)
  (g : rng) : list (list (option triple)) * rng :=
  match groups with
  | [] => ([], g)
  | (_, env_batches) :: rest =>
      let '(env_batches, g) := np_random_shuffle env_batches g in
      let '(more, g) := regroup rest batch_size g in
      (zip_longest_iter env_batches batch_size ++ more, g)
  end.

(** [DefaultSampler.__init__] *)
Definition DefaultSampler_init (dataset : DatasetBase) (batch_size : Z)
  (shuffle : shuffle_mode) (overlap : bool) (g : rng)
  : result (DefaultSampler * rng) :=
  let? seq_sizes := get_seq_sizes dataset in
  let '(seq_sizes, g) := shuffle_if (is_seq shuffle) seq_sizes g in
  let? (batches, g) := build_batches seq_sizes batch_size shuffle overlap g in
  let '(batches, g) :=
    if is_env_or_all shuffle then
      let all_batches := concat batches in
      regroup (groupby (fun b : triple => fst (fst b)) all_batches)
              batch_size g
    else (map (map Some) batches, g) in
  let '(batches, g) := shuffle_if (is_all shuffle) batches g in
  Ok ({| seq_sizes := seq_sizes; bs := batch_size; batches := batches |}, g).

End Sampler.

(** The catalog and sizes of the scenario: envA with s1 (5 frames) and s2
    (3 frames), envB with s3 (10 frames). *)
Definition scenario_size (env seq : string) : result Z :=
  if String.eqb seq "s1" then Ok 5
  else if String.eqb seq "s2" then Ok 3
  else if String.eqb seq "s3" then Ok 10
  else Raise NotImplementedError.

Definition scenario : DatasetBase := {|
  path_prefix := "/data";
  _seqs := [("envA", ["s1"; "s2"]); ("envB", ["s3"])];
  get_size := scenario_size;
  getitem_impl := fun _ _ idx => Ok (VInt idx)
|}.

(** A generator whose shuffle reverses its argument. *)
Definition rev_shuffle (A : Type) (l : list A) (g : unit) : list A * unit :=
  (rev l, g).

(** The batches of a sampler returned by the constructor. *)
Definition batches_of {rng : Type} (r : result (DefaultSampler * rng))
  : option (list (list (option triple))) :=
  match r with
  | Ok (sampler, _) => Some (batches sampler)
  | Raise _ => None
  end.

(** ** Item access *)

(** The calls of the hooks of the concrete dataset, in the order made. *)
Inductive hook_call : Type :=
| CallGetSize (env seq : string)
| CallGetItem (env seq : string) (idx : Z).

(** [(item,) if not isinstance(item, tuple) else item] *)
Definition as_tuple (item : pyval) : list pyval :=
  match item with
  | VTuple items => items
  | _ => [item]
  end.

(** [DatasetBase.__getitem__], with the log of the hook calls. In
    [0 <= idx < self.get_size(env, seq)] the size is asked for only when
    [0 <= idx] holds. *)
Definition getitem (self : DatasetBase) (index : triple)
  (log : list hook_call) : result pyval * list hook_call :=
  let '(env, seq, idx) := index in
  if negb (dict_mem (seqs self) env) then
    (Raise (AssertionError (NoSuchEnvironment env)), log)
  else
    match dict_get (seqs self) env with
    | Raise e => (Raise e, log)
    | Ok l =>
        if negb (list_mem l seq) then
          (Raise (AssertionError (NoSuchSequence env seq)), log)
        else if idx <? 0 then
          (Raise (AssertionError (IndexOutOfBound env seq idx)), log)
        else
          let log := log ++ [CallGetSize env seq] in
          match get_size self env seq with
          | Raise e => (Raise e, log)
          | Ok size =>
              if negb (idx <? size) then
                (Raise (AssertionError (IndexOutOfBound env seq idx)), log)
              else
                let log := log ++ [CallGetItem env seq idx] in
                match getitem_impl self env seq idx with
                | Raise e => (Raise e, log)
                | Ok item =>
                    (Ok (VTuple (as_tuple item ++ [VTriple (env, seq, idx)])),
                     log)
                end
          end
    end.

(** ** Filtering *)

(** [l.remove(x)]: without the first element equal to [x]. *)
Fixpoint list_remove (l : list string) (x : string) : result (list string) :=
  match l with
  | [] => Raise ValueError
  | y :: l' =>
      if String.eqb y x then Ok l'
      else let? r := list_remove l' x in Ok (y :: r)
  end.

(** The catalog after the list stored under [key] became [v] (the list is
    changed in place: the key keeps its position). *)
Fixpoint dict_store (c : catalog) (key : string) (v : list string) : catalog :=
  match c with
  | [] => []
  | (k, x) :: c' =>
      if String.eqb k key then (k, v) :: c' else (k, x) :: dict_store c' key v
  end.

(** [d.pop(key)], the value dropped. *)
Fixpoint dict_pop (c : catalog) (key : string) : result catalog :=
  match c with
  | [] => Raise (KeyError key)
  | (k, x) :: c' =>
      if String.eqb k key then Ok c'
      else let? r := dict_pop c' key in Ok ((k, x) :: r)
  end.

Definition with_seqs (self : DatasetBase) (c : catalog) : DatasetBase := {|
  path_prefix := path_prefix self;
  _seqs := c;
  get_size := get_size self;
  getitem_impl := getitem_impl self
|}.

Section Filtering.

(** Compiled patterns of [re]: [re_compile] may raise; [re_search p s]
    tells whether [p.search(s)] is a match and not [None]. *)
Variable pattern : Type.
Variable re_compile : string -> result pattern.
Variable re_search : pattern -> string -> bool.

(** [re.compile(p) if p is not None else None] *)
Definition compile_opt (p : option string) : result (option pattern) :=
  match p with
  | None => Ok None
  | Some src => let? c := re_compile src in Ok (Some c)
  end.

(** The test of the loop: a missing pattern is falsy, a compiled one
    truthy. *)
Definition rejected (incl_pattern excl_pattern : option pattern)
  (seq_id : string) : bool :=
  match incl_pattern with
  | Some p => negb (re_search p seq_id)
  | None => false
  end
  ||
  match excl_pattern with
  | Some p => re_search p seq_id
  | None => false
  end.

(** [self.seqs[env].remove(seq)], then [self.seqs.pop(env)] when the list
    is left empty. *)
Definition remove_seq (c : catalog) (env seq : string) : result catalog :=
  let? l := dict_get c env in
  let? l' := list_remove l seq in
  let c' := dict_store c env l' in
  let? now := dict_get c' env in
  match now with
  | [] => dict_pop c' env
  | _ :: _ => Ok c'
  end.

(** The loop over the pairs listed before it starts. *)
Fixpoint filter_loop (pairs : list (string * string))
  (incl_pattern excl_pattern : option pattern) (c : catalog)
  : result catalog :=
  match pairs with
  | [] => Ok c
  | (env, seq) :: rest =>
      let seq_id := get_seq_id env seq in
      let? c :=
        if rejected incl_pattern excl_pattern seq_id
        then remove_seq c env seq else Ok c in
      filter_loop rest incl_pattern excl_pattern c
  end.

(** [DatasetBase.include_exclude]: the dataset with its catalog as the
    call leaves it. *)
Definition include_exclude (self : DatasetBase) (include exclude : option string)
  : result DatasetBase :=
  let? incl_pattern := compile_opt include in
  let? excl_pattern := compile_opt exclude in
  let? c :=
    filter_loop (get_env_seqs self) incl_pattern excl_pattern (seqs self) in
  Ok (with_seqs self c).

(** The catalog the specification describes: in every list the sequences
    that are not rejected, and no environment whose list was emptied. *)
Definition kept_entry (incl_pattern excl_pattern : option pattern)
  (env : string) (kept todo : list string) : catalog :=
  match kept ++ filter (fun seq =>
                          negb (rejected incl_pattern excl_pattern
                                         (get_seq_id env seq))) todo with
  | [] => match todo with [] => [(env, [])] | _ :: _ => [] end
  | l => [(env, l)]
  end.

Definition filtered (incl_pattern excl_pattern : option pattern) (c : catalog)
  : catalog :=
  flat_map (fun kv => kept_entry incl_pattern excl_pattern (fst kv) [] (snd kv))
           c.

End Filtering.

(** A stand-in for [re] that knows literal patterns only: the pattern
    matches where it occurs as a substring. *)
Definition literal_search (p s : string) : bool :=
  match String.index 0 p s with Some _ => true | None => false end.

(** ** Random split *)

(** [np.round]: the nearest integer, a half going to the even one. The
    floating-point numbers of the source are taken as rationals. *)
Definition np_round (x : Q) : Z :=
  let f := Qfloor x in
  match (x - inject_Z f ?= 1 # 2)%Q with
  | Lt => f
  | Gt => f + 1
  | Eq => if Z.even f then f else f + 1
  end.

(** [sum(ratio)], from the left and from zero. *)
Definition qsum (l : list Q) : Q := fold_left Qplus l 0%Q.

(** [np.cumsum] *)
Fixpoint cumsum_from (acc : Z) (l : list Z) : list Z :=
  match l with
  | [] => []
  | x :: l' => (acc + x) :: cumsum_from (acc + x) l'
  end.

Definition np_cumsum (l : list Z) : list Z := cumsum_from 0 l.

(** [np.cumsum(np.round(ratio / sum(ratio) * total), dtype=np.int)[:-1]] *)
Definition split_idx (ratio : list Q) (total : nat) : list Z :=
  removelast
    (np_cumsum
       (map (fun r => np_round (r / qsum ratio * inject_Z (Z.of_nat total))%Q)
            ratio)).

(** The slices [ary[st:e1], ary[e1:e2], ...] of [np.array_split]. *)
Fixpoint slices {A : Type} (ary : list A) (st : Z) (ends : list Z)
  : list (list A) :=
  match ends with
  | [] => []
  | e :: ends' => py_slice ary st e :: slices ary e ends'
  end.

(** [np.split(ary, indices)] on a vector: the division points are [0], the
    indices and the length. *)
Definition np_split {A : Type} (ary : list A) (indices : list Z)
  : list (list A) :=
  slices ary 0 (indices ++ [Z.of_nat (length ary)]).

(** [sorted] on indices. *)
Fixpoint insert_sorted (x : nat) (l : list nat) : list nat :=
  match l with
  | [] => [x]
  | y :: l' => if (x <=? y)%nat then x :: l else y :: insert_sorted x l'
  end.

Definition sorted (l : list nat) : list nat := fold_right insert_sorted [] l.

(** [np.take(np.array(l, dtype=object), indices, axis=0).tolist()] *)
Definition np_take {A : Type} (l : list A) (indices : list nat)
  : result (list A) :=
  rmap (fun i =>
          match nth_error l i with
          | Some x => Ok x
          | None => Raise IndexError
          end) indices.

(** [d.setdefault(env, []).append(seq)] *)
Fixpoint setdefault_append (c : catalog) (env seq : string) : catalog :=
  match c with
  | [] => [(env, [seq])]
  | (k, l) :: c' =>
      if String.eqb k env then (k, l ++ [seq]) :: c'
      else (k, l) :: setdefault_append c' env seq
  end.

(** The catalog of a subset: the loop of [setdefault] and [append] from
    the empty dictionary. *)
Definition build_seqs (pairs : list (string * string)) : catalog :=
  fold_left (fun c p => setdefault_append c (fst p) (snd p)) pairs [].

Section RandSplit.

(** [np.random.default_rng(seed=seed).permutation(total)]: the generator is
    made from the seed at each call. *)
Variable rng_permutation : Z -> nat -> list nat.

(** [DatasetBase.rand_split]: each subset is a copy of [self] with a
    catalog of its own. *)
Definition rand_split (self : DatasetBase) (ratio : list Q) (seed : Z)
  : result (list DatasetBase) :=
  let env_seqs := get_env_seqs self in
  let total := length env_seqs in
  let split_idx := split_idx ratio total in
  rmap (fun perm =>
          let perm := sorted perm in
          let? taken := np_take env_seqs perm in
          Ok (with_seqs self (build_seqs taken)))
       (np_split (rng_permutation seed total) split_idx).

End RandSplit.

(** A generator whose permutation is the reversal. *)
Definition rev_permutation (seed : Z) (n : nat) : list nat := rev (seq 0 n).

(** Five sequences in two environments. *)
Definition five_seqs : DatasetBase := {|
  path_prefix := "/data";
  _seqs := [("envA", ["s1"; "s2"; "s3"]); ("envB", ["s4"; "s5"])];
  get_size := fun _ _ => Ok 10;
  getitem_impl := fun _ _ idx => Ok (VInt idx)
|}.

(** ** Objects and references

    [copy(self)] and the dictionaries of the subsets are a matter of object
    identity: here the objects live in a store and are named by their
    location. *)

Definition loc : Type := nat.

Inductive obj : Type :=
| OList (items : list string)
| ODict (items : list (string * loc))
| OInstance (attrs : list (string * loc))
| OValue (v : pyval).

(** The store: the object at location [l] is the [l]-th one; a new object
    goes to the end. *)
Definition heap : Type := list obj.

Definition heap_get (h : heap) (l : loc) : option obj := nth_error h l.

Fixpoint heap_set (h : heap) (l : loc) (o : obj) : heap :=
  match h, l with
  | [], _ => []
  | _ :: h', O => o :: h'
  | x :: h', S l' => x :: heap_set h' l' o
  end.

(** The reference stored under a name (an attribute of an instance, a key
    of a dictionary). *)
Fixpoint ref_get (items : list (string * loc)) (name : string) : option loc :=
  match items with
  | [] => None
  | (k, l) :: items' => if String.eqb k name then Some l else ref_get items' name
  end.

(** [o.name = value]: the reference under [name] replaced, or added. *)
Fixpoint ref_set (items : list (string * loc)) (name : string) (l : loc)
  : list (string * loc) :=
  match items with
  | [] => [(name, l)]
  | (k, x) :: items' =>
      if String.eqb k name then (k, l) :: items'
      else (k, x) :: ref_set items' name l
  end.

(** [o.name] *)
Definition h_attr (h : heap) (o : loc) (name : string) : result loc :=
  match heap_get h o with
  | Some (OInstance attrs) =>
      match ref_get attrs name with
      | Some l => Ok l
      | None => Raise (AttributeError name)
      end
  | _ => Raise TypeError
  end.

Definition read_list (h : heap) (l : loc) : result (list string) :=
  match heap_get h l with
  | Some (OList items) => Ok items
  | _ => Raise TypeError
  end.

(** The catalog a dictionary object holds. *)
Definition read_dict (h : heap) (d : loc) : result catalog :=
  match heap_get h d with
  | Some (ODict items) =>
      rmap (fun kl => let? l := read_list h (snd kl) in Ok (fst kl, l)) items
  | _ => Raise TypeError
  end.

(** The catalog of a dataset object: what its attribute [_seqs] holds. *)
Definition read_seqs (h : heap) (self : loc) : result catalog :=
  let? d := h_attr h self "_seqs" in
  read_dict h d.

(** [d.setdefault(env, []).append(seq)] on the dictionary object [d]. *)
Definition h_setdefault_append (h : heap) (d : loc) (env seq : string)
  : result heap :=
  match heap_get h d with
  | Some (ODict items) =>
      let '(l, h) :=
        match ref_get items env with
        | Some l => (l, h)
        | None =>
            let l := length h in
            (l, heap_set (h ++ [OList []]) d (ODict (items ++ [(env, l)])))
        end in
      match heap_get h l with
      | Some (OList xs) => Ok (heap_set h l (OList (xs ++ [seq])))
      | _ => Raise TypeError
      end
  | _ => Raise TypeError
  end.

(** The loop [for env, seq in ...: subset.seqs.setdefault(env, []).append(seq)]. *)
Fixpoint h_fill (h : heap) (subset : loc) (pairs : list (string * string))
  : result heap :=
  match pairs with
  | [] => Ok h
  | (env, seq) :: rest =>
      let? d := h_attr h subset "_seqs" in
      let? h := h_setdefault_append h d env seq in
      h_fill h subset rest
  end.

(** The body of the loop of [rand_split]: [copy(self)] makes a new instance
    with the attributes of [self], the same references; [subset._seqs = {}]
    makes a new dictionary and stores it in the copy. *)
Definition h_make_subset (h : heap) (self : loc)
  (env_seqs : list (string * string)) (piece : list nat)
  : result (loc * heap) :=
  let perm := sorted piece in
  match heap_get h self with
  | Some (OInstance attrs) =>
      let subset := length h in
      let h := h ++ [OInstance attrs] in
      let d := length h in
      let h := h ++ [ODict []] in
      let h := heap_set h subset (OInstance (ref_set attrs "_seqs" d)) in
      let? taken := np_take env_seqs perm in
      let? h := h_fill h subset taken in
      Ok (subset, h)
  | _ => Raise TypeError
  end.

Fixpoint h_subsets (h : heap) (self : loc) (env_seqs : list (string * string))
  (pieces : list (list nat)) : result (list loc * heap) :=
  match pieces with
  | [] => Ok ([], h)
  | piece :: rest =>
      let? (subset, h) := h_make_subset h self env_seqs piece in
      let? (subsets, h) := h_subsets h self env_seqs rest in
      Ok (subset :: subsets, h)
  end.

Section RandSplitObjects.

Variable rng_permutation : Z -> nat -> list nat.

(** [DatasetBase.rand_split] on the store: the receiver is the object at
    [self]; the result is the list of the subset objects. *)
Definition h_rand_split (h : heap) (self : loc) (ratio : list Q) (seed : Z)
  : result (list loc * heap) :=
  let? c := read_seqs h self in
  let env_seqs := catalog_env_seqs c in
  let total := length env_seqs in
  let split_idx := split_idx ratio total in
  h_subsets h self env_seqs (np_split (rng_permutation seed total) split_idx).

End RandSplitObjects.

(** A store with the dataset [five_seqs]: its root path, the two lists,
    the dictionary and the instance (at location 4). *)
Definition five_seqs_heap : heap :=
  [OValue (VStr "/data");
   OList ["s1"; "s2"; "s3"];
   OList ["s4"; "s5"];
   ODict [("envA", 1%nat); ("envB", 2%nat)];
   OInstance [("path_prefix", 0%nat); ("_seqs", 3%nat)]].

(** ** Windows, as the specification words them *)

(** The batch of the [B] consecutive frames [off, off + B) of a pair. *)
Definition window (env_seq : string * string) (off B : Z) : list triple :=
  map (fun i => (env_seq, off + Z.of_nat i)) (seq 0 (Z.to_nat B)).

(** One window per starting offset [0 .. S - B - 1]. *)
Definition sliding_windows (env_seq : string * string) (S B : Z)
  : list (list triple) :=
  map (fun off => window env_seq (Z.of_nat off) B) (seq 0 (Z.to_nat (S - B))).

(** The first [n] chunks of the chunking into stride [B]. *)
Definition chunks (env_seq : string * string) (n : nat) (B : Z)
  : list (list triple) :=
  map (fun j => window env_seq (Z.of_nat j * B) B) (seq 0 n).

(** The plain chunking of [0 .. S - 1]: [ceil (S / B)] batches, the final
    one with the frames that are left. *)
Definition plain_chunking (env_seq : string * string) (S B : Z)
  : list (list triple) :=
  map (fun j =>
         window env_seq (Z.of_nat j * B) (Z.min B (S - Z.of_nat j * B)))
      (seq 0 (Z.to_nat (ceil_div S B))).

(** The frame indices of a list of batches, in the order of emission. *)
Definition frames (bl : list (list triple)) : list Z :=
  map snd (concat bl).

(** The batches the specification lists for the scenario with
    [batch_size=2] and [overlap=False]. *)
Definition scenario_batches_listed : list (list (option triple)) :=
  map (fun '(env, seq, l) => map (fun idx => Some (env, seq, idx)) l)
      [("envA", "s1", [0; 1]); ("envA", "s1", [2; 3]); ("envA", "s1", [4]);
       ("envA", "s2", [0; 1]); ("envA", "s2", [2]);
       ("envB", "s3", [0; 1]); ("envB", "s3", [2; 3]); ("envB", "s3", [4; 5]);
       ("envB", "s3", [6; 7]); ("envB", "s3", [8; 9])].

(** The batches the sampler builds for it. *)
Definition scenario_batches_emitted : list (list (option triple)) :=
  map (fun '(env, seq, l) => map (fun idx => Some (env, seq, idx)) l)
      [("envA", "s1", [0; 1]); ("envA", "s1", [2; 3]);
       ("envA", "s2", [0; 1]);
       ("envB", "s3", [0; 1]); ("envB", "s3", [2; 3]); ("envB", "s3", [4; 5]);
       ("envB", "s3", [6; 7])].

(** A catalog with one sequence of three frames. *)
Definition short_dataset : DatasetBase := {|
  path_prefix := "/data";
  _seqs := [("envA", ["s2"])];
  get_size := scenario_size;
  getitem_impl := fun _ _ idx => Ok (VInt idx)
|}.

(** [w] is one of the windows the loop builds for a pair of [sizes]. *)
Definition is_window (sizes : list ((string * string) * Z)) (B : Z)
  (overlap : bool) (w : list triple) : Prop :=
  exists p ws,
    In p sizes /\ seq_batches (fst p) (snd p) B overlap = Ok ws /\ In w ws.

(** A chain of division points: each at least the one before. *)
Fixpoint chain (st : Z) (ends : list Z) : Prop :=
  match ends with
  | [] => True
  | e :: ends' => st <= e /\ chain e ends'
  end.

(** The pairs of an association list, entry after entry. *)
Definition entries (c : catalog) : list (string * string) :=
  flat_map (fun kv => map (fun seq => (fst kv, seq)) (snd kv)) c.

(** The pairs a piece of the permutation selects. *)
Definition taken (self : DatasetBase) (piece : list nat)
  : list (string * string) :=
  map (fun i => nth i (get_env_seqs self) ("", "")) (sorted piece).

(** The lengths of the slices of a vector of length [N] between the
    division points [st], [ends]. *)
Fixpoint slice_sizes (N st : Z) (ends : list Z) : list Z :=
  match ends with
  | [] => []
  | e :: ends' => (Z.min e N - Z.min st N) :: slice_sizes N e ends'
  end.

(** The catalog of [five_seqs] under another root, with other
    hooks. *)
Definition five_seqs_moved : DatasetBase := {|
  path_prefix := "/mnt/other";
  _seqs := [("envA", ["s1"; "s2"; "s3"]); ("envB", ["s4"; "s5"])];
  get_size := fun _ _ => Raise NotImplementedError;
  getitem_impl := fun _ _ _ => Raise NotImplementedError
|}.

(** Every object of [h] is in [h'], at its place and as it was. *)
Definition extends (h h' : heap) : Prop :=
  forall l o, heap_get h l = Some o -> heap_get h' l = Some o.

(** The entries [items] of a dictionary object stand for the catalog [c]:
    the same keys in the same order, each reference leading to a list
    object with the sequences of the key. *)
Definition represents (h : heap) (items : list (string * loc)) (c : catalog)
  : Prop :=
  Forall2 (fun kl kv =>
             fst kl = fst kv /\ heap_get h (snd kl) = Some (OList (snd kv)))
          items c.

(** A subset being filled: [n] objects were there before its copy was
    made; the copy is at [subset] and holds the dictionary [d], whose
    entries stand for [c] and lead to lists made since, each its own. *)
Definition building (h : heap) (n : nat) (subset d : loc)
  (attrs : list (string * loc)) (c : catalog) : Prop :=
  (n <= d < length h)%nat /\
  heap_get h subset = Some (OInstance (ref_set attrs "_seqs" d)) /\
  exists items,
    heap_get h d = Some (ODict items) /\
    represents h items c /\
    NoDup (map snd items) /\
    Forall (fun kl => (n <= snd kl)%nat) items.

(** The entries of a tuple of [zip_longest] that are not the fill value. *)
Definition present {A : Type} (b : list (option A)) : list A :=
  flat_map (fun x => match x with Some a => [a] | None => [] end) b.

(** ** The sampler as a sequence of batches *)

(** [DefaultSampler.__iter__]: the batches, in their order. *)
Definition DefaultSampler_iter (self : DefaultSampler)
  : list (list (option triple)) :=
  batches self.

(** [DefaultSampler.__len__] *)
Definition DefaultSampler_len (self : DefaultSampler) : Z :=
  Z.of_nat (length (batches self)).

(** The number of start offsets of a pair of size [S] for a positive
    batch size: [S - B] with overlap, [ceil (S / B) - 1] without. *)
Definition n_batches (S B : Z) (overlap : bool) : nat :=
  if overlap then Z.to_nat (S - B) else Z.to_nat (ceil_div S B - 1).

(** The windows of a pair for a positive batch size, one per start
    offset. *)
Definition windows_of (env_seq : string * string) (S B : Z) (overlap : bool)
  : list (list triple) :=
  if overlap then sliding_windows env_seq S B
  else chunks env_seq (n_batches S B false) B.

(** ** Pairs that pass the filter *)

(** The test of the loop of [include_exclude] on a pair, negated: the pair
    stays in the catalog. *)
Definition stays {pattern : Type} (re_search : pattern -> string -> bool)
  (incl_pattern excl_pattern : option pattern) (p : string * string) : bool :=
  negb (rejected re_search incl_pattern excl_pattern
                 (get_seq_id (fst p) (snd p))).

(** ** Order of the pairs *)

(** [l1] is [l2] with some elements left out, the others in their
    order. *)
Inductive sublist {A : Type} : list A -> list A -> Prop :=
| sublist_nil : sublist [] []
| sublist_skip (x : A) (l1 l2 : list A) :
    sublist l1 l2 -> sublist l1 (x :: l2)
| sublist_keep (x : A) (l1 l2 : list A) :
    sublist l1 l2 -> sublist (x :: l1) (x :: l2).

(** Indices in strictly increasing order. *)
Fixpoint increasing (l : list nat) : Prop :=
  match l with
  | [] => True
  | x :: l' => Forall (fun y => (x < y)%nat) l' /\ increasing l'
  end.

(** ** Identifiers of sequences *)

(** Whether the character [_], which [get_seq_id] joins with, occurs in a
    name. *)
Fixpoint has_underscore (s : string) : bool :=
  match s with
  | EmptyString => false
  | String c s' => Ascii.eqb c "_"%char || has_underscore s'
  end.

(** ** The hooks of the base class *)

(** An instance whose class overrides neither [get_size] nor
    [getitem_impl]: both raise [NotImplementedError]. *)
Definition base_dataset (root : string) (c : catalog) : DatasetBase := {|
  path_prefix := root;
  _seqs := c;
  get_size := fun _ _ => Raise NotImplementedError;
  getitem_impl := fun _ _ _ => Raise NotImplementedError
|}.

(** ** Construction and the catalog cache

    For the constructor an instance is its attribute dictionary. What the
    constructor does with files goes through parameters: whether the
    catalog file is there, reading it ([bz2.BZ2File] and [pickle.load]),
    making its directory, writing it ([pickle.dump]). *)

(** The value of an attribute. *)
Inductive attr_value : Type :=
| APath (p : string)
| ACatalog (c : catalog)
| AValue (v : pyval).

(** The attributes of an instance, and a state dictionary: names in
    insertion order, each once. *)
Definition instance_dict : Type := list (string * attr_value).

(** [getattr(self, name)] *)
Fixpoint getattr (self : instance_dict) (name : string) : result attr_value :=
  match self with
  | [] => Raise (AttributeError name)
  | (k, v) :: rest => if String.eqb k name then Ok v else getattr rest name
  end.

(** [setattr(self, name, v)]; also [d[name] = v] on a dictionary. *)
Fixpoint setattr (self : instance_dict) (name : string) (v : attr_value)
  : instance_dict :=
  match self with
  | [] => [(name, v)]
  | (k, x) :: rest =>
      if String.eqb k name then (k, v) :: rest
      else (k, x) :: setattr rest name v
  end.

(** [{attr: getattr(self, attr) for attr in names}], continuing from the
    dictionary [d]. *)
Fixpoint state_dict_of (self : instance_dict) (names : list string)
  (d : instance_dict) : result instance_dict :=
  match names with
  | [] => Ok d
  | name :: rest =>
      let? v := getattr self name in
      state_dict_of self rest (setattr d name v)
  end.

(** [for k, v in state_dict.items(): setattr(self, k, v)] *)
Definition restore (self state_dict : instance_dict) : instance_dict :=
  fold_left (fun self kv => setattr self (fst kv) (snd kv)) state_dict self.

Section Construction.

(** The state of the file system and the operations on the catalog
    file. *)
Variable fs : Type.
Variable joinpath : string -> string -> string.
Variable is_file : fs -> string -> bool.
Variable load : fs -> string -> result instance_dict.
Variable mkdir_parent : fs -> string -> result fs.
Variable dump : fs -> string -> instance_dict -> result fs.

(** The hook [_populate] of the concrete dataset: it fills the instance
    and returns the names of the attributes to store besides [_seqs]. *)
Variable _populate : instance_dict -> result (instance_dict * list string).

(** [DatasetBase.__init__] *)
Definition DatasetBase_init (root name : string) (catalog_dir : option string)
  (f : fs) : result (instance_dict * fs) :=
  let self := [("path_prefix", APath root); ("_seqs", ACatalog [])] in
  match catalog_dir with
  | None =>
      let? (self, _) := _populate self in
      Ok (self, f)
  | Some dir =>
      let catalog_path := joinpath dir (name ++ ".pbz2")%string in
      if is_file f catalog_path then
        let? state_dict := load f catalog_path in
        Ok (restore self state_dict, f)
      else
        let? (self, names) := _populate self in
        let catalog_attr := "_seqs" :: names in
        let? state_dict := state_dict_of self catalog_attr [] in
        let? f := mkdir_parent f catalog_path in
        let? f := dump f catalog_path state_dict in
        Ok (self, f)
  end.

End Construction.

(** [_populate] of the base class. *)
Definition base_populate (self : instance_dict)
  : result (instance_dict * list string) :=
  Raise NotImplementedError.

(** A file system that is a list of files with their state dictionaries,
    the newest first. *)
Definition files : Type := list (string * instance_dict).

Fixpoint files_load (f : files) (path : string) : result instance_dict :=
  match f with
  | [] => Raise (KeyError path)
  | (p, d) :: rest => if String.eqb p path then Ok d else files_load rest path
  end.

Definition files_is_file (f : files) (path : string) : bool :=
  match files_load f path with Ok _ => true | Raise _ => false end.

Definition files_dump (f : files) (path : string) (d : instance_dict)
  : result files :=
  Ok ((path, d) :: f).

(** A hook that finds one sequence of five frames. *)
Definition populate_one (self : instance_dict)
  : result (instance_dict * list string) :=
  Ok (setattr (setattr self "_seqs" (ACatalog [("envA", ["s1"])]))
              "_sizes" (AValue (VInt 5)),
      ["_sizes"]).

(** ** The environment of a batch *)

(** The environment of the first entry of a batch. *)
Definition batch_env (b : list (option triple)) : option string :=
  match b with
  | Some t :: _ => Some (fst (fst t))
  | _ => None
  end.

(** The number of batches of an environment of the catalog: the start
    offsets of its sequences, all together. *)
Definition env_batches (dataset : DatasetBase) (B : Z) (overlap : bool)
  (kv : string * list string) : nat :=
  list_sum
    (map (fun seq =>
            match get_size dataset (fst kv) seq with
            | Ok size => n_batches size B overlap
            | Raise _ => 0%nat
            end)
         (snd kv)).

(** ** Frames that are emitted *)

(** The frames of a pair of size [S] that some window holds are those
    below this bound: with overlap all but the last frame when the pair
    is longer than a batch, without overlap the frames of the whole
    chunks but the final one. *)
Definition covered (S B : Z) (overlap : bool) : Z :=
  if overlap then (if B <? S then S - 1 else 0)
  else Z.of_nat (n_batches S B false) * B.

(** ** The lists a dictionary object refers to *)

(** The locations of the lists of sequences of the dictionary at [d]. *)
Definition list_locs (h : heap) (d : loc) : list loc :=
  match heap_get h d with
  | Some (ODict items) => map snd items
  | _ => []
  end.

(** * Properties *)

(** ** Facts about the primitives *)

Lemma ceil_div_1 (a : Z) : ceil_div a 1 = a.
Proof. unfold ceil_div. rewrite Z.div_1_r. lia. Qed.

Lemma ceil_div_sub (a b : Z) : 0 < b -> ceil_div (a - b) b = ceil_div a b - 1.
Proof.
  intros Hb. unfold ceil_div.
  replace (- (a - b)) with (- a + 1 * b) by lia.
  rewrite Z.div_add by lia. lia.
Qed.

Lemma ceil_div_bounds (a b : Z) :
  0 < b -> (ceil_div a b - 1) * b < a <= ceil_div a b * b.
Proof.
  intros Hb. unfold ceil_div.
  pose proof (Z.mul_div_le (- a) b Hb).
  pose proof (Z.mul_succ_div_gt (- a) b Hb).
  nia.
Qed.

Lemma arange_step1 (n : Z) : arange 0 n 1 = map Z.of_nat (seq 0 (Z.to_nat n)).
Proof.
  unfold arange. rewrite Z.sub_0_r, ceil_div_1.
  apply map_ext. intros i. lia.
Qed.

Lemma firstn_seq (n start len : nat) :
  firstn n (seq start len) = seq start (Nat.min n len).
Proof.
  revert start len. induction n as [|n IH]; intros start [|len]; simpl; auto.
  now rewrite IH.
Qed.

Lemma map_seq_from {A : Type} (f : nat -> A) (a n : nat) :
  map f (seq a n) = map (fun i => f (a + i)%nat) (seq 0 n).
Proof.
  revert a f. induction n as [|n IH]; intros a f; simpl.
  - reflexivity.
  - rewrite Nat.add_0_r. f_equal.
    rewrite (IH (S a) f), (IH 1%nat (fun i => f (a + i)%nat)).
    apply map_ext. intros i. f_equal. lia.
Qed.

(** A slice of [0 .. N - 1] within bounds. *)
Lemma py_slice_range (N lo hi : Z) :
  0 <= lo <= hi -> hi <= N ->
  py_slice (map Z.of_nat (seq 0 (Z.to_nat N))) lo hi =
  map (fun i => lo + Z.of_nat i) (seq 0 (Z.to_nat (hi - lo))).
Proof.
  intros Hlo Hhi. unfold py_slice, slice_bound.
  rewrite length_map, length_seq, Z2Nat.id by lia.
  destruct (Z.ltb_spec lo 0); [lia|].
  destruct (Z.ltb_spec hi 0); [lia|].
  rewrite !Z.min_l by lia.
  rewrite skipn_map, firstn_map, skipn_seq, firstn_seq.
  rewrite Nat.min_l by lia.
  rewrite map_seq_from. apply map_ext. intros i. lia.
Qed.

Lemma window_slice (env_seq : string * string) (S off B : Z) :
  0 <= off -> 0 <= B -> off + B <= S ->
  map (fun idx => (env_seq, idx)) (py_slice (arange 0 S 1) off (off + B)) =
  window env_seq off B.
Proof.
  intros Hoff HB HS. rewrite arange_step1, py_slice_range by lia.
  unfold window. rewrite map_map.
  replace (off + B - off) with B by lia. reflexivity.
Qed.

(** The windows of a pair with [overlap=True]. *)
Lemma seq_batches_overlap (env_seq : string * string) (S B : Z) :
  0 <= B -> seq_batches env_seq S B true = Ok (sliding_windows env_seq S B).
Proof.
  intros HB. unfold seq_batches, np_arange, sliding_windows. simpl.
  unfold arange at 2. rewrite Z.sub_0_r, ceil_div_1, map_map.
  apply f_equal. apply map_ext_in. intros i Hi. apply in_seq in Hi.
  rewrite Z.add_0_l, Z.mul_1_r. apply window_slice; lia.
Qed.

(** The windows of a pair with [overlap=False]: every chunk but the last. *)
Lemma seq_batches_tiling (env_seq : string * string) (S B : Z) :
  0 < B ->
  seq_batches env_seq S B false =
  Ok (chunks env_seq (Z.to_nat (ceil_div S B - 1)) B).
Proof.
  intros HB. unfold seq_batches, np_arange, chunks.
  destruct (Z.eqb_spec B 0) as [?|_]; [lia|]. simpl.
  unfold arange at 2. rewrite Z.sub_0_r, ceil_div_sub, map_map by lia.
  apply f_equal. apply map_ext_in. intros j Hj. apply in_seq in Hj.
  rewrite Z.add_0_l.
  pose proof (ceil_div_bounds S HB).
  apply window_slice; nia.
Qed.

(** ** Grouping and re-slicing *)

(** The groups of [groupby], put end to end, are the list grouped. *)
Lemma groupby_concat {A : Type} (key : A -> string) (l : list A) :
  concat (map snd (groupby key l)) = l.
Proof.
  induction l as [|x l IH]; simpl; [reflexivity|].
  destruct (groupby key l) as [|[k g] gs]; simpl in *.
  - now rewrite <- IH.
  - destruct (String.eqb (key x) k); simpl; now rewrite <- IH.
Qed.

(** Every member of a group has the key of the group. *)
Lemma groupby_key {A : Type} (key : A -> string) (l : list A) :
  Forall (fun kg => Forall (fun x => key x = fst kg) (snd kg)) (groupby key l).
Proof.
  induction l as [|x l IH]; simpl; [constructor|].
  destruct (groupby key l) as [|[k g] gs]; simpl in *.
  - repeat constructor.
  - inversion IH as [|? ? Hg Hgs]; subst. simpl in Hg.
    destruct (String.eqb_spec (key x) k) as [Hk|Hk].
    + constructor; [|assumption]. simpl. constructor; assumption.
    + constructor; [repeat constructor|]. constructor; assumption.
Qed.

Lemma in_firstn {A : Type} (n : nat) (l : list A) (x : A) :
  In x (firstn n l) -> In x l.
Proof.
  intros H. rewrite <- (firstn_skipn n l). apply in_or_app. now left.
Qed.

Lemma in_skipn {A : Type} (n : nat) (l : list A) (x : A) :
  In x (skipn n l) -> In x l.
Proof.
  intros H. rewrite <- (firstn_skipn n l). apply in_or_app. now right.
Qed.

Lemma fill_member {A : Type} (n : nat) (l : list A) (x : A) :
  In (Some x) (fill n l) -> In x l.
Proof.
  unfold fill. intros H. apply in_app_or in H. destruct H as [H|H].
  - apply in_map_iff in H. destruct H as (y & Hy & Hin). now injection Hy as <-.
  - apply repeat_spec in H. discriminate.
Qed.

(** A tuple of [zip_longest] holds members of the list and fill values. *)
Lemma chunks_fill_member {A : Type} (fuel n : nat) (l : list A)
  (b : list (option A)) (x : A) :
  In b (chunks_fill fuel n l) -> In (Some x) b -> In x l.
Proof.
  revert l. induction fuel as [|fuel IH]; intros l Hb Hx; simpl in Hb.
  - destruct Hb.
  - destruct l as [|y l]; [destruct Hb|].
    destruct Hb as [<-|Hb].
    + apply fill_member in Hx. eapply in_firstn; eauto.
    + eapply in_skipn. eapply IH; eauto.
Qed.

Lemma present_fill {A : Type} (n : nat) (l : list A) :
  present (fill n l) = l.
Proof.
  unfold present, fill. rewrite flat_map_app.
  assert (H1 : forall l0 : list A,
             flat_map (fun x => match x with Some a => [a] | None => [] end)
                      (map Some l0) = l0).
  { induction l0 as [|x l0 IH]; simpl; [reflexivity|now rewrite IH]. }
  assert (H2 : forall k,
             flat_map (fun x : option A =>
                         match x with Some a => [a] | None => [] end)
                      (repeat None k) = []).
  { induction k; simpl; auto. }
  now rewrite H1, H2, app_nil_r.
Qed.

Lemma length_fill {A : Type} (n : nat) (l : list A) :
  (length l <= n)%nat -> length (fill n l) = n.
Proof.
  intros H. unfold fill. rewrite length_app, length_map, repeat_length. lia.
Qed.

(** The tuples of [zip_longest] take every element of the list, in order,
    and each has [n] entries: the fuel given is enough. *)
Lemma chunks_fill_all {A : Type} (fuel n : nat) (l : list A) :
  (0 < n)%nat -> (length l <= fuel)%nat ->
  flat_map present (chunks_fill fuel n l) = l /\
  Forall (fun b => length b = n) (chunks_fill fuel n l).
Proof.
  intros Hn. revert l. induction fuel as [|fuel IH]; intros l Hl.
  - destruct l; [split; [reflexivity|constructor]|simpl in Hl; lia].
  - destruct l as [|x l]; [split; [reflexivity|constructor]|].
    cbn [chunks_fill flat_map].
    destruct (IH (skipn n (x :: l))) as [IH1 IH2].
    { rewrite length_skipn. cbn [length] in *. lia. }
    split.
    + rewrite present_fill, IH1. apply firstn_skipn.
    + constructor; [|exact IH2]. apply length_fill.
      rewrite length_firstn. lia.
Qed.

Lemma zip_longest_iter_all {A : Type} (l : list A) (n : Z) :
  0 < n ->
  flat_map present (zip_longest_iter l n) = l /\
  Forall (fun b => length b = Z.to_nat n) (zip_longest_iter l n).
Proof.
  intros Hn. unfold zip_longest_iter.
  destruct (Z.leb_spec n 0); [lia|]. apply chunks_fill_all; lia.
Qed.

Lemma zip_longest_iter_member {A : Type} (l : list A) (n : Z)
  (b : list (option A)) (x : A) :
  In b (zip_longest_iter l n) -> In (Some x) b -> In x l.
Proof.
  unfold zip_longest_iter. destruct (n <=? 0); [intros []|].
  apply chunks_fill_member.
Qed.

(** ** The loop over the pairs *)

Lemma rmap_ok_Forall2 {A B : Type} (f : A -> result B) (l : list A)
  (l' : list B) :
  rmap f l = Ok l' -> Forall2 (fun x y => f x = Ok y) l l'.
Proof.
  revert l'. induction l as [|x l IH]; simpl; intros l' H.
  - injection H as <-. constructor.
  - destruct (f x) as [y|e] eqn:Hx; simpl in H; [|discriminate].
    destruct (rmap f l) as [ys|e]; simpl in H; [|discriminate].
    injection H as <-. constructor; auto.
Qed.

(** The sizes listed are those of the pairs of the catalog, in its order. *)
Lemma get_seq_sizes_ok (dataset : DatasetBase)
  (sizes : list ((string * string) * Z)) :
  get_seq_sizes dataset = Ok sizes ->
  map fst sizes = get_env_seqs dataset /\
  Forall (fun p => get_size dataset (fst (fst p)) (snd (fst p)) = Ok (snd p))
         sizes.
Proof.
  intros H. apply rmap_ok_Forall2 in H.
  induction H as [|es p l l' Hp _ [IH1 IH2]]; simpl; [now split|].
  destruct (get_size dataset (fst es) (snd es)) as [n|e] eqn:Hn;
    simpl in Hp; [|discriminate].
  injection Hp as <-. simpl. split; [now f_equal|].
  constructor; auto.
Qed.

Section SamplerFacts.

Variable rng : Type.
Variable np_random_shuffle : forall A : Type, list A -> rng -> list A * rng.

(** [np.random.shuffle] rearranges its argument. *)
Hypothesis np_random_shuffle_perm :
  forall (A : Type) (l : list A) (g : rng),
    Permutation l (fst (np_random_shuffle l g)).

Lemma shuffle_if_perm {A : Type} (b : bool) (l : list A) (g : rng) :
  Permutation l (fst (shuffle_if np_random_shuffle b l g)).
Proof. destruct b; simpl; auto. Qed.

(** The loop appends, pair after pair, a rearrangement of the windows of
    the pair; without the shuffle of batches, the windows themselves. *)
Lemma build_batches_groups (f : string * string -> Z -> list (list triple))
  (B : Z) (m : shuffle_mode) (overlap : bool) :
  (forall es S, seq_batches es S B overlap = Ok (f es S)) ->
  forall (sizes : list ((string * string) * Z)) (g : rng),
  exists groups g',
    build_batches np_random_shuffle sizes B m overlap g =
      Ok (concat groups, g') /\
    Forall2 (fun p grp => Permutation (f (fst p) (snd p)) grp) sizes groups /\
    (is_batch m = false ->
     groups = map (fun p => f (fst p) (snd p)) sizes /\ g' = g).
Proof.
  intros Hf sizes. induction sizes as [|[es S] sizes IH]; intros g; simpl.
  - exists [], g. split; [reflexivity|split]; [constructor|now split].
  - rewrite Hf. simpl.
    pose proof (shuffle_if_perm (is_batch m) (f es S) g) as Hp.
    destruct (shuffle_if np_random_shuffle (is_batch m) (f es S) g)
      as [batch g1] eqn:Hsh.
    destruct (IH g1) as (groups & g' & -> & HF & Hid). simpl.
    exists (batch :: groups), g'. split; [reflexivity|split].
    + constructor; auto.
    + intros Hm. rewrite Hm in Hsh. injection Hsh as <- <-.
      destruct (Hid Hm) as [-> ->]. now split.
Qed.

(** Every batch the loop appends is a window of one of the pairs. *)
Lemma build_batches_windows (B : Z) (m : shuffle_mode) (overlap : bool)
  (sizes : list ((string * string) * Z)) (g g' : rng)
  (bl : list (list triple)) :
  build_batches np_random_shuffle sizes B m overlap g = Ok (bl, g') ->
  Forall (is_window sizes B overlap) bl.
Proof.
  revert g g' bl.
  induction sizes as [|[es S] sizes IH]; intros g g' bl H; simpl in H.
  - injection H as <- _. constructor.
  - destruct (seq_batches es S B overlap) as [ws|e] eqn:Hws;
      simpl in H; [|discriminate].
    pose proof (shuffle_if_perm (is_batch m) ws g) as Hp.
    destruct (shuffle_if np_random_shuffle (is_batch m) ws g) as [ws' g1].
    destruct (build_batches np_random_shuffle sizes B m overlap g1)
      as [[more g2]|e] eqn:Hmore; simpl in H; [|discriminate].
    injection H as <- _. apply Forall_app. split.
    + apply Forall_forall. intros w Hw. exists (es, S), ws.
      split; [now left|]. split; [assumption|].
      eapply Permutation_in; [apply Permutation_sym; exact Hp|exact Hw].
    + specialize (IH _ _ _ Hmore). revert IH. apply Forall_impl.
      intros w (p & ws0 & Hin & Hs & Hw). exists p, ws0. split; [now right|auto].
Qed.

(** The loop returns when the windows of every pair can be built. *)
Lemma build_batches_returns (B : Z) (m : shuffle_mode) (overlap : bool) :
  (forall es S, exists ws, seq_batches es S B overlap = Ok ws) ->
  forall (sizes : list ((string * string) * Z)) (g : rng),
  exists bl g', build_batches np_random_shuffle sizes B m overlap g = Ok (bl, g').
Proof.
  intros Hf sizes. induction sizes as [|[es S] sizes IH]; intros g; simpl.
  - eauto.
  - destruct (Hf es S) as [ws ->]. simpl.
    destruct (shuffle_if np_random_shuffle (is_batch m) ws g) as [ws' g1].
    destruct (IH g1) as (more & g' & ->). simpl. eauto.
Qed.

(** Every batch of the re-slicing takes its triples from one group. *)
Lemma regroup_member (groups : list (string * list triple)) (B : Z) (g : rng)
  (b : list (option triple)) :
  In b (fst (regroup np_random_shuffle groups B g)) ->
  exists kg, In kg groups /\ forall t, In (Some t) b -> In t (snd kg).
Proof.
  revert g. induction groups as [|[k grp] groups IH]; intros g Hb; simpl in Hb.
  - destruct Hb.
  - pose proof (np_random_shuffle_perm grp g) as Hp.
    destruct (np_random_shuffle grp g) as [grp' g1].
    specialize (IH g1).
    destruct (regroup np_random_shuffle groups B g1) as [more g2].
    simpl in *. apply in_app_or in Hb. destruct Hb as [Hb|Hb].
    + exists (k, grp). split; [now left|]. intros t Ht. simpl.
      eapply Permutation_in; [apply Permutation_sym; exact Hp|].
      eapply zip_longest_iter_member; eauto.
    + destruct (IH Hb) as (kg & Hin & Hkg). exists kg. split; [now right|auto].
Qed.

(** Where every emitted batch comes from: without regrouping it is a
    window; with regrouping its triples are triples of windows of one
    environment. *)
Lemma init_batches (dataset : DatasetBase)
  (sizes : list ((string * string) * Z)) (B : Z) (m : shuffle_mode)
  (overlap : bool) (g g' : rng) (sampler : DefaultSampler) :
  get_seq_sizes dataset = Ok sizes ->
  DefaultSampler_init np_random_shuffle dataset B m overlap g =
    Ok (sampler, g') ->
  forall b, In b (batches sampler) ->
    (is_env_or_all m = false /\
     exists w, is_window sizes B overlap w /\ b = map Some w) \/
    (is_env_or_all m = true /\
     exists env, forall t, In (Some t) b ->
       fst (fst t) = env /\
       exists w, is_window sizes B overlap w /\ In t w).
Proof.
  intros Hsizes Hinit b Hb. unfold DefaultSampler_init in Hinit.
  rewrite Hsizes in Hinit. simpl in Hinit.
  pose proof (shuffle_if_perm (is_seq m) sizes g) as Hp.
  destruct (shuffle_if np_random_shuffle (is_seq m) sizes g) as [sizes' g1].
  simpl in Hp.
  destruct (build_batches np_random_shuffle sizes' B m overlap g1)
    as [[bl g2]|e] eqn:Hbl; simpl in Hinit; [|discriminate].
  apply build_batches_windows in Hbl.
  assert (Hwin : Forall (is_window sizes B overlap) bl).
  { revert Hbl. apply Forall_impl. intros w (p & ws & Hin & Hs & Hw).
    exists p, ws. split; [|auto].
    eapply Permutation_in; [apply Permutation_sym; exact Hp|exact Hin]. }
  clear Hbl. rewrite Forall_forall in Hwin.
  destruct (is_env_or_all m) eqn:Hm.
  - right. split; [reflexivity|].
    pose proof (groupby_key (fun t : triple => fst (fst t)) (concat bl)) as Hk.
    pose proof (groupby_concat (fun t : triple => fst (fst t)) (concat bl))
      as Hc.
    set (groups := groupby (fun t : triple => fst (fst t)) (concat bl)) in *.
    pose proof (regroup_member groups B g2) as Hr.
    destruct (regroup np_random_shuffle groups B g2) as [bl' g3].
    pose proof (shuffle_if_perm (is_all m) bl' g3) as Hp'.
    destruct (shuffle_if np_random_shuffle (is_all m) bl' g3) as [bl'' g4].
    injection Hinit as <- _. simpl in *.
    apply (Permutation_in _ (Permutation_sym Hp')) in Hb.
    destruct (Hr b Hb) as ([k grp] & Hin & Hgrp). simpl in Hgrp.
    exists k. intros t Ht. specialize (Hgrp t Ht). split.
    + rewrite Forall_forall in Hk. specialize (Hk _ Hin). simpl in Hk.
      rewrite Forall_forall in Hk. now apply Hk.
    + assert (Hall : In t (concat bl)).
      { rewrite <- Hc. apply in_concat. exists grp. split; [|assumption].
        apply in_map_iff. now exists (k, grp). }
      apply in_concat in Hall. destruct Hall as (w & Hw & Htw).
      exists w. auto.
  - left. split; [reflexivity|].
    assert (Hall : is_all m = false) by (destruct m; auto; discriminate).
    rewrite Hall in Hinit. simpl in Hinit. injection Hinit as <- _.
    simpl in Hb. apply in_map_iff in Hb. destruct Hb as (w & <- & Hw).
    exists w. auto.
Qed.

(** The constructor returns when the sizes are known and the windows of
    every pair can be built. *)
Lemma init_returns (dataset : DatasetBase)
  (sizes : list ((string * string) * Z)) (B : Z) (m : shuffle_mode)
  (overlap : bool) (g : rng) :
  (forall es S, exists ws, seq_batches es S B overlap = Ok ws) ->
  get_seq_sizes dataset = Ok sizes ->
  exists sampler g',
    DefaultSampler_init np_random_shuffle dataset B m overlap g =
      Ok (sampler, g').
Proof.
  intros Hf Hsizes. unfold DefaultSampler_init. rewrite Hsizes. simpl.
  destruct (shuffle_if np_random_shuffle (is_seq m) sizes g) as [sizes' g1].
  destruct (build_batches_returns B m overlap Hf sizes' g1) as (bl & g2 & ->).
  simpl.
  destruct (if is_env_or_all m then _ else _) as [bl' g3].
  destruct (shuffle_if np_random_shuffle (is_all m) bl' g3) as [bl'' g4].
  eauto.
Qed.

End SamplerFacts.

(** ** Windows and chunks *)

Lemma length_window (es : string * string) (off B : Z) :
  length (window es off B) = Z.to_nat B.
Proof. unfold window. now rewrite length_map, length_seq. Qed.

Lemma window_pair (es : string * string) (off B : Z) (t : triple) :
  In t (window es off B) -> fst t = es /\ off <= snd t < off + B.
Proof.
  unfold window. intros H. apply in_map_iff in H.
  destruct H as (i & <- & Hi). apply in_seq in Hi. simpl. split; [reflexivity|lia].
Qed.

Lemma chunks_S (es : string * string) (n : nat) (B : Z) :
  chunks es (S n) B = chunks es n B ++ [window es (Z.of_nat n * B) B].
Proof. unfold chunks. now rewrite seq_S, map_app. Qed.

Lemma length_chunks (es : string * string) (n : nat) (B : Z) :
  length (chunks es n B) = n.
Proof. unfold chunks. now rewrite length_map, length_seq. Qed.

Lemma frames_chunks_seq (es : string * string) (n : nat) (B : Z) :
  0 < B ->
  frames (chunks es n B) = map Z.of_nat (seq 0 (n * Z.to_nat B)).
Proof.
  intros HB. induction n as [|n IH]; [reflexivity|].
  unfold frames in *. rewrite chunks_S, concat_app, map_app.
  simpl concat. rewrite app_nil_r.
  replace (S n * Z.to_nat B)%nat with (n * Z.to_nat B + Z.to_nat B)%nat by lia.
  rewrite seq_app, map_app. f_equal; [exact IH|].
  unfold window. rewrite map_map, (map_seq_from Z.of_nat). simpl.
  apply map_ext. intros i. nia.
Qed.

(** The frames of the first [n] chunks are [0 .. n * B - 1], in order. *)
Lemma frames_chunks (es : string * string) (n : nat) (B : Z) :
  0 < B -> frames (chunks es n B) = arange 0 (Z.of_nat n * B) 1.
Proof.
  intros HB. rewrite arange_step1, frames_chunks_seq by assumption.
  do 2 f_equal. nia.
Qed.

(** The chunks emitted are the plain chunking without its final chunk. *)
Lemma chunks_removelast (es : string * string) (S B : Z) :
  0 < B ->
  chunks es (Z.to_nat (ceil_div S B - 1)) B =
  removelast (plain_chunking es S B).
Proof.
  intros HB. unfold plain_chunking, chunks.
  pose proof (ceil_div_bounds S HB) as Hc.
  destruct (Z.to_nat (ceil_div S B)) as [|n] eqn:HN.
  - replace (Z.to_nat (ceil_div S B - 1)) with 0%nat by lia. reflexivity.
  - replace (Z.to_nat (ceil_div S B - 1)) with n by lia.
    rewrite seq_S, map_app. simpl. rewrite removelast_last.
    apply map_ext_in. intros j Hj. apply in_seq in Hj.
    rewrite Z.min_l by nia. reflexivity.
Qed.

(** Every window of a pair holds triples of that pair only. *)
Lemma seq_batches_pair (es : string * string) (S B : Z) (overlap : bool)
  (ws : list (list triple)) (w : list triple) :
  seq_batches es S B overlap = Ok ws -> In w ws ->
  Forall (fun t => fst t = es) w.
Proof.
  unfold seq_batches. intros H Hw.
  destruct (np_arange 0 (S - B) (if overlap then 1 else B)) as [starts|e];
    simpl in H; [|discriminate].
  injection H as <-. apply in_map_iff in Hw. destruct Hw as (st & <- & _).
  apply Forall_forall. intros t Ht. apply in_map_iff in Ht.
  now destruct Ht as (idx & <- & _).
Qed.

Lemma rev_shuffle_perm (A : Type) (l : list A) (g : unit) :
  Permutation l (fst (rev_shuffle l g)).
Proof. apply Permutation_rev. Qed.

(** The reading of the plain chunking agrees with the batches the
    specification lists for the scenario. *)
Example plain_chunking_scenario :
  map (map Some)
      (flat_map (fun p => plain_chunking (fst p) (snd p) 2)
                [("envA", "s1", 5); ("envA", "s2", 3); ("envB", "s3", 10)]) =
  scenario_batches_listed.
Proof. reflexivity. Qed.

(** ** The sampler: tiling without overlap *)

(** C1, counterexample: for the scenario of the specification with
    [batch_size=2], [overlap=False] and no shuffle, the sampler does not
    emit the ten batches listed: the batch [[4]] of s1, the batch [[2]] of
    s2 and the batch [[8, 9]] of s3 are missing. *)
Lemma scenario_batches_not_listed :
  batches_of (DefaultSampler_init rev_shuffle scenario 2 ShuffleNone false tt)
  <> Some scenario_batches_listed.
Proof. vm_compute. discriminate. Qed.

(** C1, as amended: with [overlap=False], no shuffle and a positive batch
    size [B], the sampler emits, pair after pair in catalog order, the plain
    chunking of the indices of the pair without its final chunk: for a pair
    of size [S], [ceil (S / B) - 1] batches (none when that is not
    positive), each of exactly [B] frames, whose indices are
    [0 .. (ceil (S / B) - 1) * B - 1], each once and in order. For the
    scenario it emits seven batches. *)
Theorem tiling_emits_all_but_final_chunk :
  forall (rng : Type)
         (np_random_shuffle : forall A : Type, list A -> rng -> list A * rng)
         (dataset : DatasetBase) (sizes : list ((string * string) * Z))
         (B : Z) (g : rng),
    0 < B ->
    get_seq_sizes dataset = Ok sizes ->
    (exists sampler,
        DefaultSampler_init np_random_shuffle dataset B ShuffleNone false g =
          Ok (sampler, g) /\
        map fst (seq_sizes sampler) = get_env_seqs dataset /\
        batches sampler =
          map (map Some)
              (flat_map (fun p => removelast (plain_chunking (fst p) (snd p) B))
                        (seq_sizes sampler))) /\
    (forall es S,
        let emitted := removelast (plain_chunking es S B) in
        length emitted = Z.to_nat (ceil_div S B - 1) /\
        Forall (fun b => length b = Z.to_nat B) emitted /\
        Forall (Forall (fun t => fst t = es)) emitted /\
        frames emitted = arange 0 (Z.of_nat (length emitted) * B) 1) /\
    batches_of
      (DefaultSampler_init np_random_shuffle scenario 2 ShuffleNone false g) =
      Some scenario_batches_emitted.
Proof.
  intros rng sh dataset sizes B g HB Hsizes. split; [|split].
  - unfold DefaultSampler_init. rewrite Hsizes. simpl.
    assert (Hb : forall l g0,
               build_batches sh l B ShuffleNone false g0 =
               Ok (flat_map
                     (fun p => removelast (plain_chunking (fst p) (snd p) B)) l,
                   g0)).
    { induction l as [|[es S] l IH]; intros g0; simpl; [reflexivity|].
      rewrite seq_batches_tiling by assumption. simpl.
      rewrite IH. simpl. now rewrite chunks_removelast. }
    rewrite Hb. simpl. eexists. split; [reflexivity|]. simpl.
    split; [|reflexivity]. now apply get_seq_sizes_ok.
  - intros es S emitted. subst emitted.
    rewrite <- chunks_removelast by assumption.
    rewrite length_chunks. split; [reflexivity|]. split; [|split].
    + apply Forall_forall. intros b Hb. unfold chunks in Hb.
      apply in_map_iff in Hb. destruct Hb as (j & <- & _).
      apply length_window.
    + apply Forall_forall. intros b Hb. unfold chunks in Hb.
      apply in_map_iff in Hb. destruct Hb as (j & <- & _).
      apply Forall_forall. intros t Ht. now apply window_pair in Ht.
    + now apply frames_chunks.
  - reflexivity.
Qed.

Lemma tiling_emits_all_but_final_chunk_witness :
  0 < 2 /\
  get_seq_sizes scenario =
    Ok [("envA", "s1", 5); ("envA", "s2", 3); ("envB", "s3", 10)] /\
  frames (removelast (plain_chunking ("envB", "s3") 10 2)) =
    arange 0 (Z.of_nat (length (removelast (plain_chunking ("envB", "s3") 10 2)))
              * 2) 1.
Proof.
  split; [lia|]. split; [reflexivity|].
  apply (@tiling_emits_all_but_final_chunk unit rev_shuffle scenario
           [("envA", "s1", 5); ("envA", "s2", 3); ("envB", "s3", 10)] 2 tt);
    [lia|reflexivity].
Defined.

(** C2, counterexample: a catalog whose only sequence has 3 frames, sampled
    with [batch_size=5] and [overlap=False], yields no batch at all, so not
    exactly one. *)
Lemma short_sequence_not_one_batch :
  ~ exists b,
      batches_of
        (DefaultSampler_init rev_shuffle short_dataset 5 ShuffleNone false tt) =
      Some [b].
Proof. intros [b Hb]. vm_compute in Hb. discriminate. Qed.

(** C2, as amended: with [overlap=False] and a positive batch size, a pair
    whose size is strictly smaller than the batch size gets no batch: the
    constructor returns, and no emitted batch holds a triple of that pair,
    whatever the shuffle mode. *)
Theorem short_sequence_emits_no_batch :
  forall (rng : Type)
         (np_random_shuffle : forall A : Type, list A -> rng -> list A * rng),
    (forall (A : Type) (l : list A) (g : rng),
        Permutation l (fst (np_random_shuffle A l g))) ->
    forall (dataset : DatasetBase) (sizes : list ((string * string) * Z))
           (B : Z) (m : shuffle_mode) (g : rng),
      0 < B ->
      get_seq_sizes dataset = Ok sizes ->
      exists sampler g',
        DefaultSampler_init np_random_shuffle dataset B m false g =
          Ok (sampler, g') /\
        forall env seq S,
          In (env, seq, S) sizes -> S < B ->
          forall b idx,
            In b (batches sampler) -> ~ In (Some (env, seq, idx)) b.
Proof.
  intros rng sh Hperm dataset sizes B m g HB Hsizes.
  assert (Hf : forall es S, exists ws, seq_batches es S B false = Ok ws).
  { intros es S. rewrite seq_batches_tiling by assumption. eauto. }
  destruct (init_returns sh dataset B m false g Hf Hsizes)
    as (sampler & g' & Hinit).
  exists sampler, g'. split; [assumption|].
  intros env seq S Hin HS b idx Hb Ht.
  assert (Hw : exists w, is_window sizes B false w /\ In (env, seq, idx) w).
  { destruct (init_batches sh Hperm dataset B m false g Hsizes Hinit b Hb)
      as [[_ (w & Hw & ->)]|[_ (e & He)]].
    - exists w. split; [assumption|].
      apply in_map_iff in Ht. destruct Ht as (t & Heq & Hin'). now injection Heq as <-.
    - destruct (He _ Ht) as [_ Hex]. exact Hex. }
  destruct Hw as (w & (p & ws & Hp & Hws & Hww) & Htw).
  rewrite seq_batches_tiling in Hws by assumption. injection Hws as <-.
  unfold chunks in Hww. apply in_map_iff in Hww. destruct Hww as (j & <- & Hj).
  apply in_seq in Hj. apply window_pair in Htw. destruct Htw as [Hes _].
  simpl in Hes.
  destruct (get_seq_sizes_ok dataset Hsizes) as [_ Hall].
  rewrite Forall_forall in Hall.
  pose proof (Hall _ Hp) as H1. pose proof (Hall _ Hin) as H2.
  rewrite <- Hes in H1. simpl in H1, H2. rewrite H2 in H1. injection H1 as H1.
  pose proof (ceil_div_bounds (snd p) HB). nia.
Qed.

Lemma short_sequence_emits_no_batch_witness :
  0 < 4 /\
  get_seq_sizes scenario =
    Ok [("envA", "s1", 5); ("envA", "s2", 3); ("envB", "s3", 10)] /\
  exists sampler g',
    DefaultSampler_init rev_shuffle scenario 4 ShuffleAll false tt =
      Ok (sampler, g') /\
    forall env seq S,
      In (env, seq, S)
         [("envA", "s1", 5); ("envA", "s2", 3); ("envB", "s3", 10)] ->
      S < 4 ->
      forall b idx, In b (batches sampler) -> ~ In (Some (env, seq, idx)) b.
Proof.
  split; [lia|]. split; [reflexivity|].
  apply (@short_sequence_emits_no_batch unit rev_shuffle rev_shuffle_perm
           scenario _ 4 ShuffleAll tt); [lia|reflexivity].
Defined.

(** ** The sampler: sliding windows *)



(** ** The sampler: what a batch may mix *)

(** C8: every batch of a sampler the constructor returns holds triples of
    one (environment, sequence) pair under the shuffle modes none, "seq"
    and "batch"; under "env" and "all" its entries are fill values or
    triples of one environment. *)
Theorem batches_share_pair_or_environment :
  forall (rng : Type)
         (np_random_shuffle : forall A : Type, list A -> rng -> list A * rng),
    (forall (A : Type) (l : list A) (g : rng),
        Permutation l (fst (np_random_shuffle A l g))) ->
    forall (dataset : DatasetBase) (B : Z) (m : shuffle_mode) (overlap : bool)
           (g g' : rng) (sampler : DefaultSampler),
      DefaultSampler_init np_random_shuffle dataset B m overlap g =
        Ok (sampler, g') ->
      forall b, In b (batches sampler) ->
        (m = ShuffleNone \/ m = ShuffleSeq \/ m = ShuffleBatch ->
         exists env seq,
           forall x, In x b -> exists idx, x = Some (env, seq, idx)) /\
        (m = ShuffleEnv \/ m = ShuffleAll ->
         exists env,
           forall x, In x b ->
             x = None \/ exists seq idx, x = Some (env, seq, idx)).
Proof.
  intros rng sh Hperm dataset B m overlap g g' sampler Hinit b Hb.
  destruct (get_seq_sizes dataset) as [sizes|e] eqn:Hsizes;
    [|unfold DefaultSampler_init in Hinit; rewrite Hsizes in Hinit;
      discriminate].
  destruct (init_batches sh Hperm dataset B m overlap g Hsizes Hinit b Hb)
    as [[Hm (w & (p & ws & _ & Hws & Hw) & ->)]|[Hm (env & Henv)]].
  - split; [|intros [->| ->]; discriminate].
    intros _. pose proof (seq_batches_pair _ _ _ _ _ Hws Hw) as Hes.
    rewrite Forall_forall in Hes.
    exists (fst (fst p)), (snd (fst p)). intros x Hx.
    apply in_map_iff in Hx. destruct Hx as ([[e s] i] & <- & Ht).
    specialize (Hes _ Ht). simpl in Hes. rewrite <- Hes. now exists i.
  - split; [intros [->|[->| ->]]; discriminate|].
    intros _. exists env. intros [[[e s] i]|] Hx; [right|now left].
    destruct (Henv _ Hx) as [<- _]. now exists s, i.
Qed.

Lemma batches_share_pair_or_environment_witness :
  exists sampler,
    DefaultSampler_init rev_shuffle scenario 3 ShuffleAll false tt =
      Ok (sampler, tt) /\
    forall b, In b (batches sampler) ->
      (ShuffleAll = ShuffleNone \/ ShuffleAll = ShuffleSeq \/
       ShuffleAll = ShuffleBatch ->
       exists env seq,
         forall x, In x b -> exists idx, x = Some (env, seq, idx)) /\
      (ShuffleAll = ShuffleEnv \/ ShuffleAll = ShuffleAll ->
       exists env,
         forall x, In x b ->
           x = None \/ exists seq idx, x = Some (env, seq, idx)).
Proof.
  eexists. split; [reflexivity|].
  apply (@batches_share_pair_or_environment unit rev_shuffle rev_shuffle_perm
           scenario 3 ShuffleAll false tt tt).
  reflexivity.
Defined.

(** ** Item access *)

Lemma dict_mem_In (c : catalog) (key : string) :
  dict_mem c key = true <-> In key (map fst c).
Proof.
  unfold dict_mem. rewrite existsb_exists. split.
  - intros (k & Hin & Hk). apply String.eqb_eq in Hk. now subst.
  - intros Hin. exists key. split; [assumption|apply String.eqb_refl].
Qed.

Lemma list_mem_In (l : list string) (x : string) :
  list_mem l x = true <-> In x l.
Proof.
  unfold list_mem. rewrite existsb_exists. split.
  - intros (y & Hin & Hy). apply String.eqb_eq in Hy. now subst.
  - intros Hin. exists x. split; [assumption|apply String.eqb_refl].
Qed.

Lemma not_true_false (b : bool) : b <> true -> b = false.
Proof. now destruct b. Qed.

(** C7: [__getitem__] fails with the assertion of the first check that
    does not hold (unknown environment, unknown sequence, index out of
    range), three different messages, without a call of the item-fetch hook
    (the size hook is asked only when the first two checks pass and
    [0 <= idx]); when the three checks pass and the hook returns [item], the
    result is the tuple of [item] (wrapped when it is not a tuple) followed
    by the triple [(env, seq, idx)]. *)
Theorem getitem_validates :
  forall (self : DatasetBase) (env seq : string) (idx : Z)
         (log : list hook_call),
    (~ In env (envs self) ->
     getitem self (env, seq, idx) log =
       (Raise (AssertionError (NoSuchEnvironment env)), log)) /\
    (forall l,
        In env (envs self) -> dict_get (seqs self) env = Ok l ->
        (~ In seq l ->
         getitem self (env, seq, idx) log =
           (Raise (AssertionError (NoSuchSequence env seq)), log)) /\
        (In seq l -> idx < 0 ->
         getitem self (env, seq, idx) log =
           (Raise (AssertionError (IndexOutOfBound env seq idx)), log)) /\
        (forall size,
            In seq l -> get_size self env seq = Ok size ->
            0 <= idx -> size <= idx ->
            getitem self (env, seq, idx) log =
              (Raise (AssertionError (IndexOutOfBound env seq idx)),
               log ++ [CallGetSize env seq])) /\
        (forall size item,
            In seq l -> get_size self env seq = Ok size ->
            0 <= idx < size -> getitem_impl self env seq idx = Ok item ->
            getitem self (env, seq, idx) log =
              (Ok (VTuple (as_tuple item ++ [VTriple (env, seq, idx)])),
               log ++ [CallGetSize env seq; CallGetItem env seq idx]) /\
            forall d,
              last (as_tuple item ++ [VTriple (env, seq, idx)]) d =
                VTriple (env, seq, idx))) /\
    NoSuchEnvironment env <> NoSuchSequence env seq /\
    NoSuchEnvironment env <> IndexOutOfBound env seq idx /\
    NoSuchSequence env seq <> IndexOutOfBound env seq idx.
Proof.
  intros self env seq idx log. split; [|split].
  - intros Hin. unfold getitem.
    rewrite (@not_true_false (dict_mem (seqs self) env)); [reflexivity|].
    intros H. apply Hin. now apply dict_mem_In.
  - intros l Henv Hl.
    assert (Hmem : dict_mem (seqs self) env = true) by now apply dict_mem_In.
    unfold getitem. rewrite Hmem, Hl. simpl. split; [|split; [|split]].
    + intros Hseq. rewrite (@not_true_false (list_mem l seq)); [reflexivity|].
      intros H. apply Hseq. now apply list_mem_In.
    + intros Hseq Hidx. apply list_mem_In in Hseq. rewrite Hseq. simpl.
      destruct (Z.ltb_spec idx 0); [reflexivity|lia].
    + intros size Hseq Hsize H0 Hidx. apply list_mem_In in Hseq.
      rewrite Hseq, Hsize. simpl.
      destruct (Z.ltb_spec idx 0); [lia|].
      destruct (Z.ltb_spec idx size); [lia|reflexivity].
    + intros size item Hseq Hsize Hidx Hitem. apply list_mem_In in Hseq.
      rewrite Hseq, Hsize, Hitem. simpl.
      destruct (Z.ltb_spec idx 0); [lia|].
      destruct (Z.ltb_spec idx size); [|lia]. simpl.
      rewrite <- app_assoc. split; [reflexivity|].
      intros d. apply last_last.
  - repeat split; discriminate.
Qed.

Lemma getitem_validates_witness :
  getitem scenario ("envA", "s2", 1) [] =
    (Ok (VTuple [VInt 1; VTuple [VStr "envA"; VStr "s2"; VInt 1]]),
     [CallGetSize "envA" "s2"; CallGetItem "envA" "s2" 1]).
Proof.
  destruct (getitem_validates scenario "envA" "s2" 1 []) as (_ & H & _).
  destruct (H ["s1"; "s2"]) as (_ & _ & _ & H4);
    [simpl; auto|reflexivity|].
  destruct (H4 3 (VInt 1)) as [H5 _];
    [simpl; auto|reflexivity|lia|reflexivity|].
  exact H5.
Defined.

(** ** Filtering *)

(** In a dictionary the value stored under a key is the value of its
    entry. *)
Lemma dict_get_in (c : catalog) (k : string) (v : list string) :
  dict_ok c -> In (k, v) c -> dict_get c k = Ok v.
Proof.
  unfold dict_ok. induction c as [|[k0 v0] c IH]; simpl; intros Hnd Hin.
  - destruct Hin.
  - inversion Hnd as [|? ? Hk0 Hnd']; subst.
    destruct Hin as [Heq|Hin].
    + injection Heq as -> ->. now rewrite String.eqb_refl.
    + destruct (String.eqb_spec k0 k) as [->|_]; [|auto].
      exfalso. apply Hk0. apply in_map_iff. now exists (k, v).
Qed.

(** The pairs of a dictionary, entry after entry. *)
Lemma catalog_env_seqs_entries (c : catalog) :
  dict_ok c ->
  catalog_env_seqs c =
  flat_map (fun kv => map (fun seq => (fst kv, seq)) (snd kv)) c.
Proof.
  intros Hok. unfold catalog_env_seqs.
  rewrite !flat_map_concat_map, map_map. f_equal.
  apply map_ext_in. intros [k v] Hin. simpl.
  now rewrite (@dict_get_in c k v Hok Hin).
Qed.

Lemma dict_get_middle (done rest : catalog) (k : string) (v : list string) :
  ~ In k (map fst done) -> dict_get (done ++ (k, v) :: rest) k = Ok v.
Proof.
  induction done as [|[k0 v0] done IH]; simpl; intros Hk.
  - now rewrite String.eqb_refl.
  - destruct (String.eqb_spec k0 k) as [->|_]; [exfalso; auto|auto].
Qed.

Lemma dict_store_middle (done rest : catalog) (k : string)
  (v v' : list string) :
  ~ In k (map fst done) ->
  dict_store (done ++ (k, v) :: rest) k v' = done ++ (k, v') :: rest.
Proof.
  induction done as [|[k0 v0] done IH]; simpl; intros Hk.
  - now rewrite String.eqb_refl.
  - destruct (String.eqb_spec k0 k) as [->|_]; [exfalso; auto|].
    rewrite IH; auto.
Qed.

Lemma dict_pop_middle (done rest : catalog) (k : string) (v : list string) :
  ~ In k (map fst done) ->
  dict_pop (done ++ (k, v) :: rest) k = Ok (done ++ rest).
Proof.
  induction done as [|[k0 v0] done IH]; simpl; intros Hk.
  - now rewrite String.eqb_refl.
  - destruct (String.eqb_spec k0 k) as [->|_]; [exfalso; auto|].
    rewrite IH; auto.
Qed.

(** [remove] takes the element out where it first occurs. *)
Lemma list_remove_first (kept todo : list string) (x : string) :
  ~ In x kept -> list_remove (kept ++ x :: todo) x = Ok (kept ++ todo).
Proof.
  induction kept as [|y kept IH]; simpl; intros Hx.
  - now rewrite String.eqb_refl.
  - destruct (String.eqb_spec y x) as [->|_]; [exfalso; auto|].
    rewrite IH; auto.
Qed.

Section FilteringFacts.

Variable pattern : Type.
Variable re_search : pattern -> string -> bool.
Variables incl_pattern excl_pattern : option pattern.

Let keep (env seq : string) : bool :=
  negb (rejected re_search incl_pattern excl_pattern (get_seq_id env seq)).

Lemma filter_loop_app (p1 p2 : list (string * string)) (c : catalog) :
  filter_loop re_search (p1 ++ p2) incl_pattern excl_pattern c =
  let? c' := filter_loop re_search p1 incl_pattern excl_pattern c in
  filter_loop re_search p2 incl_pattern excl_pattern c'.
Proof.
  revert c. induction p1 as [|[env seq] p1 IH]; intros c; simpl; [reflexivity|].
  destruct (rejected re_search incl_pattern excl_pattern (get_seq_id env seq));
    simpl; [|apply IH].
  destruct (remove_seq c env seq); simpl; [apply IH|reflexivity].
Qed.

(** The loop over the pairs of one environment: [kept] are the sequences
    of its list already seen, [todo] those still to come. *)
Lemma filter_loop_entry (env : string) (done rest : catalog)
  (todo kept : list string) :
  ~ In env (map fst done) ->
  Forall (fun seq => keep env seq = true) kept ->
  filter_loop re_search (map (fun seq => (env, seq)) todo)
              incl_pattern excl_pattern (done ++ (env, kept ++ todo) :: rest) =
  Ok (done ++ kept_entry re_search incl_pattern excl_pattern env kept todo
           ++ rest).
Proof.
  intros Henv. revert kept. induction todo as [|s todo IH]; intros kept Hkept.
  - simpl. unfold kept_entry. simpl. rewrite app_nil_r.
    now destruct kept.
  - simpl. unfold kept_entry. simpl. fold (keep env s).
    destruct (keep env s) eqn:Hs; unfold keep in Hs.
    + apply negb_true_iff in Hs. rewrite Hs. simpl.
      replace (kept ++ s :: todo) with ((kept ++ [s]) ++ todo)
        by now rewrite <- app_assoc.
      rewrite IH.
      * unfold kept_entry. rewrite <- !app_assoc. simpl.
        destruct (kept ++ s :: _) eqn:E; [|reflexivity].
        now destruct kept.
      * apply Forall_app. split; [assumption|].
        constructor; [|constructor]. unfold keep. now rewrite Hs.
    + apply negb_false_iff in Hs. rewrite Hs. simpl.
      assert (Hnot : ~ In s kept).
      { intros Hin. rewrite Forall_forall in Hkept.
        specialize (Hkept _ Hin). unfold keep in Hkept.
        rewrite Hs in Hkept. discriminate. }
      unfold remove_seq.
      rewrite dict_get_middle by assumption. cbn [rbind].
      rewrite list_remove_first by assumption. cbn [rbind].
      rewrite dict_store_middle, dict_get_middle by assumption. cbn [rbind].
      destruct (kept ++ todo) as [|x l] eqn:E.
      * apply app_eq_nil in E. destruct E as [-> ->].
        rewrite dict_pop_middle by assumption. reflexivity.
      * simpl. rewrite <- E. rewrite IH by assumption.
        unfold kept_entry.
        destruct (kept ++ filter _ todo) eqn:E'; [|reflexivity].
        apply app_eq_nil in E'. destruct E' as [-> _].
        simpl in E. rewrite E. reflexivity.
Qed.

Lemma kept_entry_keys (env : string) (l : list string) (k : string) :
  In k (map fst (kept_entry re_search incl_pattern excl_pattern env [] l)) ->
  k = env.
Proof.
  unfold kept_entry. simpl.
  destruct (filter _ l); [destruct l|]; simpl; intros H;
    try destruct H as [H|[]]; now try destruct H.
Qed.

(** The loop over all the pairs builds the catalog of the
    specification. *)
Lemma filter_loop_catalog (rest done : catalog) :
  NoDup (map fst rest) ->
  (forall k, In k (map fst rest) -> ~ In k (map fst done)) ->
  filter_loop re_search
              (flat_map (fun kv => map (fun seq => (fst kv, seq)) (snd kv)) rest)
              incl_pattern excl_pattern (done ++ rest) =
  Ok (done ++ filtered re_search incl_pattern excl_pattern rest).
Proof.
  revert done. induction rest as [|[env l] rest IH]; intros done Hnd Hdis.
  - reflexivity.
  - simpl. inversion Hnd as [|? ? Henv Hnd']; subst.
    rewrite filter_loop_app.
    assert (Hd : ~ In env (map fst done)) by (apply Hdis; now left).
    pose proof (@filter_loop_entry env done rest l [] Hd (Forall_nil _)) as He.
    simpl in He. rewrite He. clear He.
    cbn [rbind]. rewrite app_assoc. rewrite IH; [now rewrite <- app_assoc|assumption|].
    intros k Hk Hin. rewrite map_app in Hin. apply in_app_or in Hin.
    destruct Hin as [Hin|Hin].
    + apply (Hdis k); [now right|assumption].
    + apply kept_entry_keys in Hin. now subst.
Qed.

(** What the catalog of the specification holds. *)
Lemma filtered_pairs (c : catalog) (env seq : string) :
  In (env, seq)
     (flat_map (fun kv => map (fun seq => (fst kv, seq)) (snd kv))
               (filtered re_search incl_pattern excl_pattern c)) <->
  In (env, seq)
     (flat_map (fun kv => map (fun seq => (fst kv, seq)) (snd kv)) c) /\
  keep env seq = true.
Proof.
  unfold filtered. rewrite !in_flat_map. split.
  - intros ([k v] & Hkv & Hin). apply in_flat_map in Hkv.
    destruct Hkv as ([k0 v0] & Hc & Hentry). simpl in *.
    apply in_map_iff in Hin. destruct Hin as (s & Heq & Hs).
    injection Heq as -> ->.
    unfold kept_entry in Hentry. simpl in Hentry.
    destruct (filter _ v0) as [|x f] eqn:E.
    + destruct v0; [|destruct Hentry].
      destruct Hentry as [Heq|[]]. injection Heq as <- <-. destruct Hs.
    + destruct Hentry as [Heq|[]]. injection Heq as <- <-.
      rewrite <- E in Hs. apply filter_In in Hs. destruct Hs as [Hs Hk].
      split; [|exact Hk]. exists (k0, v0). split; [assumption|].
      simpl. apply in_map_iff. now exists seq.
  - intros [([k v] & Hc & Hin) Hk]. simpl in *.
    apply in_map_iff in Hin. destruct Hin as (s & Heq & Hs).
    injection Heq as -> ->.
    assert (Hf : In seq (filter (fun s => keep env s) v))
      by (apply filter_In; now split).
    exists (env, filter (fun s => keep env s) v). split.
    + apply in_flat_map. exists (env, v). split; [assumption|].
      unfold kept_entry. simpl. fold (keep env).
      destruct (filter _ v) eqn:E; [destruct Hf|now left].
    + simpl. apply in_map_iff. now exists seq.
Qed.

Lemma filtered_keys (c : catalog) (k : string) :
  In k (map fst (filtered re_search incl_pattern excl_pattern c)) ->
  In k (map fst c).
Proof.
  unfold filtered. intros H. apply in_map_iff in H.
  destruct H as ([k0 v0] & <- & Hin). apply in_flat_map in Hin.
  destruct Hin as ([k1 v1] & Hc & Hentry). simpl in *.
  assert (k0 = k1)
    by (apply (kept_entry_keys k1 v1); apply in_map_iff; now exists (k0, v0)).
  subst. apply in_map_iff. now exists (k1, v1).
Qed.

Lemma filtered_dict_ok (c : catalog) :
  dict_ok c -> dict_ok (filtered re_search incl_pattern excl_pattern c).
Proof.
  unfold dict_ok. induction c as [|[k v] c IH]; simpl; intros Hnd.
  - constructor.
  - inversion Hnd as [|? ? Hk Hnd']; subst.
    fold (filtered re_search incl_pattern excl_pattern c).
    unfold kept_entry. simpl.
    destruct (filter _ v); [destruct v|]; simpl; auto;
      constructor; auto; intros Hin; apply Hk; now apply filtered_keys.
Qed.

Lemma filtered_nonempty (c : catalog) :
  Forall (fun kv => snd kv <> []) c ->
  Forall (fun kv => snd kv <> [])
         (filtered re_search incl_pattern excl_pattern c).
Proof.
  unfold filtered. induction 1 as [|[k v] c Hv _ IH]; simpl; [constructor|].
  apply Forall_app. split; [|assumption].
  unfold kept_entry. simpl in *.
  destruct (filter _ v) eqn:E; [destruct v; [contradiction|constructor]|].
  constructor; [discriminate|constructor].
Qed.

End FilteringFacts.

Lemma filter_loop_none (pattern : Type) (re_search : pattern -> string -> bool)
  (pairs : list (string * string)) (c : catalog) :
  filter_loop re_search pairs None None c = Ok c.
Proof. induction pairs as [|[env seq] pairs IH]; simpl; auto. Qed.

Lemma with_seqs_same (self : DatasetBase) : with_seqs self (seqs self) = self.
Proof. now destruct self. Qed.

(** C9: without patterns, [include_exclude] returns and leaves the catalog
    (and the dataset) as it was, for every catalog. *)
Theorem include_exclude_none_is_identity :
  forall (pattern : Type) (re_compile : string -> result pattern)
         (re_search : pattern -> string -> bool) (self : DatasetBase),
    include_exclude re_compile re_search self None None = Ok self /\
    forall self',
      include_exclude re_compile re_search self None None = Ok self' ->
      seqs self' = seqs self.
Proof.
  intros pattern re_compile re_search self.
  assert (H : include_exclude re_compile re_search self None None = Ok self).
  { unfold include_exclude. simpl. rewrite filter_loop_none. simpl.
    now rewrite with_seqs_same. }
  split; [exact H|]. intros self' H'. rewrite H in H'. now injection H' as <-.
Qed.

Lemma rejected_false_iff (pattern : Type)
  (re_search : pattern -> string -> bool) (incl excl : option pattern)
  (seq_id : string) :
  negb (rejected re_search incl excl seq_id) = true <->
  (forall p, incl = Some p -> re_search p seq_id = true) /\
  (forall p, excl = Some p -> re_search p seq_id = false).
Proof.
  unfold rejected. rewrite negb_true_iff, orb_false_iff. split.
  - intros [Hi He]. split; intros p ->.
    + now apply negb_false_iff.
    + assumption.
  - intros [Hi He]. split.
    + destruct incl as [p|]; [|reflexivity].
      apply negb_false_iff. now apply Hi.
    + destruct excl as [p|]; [|reflexivity]. now apply He.
Qed.

(** C6: on a catalog that is a dictionary without empty lists, when the
    patterns given compile, [include_exclude] returns, and the pairs of the
    catalog it leaves are the pairs it had whose key matches the include
    pattern (if given) and does not match the exclude pattern (if given);
    no environment is left with an empty list. *)
Theorem include_exclude_filters :
  forall (pattern : Type) (re_compile : string -> result pattern)
         (re_search : pattern -> string -> bool) (self : DatasetBase)
         (include exclude : option string) (incl excl : option pattern),
    dict_ok (seqs self) ->
    Forall (fun kv => snd kv <> []) (seqs self) ->
    compile_opt re_compile include = Ok incl ->
    compile_opt re_compile exclude = Ok excl ->
    exists self',
      include_exclude re_compile re_search self include exclude = Ok self' /\
      (forall env seq,
          In (env, seq) (get_env_seqs self') <->
          In (env, seq) (get_env_seqs self) /\
          (forall p, incl = Some p -> re_search p (get_seq_id env seq) = true) /\
          (forall p, excl = Some p ->
                     re_search p (get_seq_id env seq) = false)) /\
      Forall (fun kv => snd kv <> []) (seqs self') /\
      dict_ok (seqs self').
Proof.
  intros pattern re_compile re_search self include exclude incl excl
    Hok Hne Hincl Hexcl.
  exists (with_seqs self (filtered re_search incl excl (seqs self))).
  split; [|split; [|split]].
  - unfold include_exclude. rewrite Hincl, Hexcl. simpl.
    unfold get_env_seqs. rewrite catalog_env_seqs_entries by assumption.
    pose proof (@filter_loop_catalog pattern re_search incl excl
                  (seqs self) [] Hok (fun k _ H => H)) as Hloop.
    simpl in Hloop. rewrite Hloop. reflexivity.
  - intros env seq. unfold get_env_seqs. simpl.
    rewrite !catalog_env_seqs_entries
      by (try apply filtered_dict_ok; assumption).
    rewrite filtered_pairs. now rewrite rejected_false_iff.
  - simpl. now apply filtered_nonempty.
  - simpl. now apply filtered_dict_ok.
Qed.

Lemma include_exclude_filters_witness :
  exists self',
    include_exclude (fun s => Ok s) literal_search scenario
                    (Some "s") (Some "A_s2") = Ok self' /\
    seqs self' = [("envA", ["s1"]); ("envB", ["s3"])] /\
    Forall (fun kv => snd kv <> []) (seqs self').
Proof.
  destruct (@include_exclude_filters string (fun s => Ok s) literal_search
              scenario (Some "s") (Some "A_s2") (Some "s") (Some "A_s2"))
    as (self' & Hrun & _ & Hne & _).
  - repeat constructor; simpl; intuition discriminate.
  - repeat constructor; discriminate.
  - reflexivity.
  - reflexivity.
  - exists self'. split; [exact Hrun|]. split; [|exact Hne].
    vm_compute in Hrun. now injection Hrun as <-.
Defined.

(** ** Random split: the pieces of the permutation *)

Lemma insert_sorted_perm (x : nat) (l : list nat) :
  Permutation (insert_sorted x l) (x :: l).
Proof.
  induction l as [|y l IH]; simpl; [reflexivity|].
  destruct (x <=? y)%nat; [reflexivity|].
  rewrite IH. apply perm_swap.
Qed.

Lemma sorted_perm (l : list nat) : Permutation (sorted l) l.
Proof.
  induction l as [|x l IH]; simpl; [reflexivity|].
  rewrite insert_sorted_perm. now constructor.
Qed.

(** [np.take] returns the elements at the indices when these are within
    the list. *)
Lemma np_take_ok {A : Type} (l : list A) (indices : list nat) (d : A) :
  Forall (fun i => (i < length l)%nat) indices ->
  np_take l indices = Ok (map (fun i => nth i l d) indices).
Proof.
  unfold np_take. induction 1 as [|i indices Hi _ IH]; simpl; [reflexivity|].
  rewrite IH. destruct (nth_error l i) as [x|] eqn:E.
  - simpl. now rewrite (nth_error_nth _ _ d E).
  - apply nth_error_None in E. lia.
Qed.

Lemma map_nth_seq {A : Type} (l : list A) (d : A) :
  map (fun i => nth i l d) (seq 0 (length l)) = l.
Proof.
  induction l as [|x l IH]; simpl; [reflexivity|].
  f_equal. rewrite <- seq_shift, map_map. exact IH.
Qed.

Lemma py_slice_nat {A : Type} (l : list A) (a b : Z) :
  0 <= a -> 0 <= b ->
  py_slice l a b =
  firstn (Z.to_nat (Z.min b (Z.of_nat (length l)))
          - Z.to_nat (Z.min a (Z.of_nat (length l))))
         (skipn (Z.to_nat (Z.min a (Z.of_nat (length l)))) l).
Proof.
  intros Ha Hb. unfold py_slice, slice_bound.
  destruct (Z.ltb_spec a 0); [lia|]. destruct (Z.ltb_spec b 0); [lia|].
  f_equal. lia.
Qed.

(** The slices between the points of a chain, followed by the rest, are
    the list from the first point on. *)
Lemma slices_concat {A : Type} (l : list A) (indices : list Z) (st : Z) :
  0 <= st -> chain st indices ->
  concat (slices l st (indices ++ [Z.of_nat (length l)])) =
  skipn (Z.to_nat (Z.min st (Z.of_nat (length l)))) l.
Proof.
  revert st. induction indices as [|e indices IH]; intros st Hst Hch; simpl.
  - rewrite app_nil_r, py_slice_nat by lia.
    apply firstn_all2. rewrite length_skipn. lia.
  - destruct Hch as [He Hch]. rewrite IH by (assumption || lia).
    rewrite py_slice_nat by lia.
    set (N := Z.of_nat (length l)).
    replace (Z.to_nat (Z.min e N))
      with ((Z.to_nat (Z.min e N) - Z.to_nat (Z.min st N))
            + Z.to_nat (Z.min st N))%nat by lia.
    rewrite <- skipn_skipn.
    replace (Z.to_nat (Z.min e N) - Z.to_nat (Z.min st N)
             + Z.to_nat (Z.min st N) - Z.to_nat (Z.min st N))%nat
      with (Z.to_nat (Z.min e N) - Z.to_nat (Z.min st N))%nat by lia.
    apply firstn_skipn.
Qed.

Lemma np_split_concat {A : Type} (l : list A) (indices : list Z) :
  chain 0 indices -> concat (np_split l indices) = l.
Proof.
  intros Hch. unfold np_split. rewrite slices_concat by (assumption || lia).
  now replace (Z.to_nat (Z.min 0 (Z.of_nat (length l)))) with 0%nat by lia.
Qed.

Lemma length_slices {A : Type} (l : list A) (st : Z) (ends : list Z) :
  length (slices l st ends) = length ends.
Proof. revert st. induction ends; simpl; auto. Qed.

Lemma length_np_split {A : Type} (l : list A) (indices : list Z) :
  length (np_split l indices) = S (length indices).
Proof. unfold np_split. rewrite length_slices, length_app. simpl. lia. Qed.

(** ** Random split: the catalog of a subset *)

Lemma setdefault_append_entries (c : catalog) (env seq : string) :
  Permutation (entries (setdefault_append c env seq))
              (entries c ++ [(env, seq)]).
Proof.
  unfold entries. induction c as [|[k l] c IH]; simpl; [reflexivity|].
  destruct (String.eqb_spec k env) as [->|_]; simpl.
  - rewrite map_app. simpl. rewrite <- !app_assoc.
    apply Permutation_app_head. apply Permutation_app_comm.
  - rewrite IH. now rewrite app_assoc.
Qed.

Lemma setdefault_append_keys (c : catalog) (env seq : string) (k : string) :
  In k (map fst (setdefault_append c env seq)) ->
  k = env \/ In k (map fst c).
Proof.
  induction c as [|[k0 l] c IH]; simpl.
  - intros [H|[]]; auto.
  - destruct (String.eqb_spec k0 env) as [->|_]; simpl; intuition.
Qed.

Lemma setdefault_append_dict_ok (c : catalog) (env seq : string) :
  dict_ok c -> dict_ok (setdefault_append c env seq).
Proof.
  unfold dict_ok. induction c as [|[k l] c IH]; simpl; intros Hnd.
  - repeat constructor. intros [].
  - inversion Hnd as [|? ? Hk Hnd']; subst.
    destruct (String.eqb_spec k env) as [->|Hne]; simpl.
    + now constructor.
    + constructor; [|auto]. intros Hin.
      apply setdefault_append_keys in Hin. destruct Hin; auto.
Qed.

Lemma build_from_entries (pairs : list (string * string)) (c : catalog) :
  dict_ok c ->
  let c' := fold_left (fun c p => setdefault_append c (fst p) (snd p)) pairs c in
  dict_ok c' /\ Permutation (entries c') (entries c ++ pairs).
Proof.
  revert c. induction pairs as [|[env seq] pairs IH]; intros c Hok; simpl.
  - split; [assumption|]. now rewrite app_nil_r.
  - destruct (IH (setdefault_append c env seq)) as [Hok' Hp];
      [now apply setdefault_append_dict_ok|].
    split; [exact Hok'|]. rewrite Hp, setdefault_append_entries.
    now rewrite <- app_assoc.
Qed.

(** The pairs of the catalog built from a list of pairs are these pairs. *)
Lemma build_seqs_pairs (pairs : list (string * string)) :
  dict_ok (build_seqs pairs) /\
  Permutation (catalog_env_seqs (build_seqs pairs)) pairs.
Proof.
  destruct (@build_from_entries pairs []) as [Hok Hp]; [constructor|].
  split; [exact Hok|].
  rewrite catalog_env_seqs_entries by exact Hok. exact Hp.
Qed.

(** ** Random split: the cut points *)

Lemma np_round_nonneg (x : Q) : (0 <= x)%Q -> 0 <= np_round x.
Proof.
  intros Hx. unfold np_round.
  assert (Hf : 0 <= Qfloor x).
  { replace 0 with (Qfloor 0) by reflexivity. now apply Qfloor_resp_le. }
  destruct (x - inject_Z (Qfloor x) ?= 1 # 2)%Q;
    [destruct (Z.even (Qfloor x))| |]; lia.
Qed.

(** Rounding moves a number by a half at most. *)
Lemma np_round_near (x : Q) :
  (x - (1 # 2) <= inject_Z (np_round x) <= x + (1 # 2))%Q.
Proof.
  unfold np_round.
  pose proof (Qfloor_le x) as Hlo. pose proof (Qlt_floor x) as Hhi.
  rewrite inject_Z_plus in Hhi. change (inject_Z 1) with 1%Q in Hhi.
  destruct (Qcompare_spec (x - inject_Z (Qfloor x)) (1 # 2)) as [He|Hl|Hg].
  - destruct (Z.even (Qfloor x)).
    + lra.
    + rewrite inject_Z_plus. change (inject_Z 1) with 1%Q. lra.
  - lra.
  - rewrite inject_Z_plus. change (inject_Z 1) with 1%Q. lra.
Qed.

Lemma cumsum_from_chain (acc : Z) (l : list Z) :
  Forall (fun x => 0 <= x) l -> chain acc (cumsum_from acc l).
Proof.
  intros H. revert acc. induction H as [|x l Hx _ IH]; intros acc; simpl.
  - exact I.
  - split; [lia|apply IH].
Qed.

Lemma chain_removelast (st : Z) (l : list Z) :
  chain st l -> chain st (removelast l).
Proof.
  revert st. induction l as [|x l IH]; intros st; simpl; [auto|].
  intros [Hx Hch]. destruct l as [|y l]; [exact I|].
  split; [assumption|]. now apply IH.
Qed.

Lemma length_cumsum_from (acc : Z) (l : list Z) :
  length (cumsum_from acc l) = length l.
Proof. revert acc. induction l; simpl; auto. Qed.

Lemma length_removelast {A : Type} (l : list A) :
  length (removelast l) = pred (length l).
Proof.
  rewrite removelast_firstn_len, length_firstn. lia.
Qed.

Lemma share_nonneg (r s t : Q) :
  (0 <= r)%Q -> (0 < s)%Q -> (0 <= t)%Q -> (0 <= r / s * t)%Q.
Proof.
  intros Hr Hs Ht. apply Qmult_le_0_compat; [|assumption].
  apply Qle_shift_div_l; [assumption|]. lra.
Qed.

Lemma inject_nat_nonneg (n : nat) : (0 <= inject_Z (Z.of_nat n))%Q.
Proof.
  change 0%Q with (inject_Z 0). rewrite <- Zle_Qle. lia.
Qed.

(** The cut points of non-negative ratios form a chain from 0, one fewer
    than the ratios. *)
Lemma split_idx_chain (ratio : list Q) (total : nat) :
  Forall (fun r => (0 <= r)%Q) ratio -> (0 < qsum ratio)%Q ->
  chain 0 (split_idx ratio total) /\
  length (split_idx ratio total) = pred (length ratio).
Proof.
  intros Hr Hs. unfold split_idx, np_cumsum. split.
  - apply chain_removelast, cumsum_from_chain.
    apply Forall_map. revert Hr. apply Forall_impl. intros r Hr.
    apply np_round_nonneg, share_nonneg; auto using inject_nat_nonneg.
  - now rewrite length_removelast, length_cumsum_from, length_map.
Qed.

Lemma qsum_nil_not_pos : ~ (0 < qsum [])%Q.
Proof. unfold qsum. simpl. lra. Qed.

(** ** Random split: the subsets *)

Lemma rmap_ok_map {A B : Type} (g : A -> result B) (f : A -> B) (l : list A) :
  (forall x, In x l -> g x = Ok (f x)) -> rmap g l = Ok (map f l).
Proof.
  induction l as [|x l IH]; simpl; intros H; [reflexivity|].
  rewrite H by now left. simpl. rewrite IH by auto. reflexivity.
Qed.

Lemma Permutation_concat_map {A B : Type} (f g : A -> list B) (l : list A) :
  (forall x, In x l -> Permutation (f x) (g x)) ->
  Permutation (concat (map f l)) (concat (map g l)).
Proof.
  induction l as [|x l IH]; simpl; intros H; [reflexivity|].
  apply Permutation_app; auto.
Qed.

Lemma NoDup_app_disjoint {A : Type} (l1 l2 : list A) (x : A) :
  NoDup (l1 ++ l2) -> In x l1 -> ~ In x l2.
Proof.
  induction l1 as [|y l1 IH]; simpl; intros Hnd Hin; [destruct Hin|].
  inversion Hnd as [|? ? Hy Hnd']; subst. destruct Hin as [->|Hin]; [|auto].
  intros H2. apply Hy. apply in_or_app. now right.
Qed.

(** In a concatenation without repetition, two different parts share no
    element. *)
Lemma NoDup_concat_disjoint {A : Type} (L : list (list A)) (i j : nat)
  (a b : list A) (x : A) :
  NoDup (concat L) -> i <> j ->
  nth_error L i = Some a -> nth_error L j = Some b ->
  In x a -> ~ In x b.
Proof.
  revert i j. induction L as [|l L IH]; intros i j Hnd Hij Hi Hj Ha Hb.
  - now destruct i.
  - simpl in Hnd. destruct i as [|i], j as [|j]; simpl in Hi, Hj.
    + now apply Hij.
    + injection Hi as <-. apply (@NoDup_app_disjoint _ _ _ _ Hnd Ha).
      apply in_concat. exists b. split; [|assumption].
      eapply nth_error_In; eauto.
    + injection Hj as <-. apply (@NoDup_app_disjoint _ _ _ _ Hnd Hb).
      apply in_concat. exists a. split; [|assumption].
      eapply nth_error_In; eauto.
    + apply (IH i j); auto. now apply NoDup_app_remove_l in Hnd.
Qed.

Section RandSplitFacts.

Variable rng_permutation : Z -> nat -> list nat.

(** The generator returns a permutation of [0 .. total - 1]. *)
Hypothesis rng_permutation_perm :
  forall (seed : Z) (n : nat), Permutation (rng_permutation seed n) (seq 0 n).

(** [rand_split] returns one subset for each piece of the permutation. *)
Lemma rand_split_pieces (self : DatasetBase) (ratio : list Q) (seed : Z) :
  Forall (fun r => (0 <= r)%Q) ratio -> (0 < qsum ratio)%Q ->
  let total := length (get_env_seqs self) in
  let pieces := np_split (rng_permutation seed total) (split_idx ratio total) in
  rand_split rng_permutation self ratio seed =
    Ok (map (fun piece => with_seqs self (build_seqs (taken self piece)))
            pieces) /\
  concat pieces = rng_permutation seed total /\
  length pieces = length ratio.
Proof.
  intros Hr Hs total pieces.
  destruct (split_idx_chain total Hr Hs) as [Hch Hlen].
  assert (Hcat : concat pieces = rng_permutation seed total)
    by now apply np_split_concat.
  split; [|split; [exact Hcat|]].
  - unfold rand_split. apply rmap_ok_map. intros piece Hin.
    rewrite (np_take_ok _ ("", "")); [reflexivity|].
    apply Forall_forall. intros i Hi.
    apply (Permutation_in _ (sorted_perm piece)) in Hi.
    assert (Hp : In i (rng_permutation seed total)).
    { rewrite <- Hcat. apply in_concat. eauto. }
    apply (Permutation_in _ (rng_permutation_perm seed total)) in Hp.
    apply in_seq in Hp. fold total. lia.
  - unfold pieces. rewrite length_np_split, Hlen.
    destruct ratio; [now apply qsum_nil_not_pos in Hs|reflexivity].
Qed.

(** The pairs of the subsets, put together, are the pairs of the
    catalog. *)
Lemma taken_all (self : DatasetBase) (pieces : list (list nat)) (seed : Z) :
  concat pieces = rng_permutation seed (length (get_env_seqs self)) ->
  Permutation (concat (map (taken self) pieces)) (get_env_seqs self).
Proof.
  intros Hcat.
  transitivity
    (concat (map (map (fun i => nth i (get_env_seqs self) ("", ""))) pieces)).
  - apply Permutation_concat_map. intros piece _. unfold taken.
    apply Permutation_map, sorted_perm.
  - rewrite <- concat_map, Hcat.
    rewrite (Permutation_map _ (rng_permutation_perm seed _)).
    now rewrite map_nth_seq.
Qed.

End RandSplitFacts.

(** ** Random split: the sizes of the subsets *)

Lemma length_py_slice {A : Type} (l : list A) (a b : Z) :
  0 <= a -> 0 <= b ->
  Z.min a (Z.of_nat (length l)) <= Z.min b (Z.of_nat (length l)) ->
  Z.of_nat (length (py_slice l a b)) =
  Z.min b (Z.of_nat (length l)) - Z.min a (Z.of_nat (length l)).
Proof.
  intros Ha Hb Hab. rewrite py_slice_nat by assumption.
  rewrite length_firstn, length_skipn. lia.
Qed.

Lemma slices_sizes {A : Type} (l : list A) (indices : list Z) (st : Z) :
  0 <= st -> chain st indices ->
  map (fun piece => Z.of_nat (length piece))
      (slices l st (indices ++ [Z.of_nat (length l)])) =
  slice_sizes (Z.of_nat (length l)) st (indices ++ [Z.of_nat (length l)]).
Proof.
  revert st. induction indices as [|e indices IH]; intros st Hst Hch; simpl.
  - rewrite length_py_slice by lia. reflexivity.
  - destruct Hch as [He Hch]. rewrite length_py_slice by lia.
    rewrite IH by (assumption || lia). reflexivity.
Qed.

Lemma removelast_cumsum_cons (acc x y : Z) (l : list Z) :
  removelast (cumsum_from acc (x :: y :: l)) =
  (acc + x) :: removelast (cumsum_from (acc + x) (y :: l)).
Proof. reflexivity. Qed.

Lemma inject_Z_sub (a b : Z) :
  inject_Z (a - b) = (inject_Z a - inject_Z b)%Q.
Proof.
  unfold Qminus. now rewrite <- inject_Z_opp, <- inject_Z_plus.
Qed.

Lemma min_cases_Q (a b : Z) :
  (inject_Z a <= inject_Z b /\ inject_Z (Z.min a b) == inject_Z a)%Q \/
  (inject_Z b < inject_Z a /\ inject_Z (Z.min a b) == inject_Z b)%Q.
Proof.
  destruct (Z.min_spec a b) as [[Hlt ->]|[Hle ->]].
  - left. split; [|reflexivity]. rewrite <- Zle_Qle. lia.
  - destruct (Z.eq_dec a b) as [->|Hne].
    + left. split; [apply Qle_refl|reflexivity].
    + right. split; [|reflexivity]. rewrite <- Zlt_Qlt. lia.
Qed.

(** The sizes of the slices stay near the numbers rounded: [acc] is the sum
    of the numbers rounded so far, [I] the sum of the numbers themselves,
    [E] bounds their distance. *)
Lemma slice_sizes_near (f : Q -> Q) (N : Z) (B : Q) (l : list Q) :
  Forall (fun r => (0 <= f r)%Q) l ->
  (1 <= 2 * B)%Q ->
  forall (acc : Z) (I E : Q),
    l <> [] ->
    (inject_Z acc - E <= I <= inject_Z acc + E)%Q ->
    (I + fold_right Qplus 0 (map f l) == inject_Z N)%Q ->
    (E + (inject_Z (Z.of_nat (length l)) - 1) * (1 # 2) <= B)%Q ->
    Forall2 (fun size r => (f r - B <= inject_Z size <= f r + B)%Q)
            (slice_sizes N acc
               (removelast (cumsum_from acc (map (fun r => np_round (f r)) l))
                ++ [N]))
            l.
Proof.
  intros Hf HB. induction Hf as [|r l Hr Hl IH]; intros acc I E Hne HI Hsum HE.
  - now contradiction Hne.
  - assert (Hrest : (0 <= fold_right Qplus 0 (map f l))%Q).
    { clear - Hl. induction Hl as [|x l Hx _ IH]; simpl; [lra|lra]. }
    pose proof (np_round_near (f r)) as Hnear.
    simpl in Hsum.
    destruct l as [|r' l'].
    + clear IH. simpl in *. change (inject_Z 1) with 1%Q in HE.
      constructor; [|constructor].
      rewrite Z.min_id, inject_Z_sub.
      destruct (min_cases_Q acc N) as [[Hc Hm]|[Hc Hm]]; rewrite Hm; lra.
    + cbn [map]. rewrite removelast_cumsum_cons. cbn [app slice_sizes].
      constructor.
      * rewrite inject_Z_sub.
        destruct (min_cases_Q acc N) as [[Hc Hm]|[Hc Hm]]; rewrite Hm;
          destruct (min_cases_Q (acc + np_round (f r)) N)
            as [[Hc' Hm']|[Hc' Hm']];
          rewrite Hm'; rewrite inject_Z_plus in *;
          pose proof (inject_nat_nonneg (length l'));
          change (length (r :: r' :: l')) with (S (S (length l'))) in HE;
          rewrite !Nat2Z.inj_succ in HE; unfold Z.succ in HE;
          rewrite !inject_Z_plus in HE; change (inject_Z 1) with 1%Q in HE;
          lra.
      * assert (Hs : 0 <= np_round (f r)) by now apply np_round_nonneg.
        apply (IH (acc + np_round (f r)) (I + f r)%Q (E + (1 # 2))%Q).
        -- discriminate.
        -- rewrite inject_Z_plus. lra.
        -- simpl. simpl in Hsum. lra.
        -- change (length (r :: r' :: l')) with (S (length (r' :: l'))) in HE.
           rewrite Nat2Z.inj_succ in HE. unfold Z.succ in HE.
           rewrite inject_Z_plus in HE. change (inject_Z 1) with 1%Q in HE.
           lra.
Qed.

Lemma fold_left_Qplus (l : list Q) (a : Q) :
  (fold_left Qplus l a == a + fold_right Qplus 0 l)%Q.
Proof.
  revert a. induction l as [|x l IH]; intros a; simpl; [ring|].
  rewrite IH. ring.
Qed.

(** The shares of the ratios add up to the total. *)
Lemma shares_sum (ratio : list Q) (t : Q) :
  (0 < qsum ratio)%Q ->
  (fold_right Qplus 0 (map (fun r => r / qsum ratio * t) ratio) == t)%Q.
Proof.
  intros Hs.
  assert (H : forall l s, ~ (s == 0)%Q ->
            (fold_right Qplus 0 (map (fun r => r / s * t) l) ==
             fold_right Qplus 0 l / s * t)%Q).
  { intros l s Hs0. induction l as [|x l IH]; simpl.
    - field. exact Hs0.
    - rewrite IH. field. exact Hs0. }
  assert (Hs0 : ~ (qsum ratio == 0)%Q) by lra.
  rewrite H by exact Hs0.
  assert (Hq : (fold_right Qplus 0 ratio == qsum ratio)%Q).
  { unfold qsum. rewrite fold_left_Qplus. ring. }
  rewrite Hq. field. exact Hs0.
Qed.

Lemma Forall2_nth_error {A B : Type} (P : A -> B -> Prop) (l1 : list A)
  (l2 : list B) (i : nat) (a : A) (b : B) :
  Forall2 P l1 l2 -> nth_error l1 i = Some a -> nth_error l2 i = Some b ->
  P a b.
Proof.
  intros H. revert i. induction H as [|x y l1 l2 Hxy _ IH]; intros [|i];
    simpl; try discriminate.
  - intros Ha Hb. injection Ha as <-. injection Hb as <-. exact Hxy.
  - apply IH.
Qed.

Lemma Forall2_nth_error_l {A B : Type} (P : A -> B -> Prop) (l1 : list A)
  (l2 : list B) (i : nat) (a : A) :
  Forall2 P l1 l2 -> nth_error l1 i = Some a ->
  exists b, nth_error l2 i = Some b /\ P a b.
Proof.
  intros H. revert i. induction H as [|x y l1 l2 Hxy _ IH]; intros [|i];
    simpl; try discriminate.
  - intros Ha. injection Ha as <-. eauto.
  - apply IH.
Qed.

Lemma length_subset_pairs (self : DatasetBase) (piece : list nat) :
  length (get_env_seqs (with_seqs self (build_seqs (taken self piece)))) =
  length piece.
Proof.
  unfold get_env_seqs. simpl.
  destruct (build_seqs_pairs (taken self piece)) as [_ Hp].
  rewrite (Permutation_length Hp). unfold taken.
  rewrite length_map. apply Permutation_length, sorted_perm.
Qed.


Lemma rev_permutation_perm (seed : Z) (n : nat) :
  Permutation (rev_permutation seed n) (seq 0 n).
Proof. apply Permutation_sym, Permutation_rev. Qed.


(** ** Random split: the same seed gives the same split *)

Lemma rmap_same_seqs {A B : Type} (g : A -> result B)
  (mk1 mk2 : B -> DatasetBase) (l : list A) :
  (forall t, seqs (mk1 t) = seqs (mk2 t)) ->
  match rmap (fun x => let? t := g x in Ok (mk1 t)) l,
        rmap (fun x => let? t := g x in Ok (mk2 t)) l with
  | Ok s1, Ok s2 => map seqs s1 = map seqs s2
  | Raise e1, Raise e2 => e1 = e2
  | _, _ => False
  end.
Proof.
  intros Hmk. induction l as [|x l IH]; simpl; [reflexivity|].
  destruct (g x) as [t|e]; simpl; [|reflexivity].
  destruct (rmap (fun x => let? t := g x in Ok (mk1 t)) l) as [s1|e1],
           (rmap (fun x => let? t := g x in Ok (mk2 t)) l) as [s2|e2];
    simpl; try contradiction; [|assumption].
  now rewrite Hmk, IH.
Qed.

(** C4: two calls of [rand_split] with the same ratios and the same seed
    on datasets with the same catalog end the same way, and when they
    return, the catalogs of their subsets are the same, subset by subset:
    the same environments in the same order, each with the same list of
    sequences. Nothing else of the dataset has a part in the split. *)
Theorem rand_split_deterministic :
  forall (rng_permutation : Z -> nat -> list nat)
         (self1 self2 : DatasetBase) (ratio : list Q) (seed : Z),
    seqs self1 = seqs self2 ->
    match rand_split rng_permutation self1 ratio seed,
          rand_split rng_permutation self2 ratio seed with
    | Ok subsets1, Ok subsets2 => map seqs subsets1 = map seqs subsets2
    | Raise e1, Raise e2 => e1 = e2
    | _, _ => False
    end.
Proof.
  intros rp self1 self2 ratio seed Hseqs. unfold rand_split, get_env_seqs.
  rewrite Hseqs. apply rmap_same_seqs. reflexivity.
Qed.

Lemma rand_split_deterministic_witness :
  seqs five_seqs = seqs five_seqs_moved /\
  match rand_split rev_permutation five_seqs [7 # 10; 3 # 10]%Q 42,
        rand_split rev_permutation five_seqs_moved [7 # 10; 3 # 10]%Q 42 with
  | Ok subsets1, Ok subsets2 => map seqs subsets1 = map seqs subsets2
  | Raise e1, Raise e2 => e1 = e2
  | _, _ => False
  end.
Proof.
  split; [reflexivity|].
  apply (@rand_split_deterministic rev_permutation five_seqs five_seqs_moved).
  reflexivity.
Defined.

(** ** The store *)

Lemma heap_get_lt (h : heap) (l : loc) (o : obj) :
  heap_get h l = Some o -> (l < length h)%nat.
Proof.
  unfold heap_get. intros H. apply nth_error_Some. now rewrite H.
Qed.

Lemma length_heap_set (h : heap) (l : loc) (o : obj) :
  length (heap_set h l o) = length h.
Proof.
  revert l. induction h as [|x h IH]; intros [|l]; simpl; auto.
Qed.

Lemma heap_get_set_same (h : heap) (l : loc) (o : obj) :
  (l < length h)%nat -> heap_get (heap_set h l o) l = Some o.
Proof.
  revert l. induction h as [|x h IH]; intros [|l]; simpl; intros H;
    try lia; [reflexivity|].
  apply IH. lia.
Qed.

Lemma heap_get_set_other (h : heap) (l l' : loc) (o : obj) :
  l <> l' -> heap_get (heap_set h l o) l' = heap_get h l'.
Proof.
  revert l l'. induction h as [|x h IH]; intros [|l] [|l']; simpl; intros H;
    try reflexivity; try congruence.
  apply IH. congruence.
Qed.

Lemma heap_get_app_old (h h2 : heap) (l : loc) (o : obj) :
  heap_get h l = Some o -> heap_get (h ++ h2) l = Some o.
Proof.
  intros H. unfold heap_get. rewrite nth_error_app1; [exact H|].
  now apply heap_get_lt in H.
Qed.

Lemma heap_get_new (h : heap) (o : obj) :
  heap_get (h ++ [o]) (length h) = Some o.
Proof.
  unfold heap_get. rewrite nth_error_app2 by lia.
  now rewrite Nat.sub_diag.
Qed.

Lemma extends_refl (h : heap) : extends h h.
Proof. intros l o H. exact H. Qed.

Lemma extends_trans (h1 h2 h3 : heap) :
  extends h1 h2 -> extends h2 h3 -> extends h1 h3.
Proof. intros H12 H23 l o H. apply H23, H12, H. Qed.

Lemma extends_length (h h' : heap) : extends h h' -> (length h <= length h')%nat.
Proof.
  intros He. destruct (length h) as [|n] eqn:E; [lia|].
  destruct (heap_get h n) as [o|] eqn:Hn.
  - apply He, heap_get_lt in Hn. lia.
  - apply nth_error_None in Hn. lia.
Qed.

Lemma ref_get_set_same (items : list (string * loc)) (name : string) (l : loc) :
  ref_get (ref_set items name l) name = Some l.
Proof.
  induction items as [|[k x] items IH]; simpl.
  - now rewrite String.eqb_refl.
  - destruct (String.eqb_spec k name) as [->|Hne]; simpl.
    + now rewrite String.eqb_refl.
    + destruct (String.eqb_spec k name); [contradiction|exact IH].
Qed.

Lemma ref_get_set_other (items : list (string * loc)) (name name' : string)
  (l : loc) :
  name' <> name -> ref_get (ref_set items name l) name' = ref_get items name'.
Proof.
  intros Hne. induction items as [|[k x] items IH]; simpl.
  - destruct (String.eqb_spec name name'); [congruence|reflexivity].
  - destruct (String.eqb_spec k name) as [->|Hk]; simpl.
    + destruct (String.eqb_spec name name'); [congruence|reflexivity].
    + destruct (String.eqb_spec k name'); [reflexivity|exact IH].
Qed.

Lemma ref_get_In (items : list (string * loc)) (name : string) (l : loc) :
  ref_get items name = Some l -> In l (map snd items).
Proof.
  induction items as [|[k x] items IH]; simpl; [discriminate|].
  destruct (String.eqb k name); [intros H; injection H as ->; now left|].
  intros H. right. now apply IH.
Qed.

(** Reading a catalog from entries that stand for it. *)
Lemma represents_read (h : heap) (items : list (string * loc)) (c : catalog) :
  represents h items c ->
  rmap (fun kl => let? l := read_list h (snd kl) in Ok (fst kl, l)) items = Ok c.
Proof.
  induction 1 as [|[k l] [k' xs] items c [Hk Hl] _ IH]; simpl; [reflexivity|].
  simpl in Hk, Hl. subst k'. unfold read_list at 1. rewrite Hl. simpl.
  now rewrite IH.
Qed.

Lemma read_items_extends (h h' : heap) (items : list (string * loc))
  (c : catalog) :
  extends h h' ->
  rmap (fun kl => let? l := read_list h (snd kl) in Ok (fst kl, l)) items
    = Ok c ->
  rmap (fun kl => let? l := read_list h' (snd kl) in Ok (fst kl, l)) items
    = Ok c.
Proof.
  intros He. revert c.
  induction items as [|[k l] items IH]; simpl; intros c Hc; [exact Hc|].
  unfold read_list at 1 in Hc. unfold read_list at 1.
  destruct (heap_get h l) as [[xs| | |]|] eqn:Hl; try discriminate.
  rewrite (He _ _ Hl). simpl in *.
  destruct (rmap _ items) as [c'|e] eqn:Hr in Hc; [|discriminate].
  now rewrite (IH c' Hr).
Qed.

Lemma read_seqs_extends (h h' : heap) (self : loc) (c : catalog) :
  extends h h' -> read_seqs h self = Ok c -> read_seqs h' self = Ok c.
Proof.
  intros He. unfold read_seqs, h_attr, read_dict.
  destruct (heap_get h self) as [[| |attrs|]|] eqn:Hs; try discriminate.
  rewrite (He _ _ Hs).
  destruct (ref_get attrs "_seqs") as [d|]; [simpl|discriminate].
  destruct (heap_get h d) as [[|items| |]|] eqn:Hd; try discriminate.
  rewrite (He _ _ Hd). now apply read_items_extends.
Qed.

(** ** Filling the dictionary of a subset *)

Lemma represents_set_other (h : heap) (items : list (string * loc))
  (c : catalog) (l : loc) (o : obj) :
  represents h items c -> ~ In l (map snd items) ->
  represents (heap_set h l o) items c.
Proof.
  induction 1 as [|kl kv items c [Hk Hl] _ IH]; simpl; intros Hnot.
  - constructor.
  - constructor.
    + split; [exact Hk|]. rewrite heap_get_set_other; [exact Hl|].
      intros ->. apply Hnot. now left.
    + apply IH. intros Hin. apply Hnot. now right.
Qed.

Lemma represents_new_key (h : heap) (items : list (string * loc))
  (c : catalog) (env seq : string) :
  represents h items c -> ref_get items env = None ->
  setdefault_append c env seq = c ++ [(env, [seq])].
Proof.
  induction 1 as [|[k l] [k' xs] items c [Hk Hl] _ IH]; simpl; intros Hnone.
  - reflexivity.
  - simpl in Hk. subst k'.
    destruct (String.eqb k env); [discriminate|]. now rewrite IH.
Qed.

Lemma represents_append (h : heap) (items : list (string * loc))
  (c : catalog) (env seq : string) (l : loc) :
  represents h items c -> NoDup (map snd items) ->
  ref_get items env = Some l ->
  exists xs,
    heap_get h l = Some (OList xs) /\
    represents (heap_set h l (OList (xs ++ [seq]))) items
               (setdefault_append c env seq).
Proof.
  induction 1 as [|[k r] [k' ys] items c [Hk Hl] Hrest IH]; simpl;
    intros Hnd Hget; [discriminate|].
  simpl in Hk, Hl. subst k'. inversion Hnd as [|? ? Hr Hnd']; subst.
  destruct (String.eqb k env).
  - injection Hget as <-. exists ys. split; [exact Hl|].
    constructor.
    + split; [reflexivity|]. simpl. apply heap_get_set_same.
      now apply heap_get_lt in Hl.
    + now apply represents_set_other.
  - destruct (IH Hnd' Hget) as (xs & Hxs & Hrep). exists xs.
    split; [exact Hxs|]. constructor; [|exact Hrep].
    split; [reflexivity|]. simpl. rewrite heap_get_set_other; [exact Hl|].
    intros <-. apply Hr. now apply ref_get_In in Hget.
Qed.

Lemma represents_cell (h : heap) (items : list (string * loc)) (c : catalog)
  (kl : string * loc) :
  represents h items c -> In kl items ->
  exists xs, heap_get h (snd kl) = Some (OList xs).
Proof.
  induction 1 as [|x kv items c [_ Hl] _ IH]; simpl; intros Hin.
  - destruct Hin.
  - destruct Hin as [->|Hin]; [eauto|auto].
Qed.

(** One [setdefault] and [append] on the dictionary of the subset. *)
Lemma h_setdefault_append_ok (h : heap) (n : nat) (subset d : loc)
  (attrs : list (string * loc)) (c : catalog) (env seq : string) :
  building h n subset d attrs c ->
  exists h',
    h_setdefault_append h d env seq = Ok h' /\
    building h' n subset d attrs (setdefault_append c env seq) /\
    (forall l o, (l < n)%nat -> heap_get h l = Some o ->
                 heap_get h' l = Some o).
Proof.
  intros (Hd & Hsub & items & Hdict & Hrep & Hnd & Hfresh).
  unfold h_setdefault_append. rewrite Hdict.
  destruct (ref_get items env) as [l|] eqn:Hget.
  - destruct (@represents_append h items c env seq l Hrep Hnd Hget)
      as (xs & Hxs & Hrep').
    rewrite Hxs. eexists. split; [reflexivity|].
    assert (Hl : (n <= l)%nat).
    { apply ref_get_In, in_map_iff in Hget. destruct Hget as (kl & <- & Hin).
      rewrite Forall_forall in Hfresh. now apply Hfresh. }
    split.
    + split; [now rewrite length_heap_set|]. split.
      * rewrite heap_get_set_other; [exact Hsub|]. intros ->. congruence.
      * exists items. split.
        -- rewrite heap_get_set_other; [exact Hdict|]. intros ->. congruence.
        -- auto.
    + intros l0 o Hl0 Ho. rewrite heap_get_set_other; [exact Ho|]. lia.
  - set (l := length h).
    set (h1 := heap_set (h ++ [OList []]) d (ODict (items ++ [(env, l)]))).
    assert (Hl1 : heap_get h1 l = Some (OList [])).
    { unfold h1. rewrite heap_get_set_other by lia. apply heap_get_new. }
    rewrite Hl1. eexists. split; [reflexivity|].
    assert (Hlen : length h1 = S (length h)).
    { unfold h1. rewrite length_heap_set, length_app. simpl. lia. }
    assert (Hold : forall r o, r <> d -> heap_get h r = Some o ->
              heap_get (heap_set h1 l (OList ([] ++ [seq]))) r = Some o).
    { intros r o Hrd Hr. pose proof (heap_get_lt _ _ Hr).
      rewrite heap_get_set_other by (unfold l; lia).
      unfold h1. rewrite heap_get_set_other by congruence.
      now apply heap_get_app_old. }
    split.
    + split; [rewrite length_heap_set; lia|]. split.
      * apply Hold; [intros ->; congruence|exact Hsub].
      * exists (items ++ [(env, l)]). split; [|split; [|split]].
        -- rewrite heap_get_set_other by (unfold l; lia).
           unfold h1. apply heap_get_set_same. rewrite length_app. simpl. lia.
        -- rewrite (@represents_new_key h items c env seq Hrep Hget).
           apply Forall2_app.
           ++ revert Hrep. apply Forall2_impl. intros kl kv [Hk Hr].
              split; [exact Hk|]. apply Hold; [intros E; congruence|exact Hr].
           ++ constructor; [|constructor]. split; [reflexivity|]. simpl.
              apply heap_get_set_same. lia.
        -- rewrite map_app. simpl. apply NoDup_app; [exact Hnd| |].
           ++ repeat constructor. intros [].
           ++ intros r Hr [<-|[]].
              apply in_map_iff in Hr. destruct Hr as (kl & Hkl & Hin).
              destruct (@represents_cell h items c kl Hrep Hin) as (xs & Hcell).
              rewrite Hkl in Hcell. apply heap_get_lt in Hcell.
              unfold l in Hcell. lia.
        -- apply Forall_app. split; [exact Hfresh|].
           constructor; [simpl; unfold l; lia|constructor].
    + intros l0 o Hl0 Ho. apply Hold; [lia|exact Ho].
Qed.

Lemma building_attr (h : heap) (n : nat) (subset d : loc)
  (attrs : list (string * loc)) (c : catalog) :
  building h n subset d attrs c -> h_attr h subset "_seqs" = Ok d.
Proof.
  intros (_ & Hsub & _). unfold h_attr. rewrite Hsub.
  now rewrite ref_get_set_same.
Qed.

(** The loop that fills the dictionary of a subset builds, in the store,
    the catalog [build_seqs] builds, and leaves the older objects alone. *)
Lemma h_fill_ok (pairs : list (string * string)) (h : heap) (n : nat)
  (subset d : loc) (attrs : list (string * loc)) (c : catalog) :
  building h n subset d attrs c ->
  exists h',
    h_fill h subset pairs = Ok h' /\
    building h' n subset d attrs
      (fold_left (fun c p => setdefault_append c (fst p) (snd p)) pairs c) /\
    (forall l o, (l < n)%nat -> heap_get h l = Some o ->
                 heap_get h' l = Some o).
Proof.
  revert h c. induction pairs as [|[env seq] pairs IH]; intros h c Hb; simpl.
  - exists h. auto.
  - rewrite (building_attr Hb). simpl.
    destruct (h_setdefault_append_ok env seq Hb) as (h1 & -> & Hb1 & Hf1).
    simpl. destruct (IH h1 _ Hb1) as (h' & Hrun & Hb' & Hf').
    exists h'. split; [exact Hrun|]. split; [exact Hb'|]. auto.
Qed.

Lemma building_read (h : heap) (n : nat) (subset d : loc)
  (attrs : list (string * loc)) (c : catalog) :
  building h n subset d attrs c -> read_dict h d = Ok c.
Proof.
  intros (_ & _ & items & Hdict & Hrep & _). unfold read_dict.
  rewrite Hdict. now apply represents_read.
Qed.

(** One turn of the loop of [rand_split]: the copy is the next object, its
    dictionary the one after; every object there before is as it was. *)
Lemma h_make_subset_ok (h : heap) (self : loc) (attrs : list (string * loc))
  (env_seqs : list (string * string)) (piece : list nat) :
  heap_get h self = Some (OInstance attrs) ->
  Forall (fun i => (i < length env_seqs)%nat) piece ->
  exists h',
    h_make_subset h self env_seqs piece = Ok (length h, h') /\
    extends h h' /\
    (S (length h) < length h')%nat /\
    heap_get h' (length h) =
      Some (OInstance (ref_set attrs "_seqs" (S (length h)))) /\
    read_dict h' (S (length h)) =
      Ok (build_seqs
            (map (fun i => nth i env_seqs ("", "")) (sorted piece))).
Proof.
  intros Hself Hpiece. unfold h_make_subset. rewrite Hself.
  rewrite (np_take_ok _ ("", ""))
    by (eapply Permutation_Forall;
        [apply Permutation_sym, sorted_perm|exact Hpiece]).
  simpl. rewrite length_app. simpl.
  replace (length h + 1)%nat with (S (length h)) by lia.
  set (n := length h).
  set (h2 := heap_set ((h ++ [OInstance attrs]) ++ [ODict []]) n
                      (OInstance (ref_set attrs "_seqs" (S n)))).
  assert (Hlen2 : length h2 = S (S n)).
  { unfold h2. rewrite length_heap_set, !length_app. simpl. unfold n. lia. }
  assert (Hb : building h2 n n (S n) attrs []).
  { split; [lia|]. split.
    - unfold h2. apply heap_get_set_same. rewrite !length_app. simpl.
      unfold n. lia.
    - exists []. split; [|split; [constructor|split; constructor]].
      unfold h2. rewrite heap_get_set_other by lia.
      replace (S n) with (length (h ++ [OInstance attrs]))
        by (rewrite length_app; simpl; unfold n; lia).
      apply heap_get_new. }
  destruct (h_fill_ok
              (map (fun i => nth i env_seqs ("", "")) (sorted piece)) Hb)
    as (h' & Hrun & Hb' & Hframe).
  fold (build_seqs (map (fun i => nth i env_seqs ("", "")) (sorted piece)))
    in Hb'.
  rewrite Hrun. simpl. exists h'. split; [reflexivity|].
  split; [|split; [|split]].
  - intros l o Hl. apply Hframe; [now apply heap_get_lt in Hl|].
    unfold h2. pose proof (heap_get_lt _ _ Hl).
    rewrite heap_get_set_other by (unfold n; lia).
    now apply heap_get_app_old, heap_get_app_old.
  - destruct Hb' as (Hd & _). lia.
  - now destruct Hb' as (_ & Hsub & _).
  - now apply (building_read Hb').
Qed.

Lemma read_dict_extends (h h' : heap) (d : loc) (c : catalog) :
  extends h h' -> read_dict h d = Ok c -> read_dict h' d = Ok c.
Proof.
  intros He. unfold read_dict.
  destruct (heap_get h d) as [[|items| |]|] eqn:Hd; try discriminate.
  rewrite (He _ _ Hd). now apply read_items_extends.
Qed.

Lemma read_dict_is_dict (h : heap) (d : loc) (c : catalog) :
  read_dict h d = Ok c -> exists items, heap_get h d = Some (ODict items).
Proof.
  unfold read_dict.
  destruct (heap_get h d) as [[|items| |]|]; try discriminate. eauto.
Qed.

(** The loop of [rand_split]: the subsets are new objects, one after the
    other in the store, each followed by its dictionary. *)
Lemma h_subsets_ok (self : loc) (attrs : list (string * loc))
  (env_seqs : list (string * string)) (pieces : list (list nat)) (h : heap) :
  heap_get h self = Some (OInstance attrs) ->
  Forall (Forall (fun i => (i < length env_seqs)%nat)) pieces ->
  exists subsets h',
    h_subsets h self env_seqs pieces = Ok (subsets, h') /\
    extends h h' /\
    Forall2 (fun s piece =>
               (length h <= s)%nat /\
               heap_get h' s = Some (OInstance (ref_set attrs "_seqs" (S s))) /\
               read_dict h' (S s) =
                 Ok (build_seqs
                       (map (fun i => nth i env_seqs ("", ""))
                            (sorted piece))))
            subsets pieces /\
    (forall i j a b,
        (i < j)%nat -> nth_error subsets i = Some a ->
        nth_error subsets j = Some b -> (S a < b)%nat).
Proof.
  intros Hself Hpieces. revert h Hself.
  induction Hpieces as [|piece pieces Hpiece _ IH]; intros h Hself; simpl.
  - exists [], h. split; [reflexivity|]. split; [apply extends_refl|].
    split; [constructor|]. intros i j a b _ Hi. now destruct i.
  - destruct (@h_make_subset_ok h self attrs env_seqs piece Hself Hpiece)
      as (h1 & -> & He1 & Hlen1 & Hs1 & Hd1).
    simpl.
    destruct (IH h1 (He1 _ _ Hself)) as (subsets & h' & -> & He & HF & Hinc).
    simpl. exists (length h :: subsets), h'. split; [reflexivity|].
    split; [eapply extends_trans; eauto|]. split; [constructor|].
    + split; [lia|]. split; [now apply He|].
      now apply (@read_dict_extends h1 h' _ _ He).
    + revert HF. apply Forall2_impl. intros s p (Hs & Hrest). split; [|exact Hrest].
      apply extends_length in He1. lia.
    + intros [|i] [|j] a b Hij Hi Hj; simpl in Hi, Hj; try lia.
      * injection Hi as <-.
        destruct (@Forall2_nth_error_l _ _ _ _ _ j b HF Hj) as (p & _ & Hb & _).
        lia.
      * apply (Hinc i j); auto. lia.
Qed.

(** ** Random split: the receiver and the subsets as objects *)

Lemma pieces_in_range (perm : list nat) (total : nat) (indices : list Z) :
  Permutation perm (seq 0 total) -> chain 0 indices ->
  Forall (Forall (fun i => (i < total)%nat)) (np_split perm indices).
Proof.
  intros Hperm Hch. apply Forall_forall. intros piece Hin.
  apply Forall_forall. intros i Hi.
  assert (Hp : In i perm).
  { rewrite <- (@np_split_concat _ perm indices Hch). apply in_concat. eauto. }
  apply (Permutation_in _ Hperm), in_seq in Hp. lia.
Qed.

(** C10: [rand_split] does not change its receiver. In the store after the
    call every object that was there before is as it was (the receiver, its
    dictionary, its lists), so the catalog of the receiver reads as before;
    every subset is a new object whose [_seqs] is a new dictionary, not the
    one of the receiver and not the one of another subset; each of its
    other attributes is the reference the receiver holds under that name;
    and the catalogs the subsets hold are those of [rand_split] on
    values. *)
Theorem rand_split_leaves_receiver :
  forall (rng_permutation : Z -> nat -> list nat),
    (forall (seed : Z) (n : nat),
        Permutation (rng_permutation seed n) (seq 0 n)) ->
    forall (h : heap) (self : loc) (attrs : list (string * loc)) (c : catalog)
           (ratio : list Q) (seed : Z),
      heap_get h self = Some (OInstance attrs) ->
      read_seqs h self = Ok c ->
      Forall (fun r => (0 <= r)%Q) ratio ->
      (0 < qsum ratio)%Q ->
      exists subsets h',
        h_rand_split rng_permutation h self ratio seed = Ok (subsets, h') /\
        length subsets = length ratio /\
        extends h h' /\
        read_seqs h' self = Ok c /\
        (forall i s,
            nth_error subsets i = Some s ->
            (length h <= s)%nat /\
            exists d,
              h_attr h' s "_seqs" = Ok d /\
              (length h <= d)%nat /\
              (exists items, heap_get h' d = Some (ODict items)) /\
              h_attr h self "_seqs" <> Ok d /\
              (forall name,
                  name <> "_seqs" -> h_attr h' s name = h_attr h self name) /\
              (forall j s',
                  j <> i -> nth_error subsets j = Some s' ->
                  s' <> s /\ h_attr h' s' "_seqs" <> Ok d)) /\
        (forall self_value,
            seqs self_value = c ->
            exists subset_values,
              rand_split rng_permutation self_value ratio seed =
                Ok subset_values /\
              map (read_seqs h') subsets =
                map (fun v => Ok (seqs v)) subset_values).
Proof.
  intros rp Hperm h self attrs c ratio seed Hself Hread Hr Hs.
  unfold h_rand_split. rewrite Hread. simpl.
  set (env_seqs := catalog_env_seqs c).
  set (total := length env_seqs).
  set (pieces := np_split (rp seed total) (split_idx ratio total)).
  destruct (split_idx_chain total Hr Hs) as [Hch Hlen].
  assert (Hrange : Forall (Forall (fun i => (i < length env_seqs)%nat)) pieces)
    by (apply pieces_in_range; [apply Hperm|exact Hch]).
  destruct (@h_subsets_ok self attrs env_seqs pieces h Hself Hrange)
    as (subsets & h' & Hrun & He & HF & Hinc).
  exists subsets, h'. split; [exact Hrun|].
  assert (Hattr : forall s, heap_get h' s =
                    Some (OInstance (ref_set attrs "_seqs" (S s))) ->
                  h_attr h' s "_seqs" = Ok (S s)).
  { intros s Hcell. unfold h_attr. now rewrite Hcell, ref_get_set_same. }
  split; [|split; [exact He|split; [exact (@read_seqs_extends h h' self c He Hread)|split]]].
  - transitivity (length pieces); [exact (Forall2_length HF)|].
    unfold pieces. rewrite length_np_split, Hlen.
    destruct ratio; [now apply qsum_nil_not_pos in Hs|reflexivity].
  - intros i s Hi.
    destruct (@Forall2_nth_error_l _ _ _ _ _ i s HF Hi)
      as (piece & _ & Hfresh & Hcell & Hdict).
    split; [exact Hfresh|]. exists (S s). split; [now apply Hattr|].
    split; [lia|]. split; [now apply read_dict_is_dict in Hdict|].
    split; [|split].
    + unfold h_attr. rewrite Hself.
      destruct (ref_get attrs "_seqs") as [d0|] eqn:Hd0; [|discriminate].
      intros H. injection H as ->.
      unfold read_seqs, h_attr in Hread. rewrite Hself, Hd0 in Hread.
      simpl in Hread. apply read_dict_is_dict in Hread.
      destruct Hread as (items & Hcell0). apply heap_get_lt in Hcell0. lia.
    + intros name Hname. unfold h_attr. rewrite Hcell, Hself.
      now rewrite ref_get_set_other.
    + intros j s' Hji Hj.
      destruct (@Forall2_nth_error_l _ _ _ _ _ j s' HF Hj)
        as (piece' & _ & _ & Hcell' & _).
      rewrite (Hattr _ Hcell').
      assert (Hlt : (S s < s' \/ S s' < s)%nat).
      { destruct (Nat.lt_total i j) as [Hlt|[->|Hlt]]; [| congruence |].
        - left. apply (Hinc i j); auto.
        - right. apply (Hinc j i); auto. }
      split; [lia|]. intros H. injection H as H. lia.
  - intros self_value Hc.
    destruct (rand_split_pieces rp Hperm self_value seed Hr Hs)
      as (Hpure & _ & _).
    unfold get_env_seqs in Hpure. rewrite Hc in Hpure.
    fold env_seqs total pieces in Hpure.
    eexists. split; [exact Hpure|]. rewrite map_map.
    clear Hrun Hinc Hpure Hrange. induction HF as [|s piece subsets pieces0 Hsp _ IH];
      simpl; [reflexivity|].
    destruct Hsp as (_ & Hcell & Hdict). f_equal; [|apply IH].
    unfold read_seqs. rewrite (Hattr _ Hcell). simpl. rewrite Hdict.
    unfold taken, get_env_seqs. now rewrite Hc.
Qed.

Lemma rand_split_leaves_receiver_witness :
  heap_get five_seqs_heap 4%nat =
    Some (OInstance [("path_prefix", 0%nat); ("_seqs", 3%nat)]) /\
  read_seqs five_seqs_heap 4%nat = Ok (seqs five_seqs) /\
  Forall (fun r => (0 <= r)%Q) [7 # 10; 3 # 10]%Q /\
  (0 < qsum [7 # 10; 3 # 10])%Q /\
  exists subsets h',
    h_rand_split rev_permutation five_seqs_heap 4%nat [7 # 10; 3 # 10]%Q 42 =
      Ok (subsets, h') /\
    length subsets = 2%nat /\
    extends five_seqs_heap h' /\
    read_seqs h' 4%nat = Ok (seqs five_seqs).
Proof.
  assert (H1 : Forall (fun r => (0 <= r)%Q) [7 # 10; 3 # 10]%Q)
    by (repeat constructor; discriminate).
  assert (H2 : (0 < qsum [7 # 10; 3 # 10])%Q) by reflexivity.
  split; [reflexivity|]. split; [reflexivity|].
  split; [exact H1|]. split; [exact H2|].
  destruct (@rand_split_leaves_receiver rev_permutation rev_permutation_perm
              five_seqs_heap 4%nat
              [("path_prefix", 0%nat); ("_seqs", 3%nat)] (seqs five_seqs)
              [7 # 10; 3 # 10]%Q 42 eq_refl eq_refl H1 H2)
    as (subsets & h' & Hrun & Hlen & He & Hread & _).
  exists subsets, h'. auto.
Defined.

(** * Further properties *)

(** ** The sampler: every batch is full *)

Lemma seq_batches_windows_of (es : string * string) (S B : Z) (overlap : bool) :
  0 < B -> seq_batches es S B overlap = Ok (windows_of es S B overlap).
Proof.
  intros HB. unfold windows_of, n_batches. destruct overlap.
  - apply seq_batches_overlap. lia.
  - now apply seq_batches_tiling.
Qed.

Lemma length_windows_of (es : string * string) (S B : Z) (overlap : bool) :
  length (windows_of es S B overlap) = n_batches S B overlap.
Proof.
  unfold windows_of, n_batches, sliding_windows. destruct overlap.
  - now rewrite length_map, length_seq.
  - apply length_chunks.
Qed.

Lemma windows_of_shape (es : string * string) (S B : Z) (overlap : bool)
  (w : list triple) :
  In w (windows_of es S B overlap) ->
  length w = Z.to_nat B /\ Forall (fun t => fst t = es) w.
Proof.
  intros Hw.
  assert (exists off, w = window es off B) as [off ->].
  { unfold windows_of, sliding_windows, chunks in Hw.
    destruct overlap; apply in_map_iff in Hw; destruct Hw as (j & <- & _);
      eauto. }
  split; [apply length_window|].
  apply Forall_forall. intros t Ht. now apply window_pair in Ht.
Qed.

(** A run of elements with one key joins the first group of what follows
    when the keys agree, and is a group of its own otherwise. *)
Lemma groupby_app_uniform {A : Type} (key : A -> string) (k : string)
  (w l : list A) :
  w <> [] -> Forall (fun x => key x = k) w ->
  groupby key (w ++ l) =
  match groupby key l with
  | (k', g) :: gs =>
      if String.eqb k k' then (k', w ++ g) :: gs else (k, w) :: (k', g) :: gs
  | [] => [(k, w)]
  end.
Proof.
  induction w as [|x w IH]; [congruence|]. intros _ HF.
  inversion HF as [|? ? Hx HF']; subst. destruct w as [|y w'].
  - simpl. destruct (groupby key l) as [|[k' g] gs]; reflexivity.
  - change ((x :: y :: w') ++ l) with (x :: ((y :: w') ++ l)).
    cbn [groupby]. rewrite IH; [|discriminate|assumption].
    destruct (groupby key l) as [|[k' g] gs].
    + now rewrite String.eqb_refl.
    + destruct (String.eqb (key x) k') eqn:E.
      * now rewrite E.
      * now rewrite String.eqb_refl.
Qed.

(** Grouping a sequence of windows of [n] elements, each with one key:
    the length of every group is a multiple of [n]. *)
Lemma groupby_blocks {A : Type} (key : A -> string) (n : nat)
  (ws : list (list A)) :
  (0 < n)%nat ->
  Forall (fun w => length w = n /\ exists k, Forall (fun x => key x = k) w) ws ->
  Forall (fun kg => exists j, length (snd kg) = (j * n)%nat)
         (groupby key (concat ws)).
Proof.
  intros Hn. induction 1 as [|w ws [Hlen [k Hk]] _ IH]; simpl.
  - constructor.
  - rewrite (groupby_app_uniform key (k := k));
      [|intros ->; simpl in Hlen; lia|assumption].
    destruct (groupby key (concat ws)) as [|[k' g] gs].
    + constructor; [|constructor]. exists 1%nat. simpl. lia.
    + inversion IH as [|? ? [j Hj] IH']; subst.
      destruct (String.eqb k k').
      * constructor; [|assumption]. exists (S j). simpl in *.
        rewrite length_app. lia.
      * constructor; [|assumption]. exists 1%nat. simpl. lia.
Qed.

(** A list of [j * n] elements is cut into [j] tuples of [n] elements,
    none of them filled. *)
Lemma chunks_fill_exact {A : Type} (n j : nat) :
  (0 < n)%nat ->
  forall (fuel : nat) (l : list A),
    length l = (j * n)%nat -> (length l <= fuel)%nat ->
    length (chunks_fill fuel n l) = j /\
    Forall (fun b => exists w, b = map Some w /\ length w = n)
           (chunks_fill fuel n l).
Proof.
  intros Hn. induction j as [|j IH]; intros fuel l Hlen Hfuel.
  - destruct l; [|discriminate]. destruct fuel; simpl; auto.
  - destruct l as [|x l]; [simpl in Hlen; lia|].
    destruct fuel as [|fuel]; [simpl in Hfuel; lia|].
    cbn [chunks_fill].
    destruct (IH fuel (skipn n (x :: l))) as [Hl HF].
    + rewrite length_skipn. lia.
    + rewrite length_skipn. lia.
    + split; [simpl; now rewrite Hl|]. constructor; [|assumption].
      exists (firstn n (x :: l)).
      assert (Hf : length (firstn n (x :: l)) = n)
        by (apply firstn_length_le; lia).
      split; [|assumption]. unfold fill.
      rewrite Hf, Nat.sub_diag. apply app_nil_r.
Qed.

Lemma zip_longest_iter_exact {A : Type} (l : list A) (n : Z) (j : nat) :
  0 < n -> length l = (j * Z.to_nat n)%nat ->
  length (zip_longest_iter l n) = j /\
  Forall (fun b => exists w, b = map Some w /\ length w = Z.to_nat n)
         (zip_longest_iter l n).
Proof.
  intros Hn Hlen. unfold zip_longest_iter.
  destruct (n <=? 0) eqn:E; [lia|].
  apply chunks_fill_exact; [lia|assumption|lia].
Qed.

Lemma present_map_Some {A : Type} (w : list A) : present (map Some w) = w.
Proof. induction w as [|x w IH]; simpl; [reflexivity|]. now f_equal. Qed.

Lemma flat_map_present_map_Some {A : Type} (W : list (list A)) :
  flat_map present (map (map Some) W) = concat W.
Proof.
  induction W as [|w W IH]; simpl; [reflexivity|].
  now rewrite present_map_Some, IH.
Qed.

Lemma length_concat_uniform {A : Type} (n : nat) (W : list (list A)) :
  Forall (fun w => length w = n) W -> length (concat W) = (length W * n)%nat.
Proof.
  induction 1 as [|w W Hw _ IH]; simpl; [reflexivity|].
  rewrite length_app. lia.
Qed.

Lemma Permutation_concat {A : Type} (l l' : list (list A)) :
  Permutation l l' -> Permutation (concat l) (concat l').
Proof.
  intros H. rewrite <- (map_id l), <- (map_id l'), <- !flat_map_concat_map.
  now apply Permutation_flat_map.
Qed.

Lemma Forall2_perm_flat_map {A B : Type} (F : A -> list B) (ps : list A)
  (groups : list (list B)) :
  Forall2 (fun p grp => Permutation (F p) grp) ps groups ->
  Permutation (flat_map F ps) (concat groups).
Proof.
  induction 1 as [|p grp ps groups Hp _ IH]; simpl; [constructor|].
  now apply Permutation_app.
Qed.

Section SamplerShape.

Variable rng : Type.
Variable np_random_shuffle : forall A : Type, list A -> rng -> list A * rng.

Hypothesis np_random_shuffle_perm :
  forall (A : Type) (l : list A) (g : rng),
    Permutation l (fst (np_random_shuffle l g)).

(** Groups whose lengths are multiples of the batch size are re-sliced
    into full batches: nothing is filled in, nothing lost. *)
Lemma regroup_full (n : Z) (groups : list (string * list triple)) (g : rng) :
  0 < n ->
  Forall (fun kg => exists j, length (snd kg) = (j * Z.to_nat n)%nat) groups ->
  let bl := fst (regroup np_random_shuffle groups n g) in
  Forall (fun b => exists w, b = map Some w /\ length w = Z.to_nat n) bl /\
  (length bl * Z.to_nat n)%nat = length (concat (map snd groups)) /\
  Permutation (flat_map present bl) (concat (map snd groups)).
Proof.
  intros Hn HF. revert g.
  induction HF as [|[k grp] groups [j Hj] _ IH]; intros g; simpl.
  - repeat split; constructor.
  - pose proof (np_random_shuffle_perm grp g) as Hp.
    destruct (np_random_shuffle grp g) as [grp' g1]. simpl in Hp, Hj.
    specialize (IH g1).
    destruct (regroup np_random_shuffle groups n g1) as [more g2].
    simpl in *. destruct IH as (IH1 & IH2 & IH3).
    assert (Hlen : length grp' = (j * Z.to_nat n)%nat)
      by (rewrite <- Hj; symmetry; now apply Permutation_length).
    destruct (@zip_longest_iter_exact _ grp' n j Hn Hlen) as [Hz1 Hz2].
    destruct (@zip_longest_iter_all _ grp' n Hn) as [Hz3 _].
    split; [|split].
    + apply Forall_app. now split.
    + rewrite !length_app, Hz1, Hj. lia.
    + rewrite flat_map_app, Hz3. apply Permutation_app; [|assumption].
      now apply Permutation_sym.
Qed.

(** What the constructor builds for a positive batch size, whatever the
    shuffle mode: full batches, holding the triples of the windows of the
    pairs, as many batches as windows. *)
Lemma init_anatomy (dataset : DatasetBase)
  (sizes : list ((string * string) * Z)) (B : Z) (m : shuffle_mode)
  (overlap : bool) (g : rng) :
  0 < B -> get_seq_sizes dataset = Ok sizes ->
  exists sampler g',
    DefaultSampler_init np_random_shuffle dataset B m overlap g =
      Ok (sampler, g') /\
    Permutation sizes (seq_sizes sampler) /\
    Forall (fun b => exists w, b = map Some w /\ length w = Z.to_nat B)
           (batches sampler) /\
    Permutation
      (flat_map present (batches sampler))
      (concat (flat_map (fun p => windows_of (fst p) (snd p) B overlap) sizes)) /\
    length (batches sampler) =
      list_sum (map (fun p => n_batches (snd p) B overlap) sizes).
Proof.
  intros HB Hsizes. unfold DefaultSampler_init. rewrite Hsizes. simpl.
  pose proof (@shuffle_if_perm rng np_random_shuffle np_random_shuffle_perm
                _ (is_seq m) sizes g) as Hp.
  destruct (shuffle_if np_random_shuffle (is_seq m) sizes g) as [sizes' g1].
  simpl in Hp.
  set (F := fun p : string * string * Z => windows_of (fst p) (snd p) B overlap).
  destruct (@build_batches_groups rng np_random_shuffle np_random_shuffle_perm
              (fun es S => windows_of es S B overlap) B m overlap
              (fun es S => @seq_batches_windows_of es S B overlap HB)
              sizes' g1) as (groups & g2 & -> & HF & _).
  simpl.
  apply Forall2_perm_flat_map in HF. fold F in HF.
  set (W := concat groups) in *.
  assert (HFs : Permutation (flat_map F sizes) W).
  { etransitivity; [|exact HF]. now apply Permutation_flat_map. }
  assert (Hshape : Forall (fun w => length w = Z.to_nat B /\
                                    exists k, Forall (fun t : triple =>
                                                        fst (fst t) = k) w) W).
  { apply Forall_forall. intros w Hw.
    apply (Permutation_in _ (Permutation_sym HFs)) in Hw.
    apply in_flat_map in Hw. destruct Hw as ([es S] & _ & Hw).
    apply windows_of_shape in Hw. destruct Hw as [Hl Hes].
    split; [assumption|]. exists (fst es). revert Hes. apply Forall_impl.
    now intros t ->. }
  assert (Hlens : Forall (fun w : list triple => length w = Z.to_nat B) W).
  { revert Hshape. apply Forall_impl. now intros w [? _]. }
  assert (HlenW : length W =
                  list_sum (map (fun p => n_batches (snd p) B overlap) sizes)).
  { rewrite <- (Permutation_length HFs), length_flat_map. f_equal.
    apply map_ext. intros p. apply length_windows_of. }
  destruct (is_env_or_all m) eqn:Hm.
  - pose proof (groupby_concat (fun t : triple => fst (fst t)) (concat W))
      as Hc.
    assert (Hblocks : Forall (fun kg : string * list triple =>
                                exists j, length (snd kg) =
                                          (j * Z.to_nat B)%nat)
                             (groupby (fun t : triple => fst (fst t))
                                      (concat W))).
    { apply groupby_blocks; [lia|exact Hshape]. }
    set (gs := groupby (fun t : triple => fst (fst t)) (concat W)) in *.
    destruct (@regroup_full B gs g2 HB Hblocks) as (R1 & R2 & R3).
    destruct (regroup np_random_shuffle gs B g2) as [bl g3]. simpl in R1, R2, R3.
    pose proof (@shuffle_if_perm rng np_random_shuffle np_random_shuffle_perm
                  _ (is_all m) bl g3) as Hp'.
    destruct (shuffle_if np_random_shuffle (is_all m) bl g3) as [bl' g4].
    simpl in Hp'. eexists _, _. split; [reflexivity|]. simpl.
    split; [assumption|]. split; [|split].
    + apply Forall_forall. intros b Hb.
      apply (Permutation_in _ (Permutation_sym Hp')) in Hb.
      rewrite Forall_forall in R1. now apply R1.
    + etransitivity;
        [apply Permutation_flat_map, Permutation_sym; exact Hp'|].
      etransitivity; [exact R3|]. rewrite Hc.
      apply Permutation_concat. now apply Permutation_sym.
    + rewrite <- (Permutation_length Hp'), <- HlenW.
      rewrite Hc, (length_concat_uniform Hlens) in R2.
      apply Nat.mul_cancel_r in R2; [assumption|lia].
  - assert (Hall : is_all m = false) by (destruct m; auto; discriminate).
    rewrite Hall. simpl. eexists _, _. split; [reflexivity|]. simpl.
    split; [assumption|]. split; [|split].
    + apply Forall_forall. intros b Hb. apply in_map_iff in Hb.
      destruct Hb as (w & <- & Hw). exists w. split; [reflexivity|].
      rewrite Forall_forall in Hlens. now apply Hlens.
    + rewrite flat_map_present_map_Some.
      apply Permutation_concat. now apply Permutation_sym.
    + now rewrite length_map.
Qed.

End SamplerShape.

(** X1. For a positive batch size the sampler never yields a short or a
    padded batch, whatever the shuffle mode and with or without overlap:
    the constructor returns, and every batch it iterates over holds exactly
    [batch_size] triples and no [None]. *)
Theorem sampler_batches_are_full :
  forall (rng : Type)
         (np_random_shuffle : forall A : Type, list A -> rng -> list A * rng),
    (forall (A : Type) (l : list A) (g : rng),
        Permutation l (fst (np_random_shuffle A l g))) ->
    forall (dataset : DatasetBase) (sizes : list ((string * string) * Z))
           (B : Z) (m : shuffle_mode) (overlap : bool) (g : rng),
      0 < B ->
      get_seq_sizes dataset = Ok sizes ->
      exists sampler g',
        DefaultSampler_init np_random_shuffle dataset B m overlap g =
          Ok (sampler, g') /\
        forall b, In b (DefaultSampler_iter sampler) ->
          length b = Z.to_nat B /\ ~ In None b /\ exists w, b = map Some w.
Proof.
  intros rng np_random_shuffle Hperm dataset sizes B m overlap g HB Hsizes.
  destruct (@init_anatomy rng np_random_shuffle Hperm dataset sizes B m overlap
              g HB Hsizes) as (sampler & g' & Hinit & _ & Hfull & _).
  exists sampler, g'. split; [assumption|]. intros b Hb.
  unfold DefaultSampler_iter in Hb. rewrite Forall_forall in Hfull.
  destruct (Hfull b Hb) as (w & -> & Hw). split; [|split].
  - now rewrite length_map.
  - intros Hin. apply in_map_iff in Hin. destruct Hin as (t & Ht & _).
    discriminate.
  - now exists w.
Qed.

Lemma sampler_batches_are_full_witness :
  0 < 3 /\
  get_seq_sizes scenario =
    Ok [("envA", "s1", 5); ("envA", "s2", 3); ("envB", "s3", 10)] /\
  exists sampler g',
    DefaultSampler_init rev_shuffle scenario 3 ShuffleAll false tt =
      Ok (sampler, g') /\
    forall b, In b (DefaultSampler_iter sampler) ->
      length b = Z.to_nat 3 /\ ~ In None b /\ exists w, b = map Some w.
Proof.
  split; [lia|]. split; [reflexivity|].
  apply (@sampler_batches_are_full unit rev_shuffle rev_shuffle_perm scenario
           [("envA", "s1", 5); ("envA", "s2", 3); ("envB", "s3", 10)]
           3 ShuffleAll false tt); [lia|reflexivity].
Defined.

(** X2. For a positive batch size, [len(sampler)] does not depend on the
    shuffle mode: it is the number of start offsets of all pairs, [S - B]
    for a pair of size [S] with overlap and [ceil (S / B) - 1] without,
    nothing for a pair with no offset. *)
Theorem sampler_len_counts_offsets :
  forall (rng : Type)
         (np_random_shuffle : forall A : Type, list A -> rng -> list A * rng),
    (forall (A : Type) (l : list A) (g : rng),
        Permutation l (fst (np_random_shuffle A l g))) ->
    forall (dataset : DatasetBase) (sizes : list ((string * string) * Z))
           (B : Z) (m : shuffle_mode) (overlap : bool) (g : rng),
      0 < B ->
      get_seq_sizes dataset = Ok sizes ->
      exists sampler g',
        DefaultSampler_init np_random_shuffle dataset B m overlap g =
          Ok (sampler, g') /\
        DefaultSampler_len sampler =
          Z.of_nat (list_sum (map (fun p => n_batches (snd p) B overlap) sizes)) /\
        DefaultSampler_len sampler =
          Z.of_nat (length (DefaultSampler_iter sampler)).
Proof.
  intros rng np_random_shuffle Hperm dataset sizes B m overlap g HB Hsizes.
  destruct (@init_anatomy rng np_random_shuffle Hperm dataset sizes B m overlap
              g HB Hsizes) as (sampler & g' & Hinit & _ & _ & _ & Hlen).
  exists sampler, g'. split; [assumption|].
  unfold DefaultSampler_len, DefaultSampler_iter. now rewrite Hlen.
Qed.

Lemma sampler_len_counts_offsets_witness :
  0 < 3 /\
  get_seq_sizes scenario =
    Ok [("envA", "s1", 5); ("envA", "s2", 3); ("envB", "s3", 10)] /\
  exists sampler g',
    DefaultSampler_init rev_shuffle scenario 3 ShuffleEnv true tt =
      Ok (sampler, g') /\
    DefaultSampler_len sampler = 9 /\
    DefaultSampler_len sampler = Z.of_nat (length (DefaultSampler_iter sampler)).
Proof.
  split; [lia|]. split; [reflexivity|].
  apply (@sampler_len_counts_offsets unit rev_shuffle rev_shuffle_perm scenario
           [("envA", "s1", 5); ("envA", "s2", 3); ("envB", "s3", 10)]
           3 ShuffleEnv true tt); [lia|reflexivity].
Defined.

(** X3. Shuffling only rearranges: for a positive batch size and in every
    shuffle mode, the triples of all batches together are the triples of
    the windows of all pairs, each as often as the windows hold it. *)
Theorem sampler_emits_the_windows :
  forall (rng : Type)
         (np_random_shuffle : forall A : Type, list A -> rng -> list A * rng),
    (forall (A : Type) (l : list A) (g : rng),
        Permutation l (fst (np_random_shuffle A l g))) ->
    forall (dataset : DatasetBase) (sizes : list ((string * string) * Z))
           (B : Z) (m : shuffle_mode) (overlap : bool) (g : rng),
      0 < B ->
      get_seq_sizes dataset = Ok sizes ->
      exists sampler g',
        DefaultSampler_init np_random_shuffle dataset B m overlap g =
          Ok (sampler, g') /\
        Permutation
          (flat_map present (DefaultSampler_iter sampler))
          (concat (flat_map (fun p => windows_of (fst p) (snd p) B overlap)
                            sizes)).
Proof.
  intros rng np_random_shuffle Hperm dataset sizes B m overlap g HB Hsizes.
  destruct (@init_anatomy rng np_random_shuffle Hperm dataset sizes B m overlap
              g HB Hsizes) as (sampler & g' & Hinit & _ & _ & Hall & _).
  exists sampler, g'. now split.
Qed.

Lemma sampler_emits_the_windows_witness :
  0 < 3 /\
  get_seq_sizes scenario =
    Ok [("envA", "s1", 5); ("envA", "s2", 3); ("envB", "s3", 10)] /\
  exists sampler g',
    DefaultSampler_init rev_shuffle scenario 3 ShuffleAll true tt =
      Ok (sampler, g') /\
    Permutation
      (flat_map present (DefaultSampler_iter sampler))
      (concat (flat_map (fun p => windows_of (fst p) (snd p) 3 true)
                        [("envA", "s1", 5); ("envA", "s2", 3);
                         ("envB", "s3", 10)])).
Proof.
  split; [lia|]. split; [reflexivity|].
  apply (@sampler_emits_the_windows unit rev_shuffle rev_shuffle_perm scenario
           [("envA", "s1", 5); ("envA", "s2", 3); ("envB", "s3", 10)]
           3 ShuffleAll true tt); [lia|reflexivity].
Defined.

(** ** The sampler and item access *)

Lemma in_py_slice {A : Type} (l : list A) (lo hi : Z) (x : A) :
  In x (py_slice l lo hi) -> In x l.
Proof.
  unfold py_slice. intros H. apply in_firstn in H. now apply in_skipn in H.
Qed.

Lemma in_arange_step1 (n i : Z) : In i (arange 0 n 1) -> 0 <= i < n.
Proof.
  rewrite arange_step1. intros H. apply in_map_iff in H.
  destruct H as (j & <- & Hj). apply in_seq in Hj. lia.
Qed.

(** A triple of a window names the pair of the window and a frame of it,
    whatever the batch size. *)
Lemma seq_batches_in_range (es : string * string) (S B : Z) (overlap : bool)
  (ws : list (list triple)) (w : list triple) (t : triple) :
  seq_batches es S B overlap = Ok ws -> In w ws -> In t w ->
  fst t = es /\ 0 <= snd t < S.
Proof.
  unfold seq_batches. intros H Hw Ht.
  destruct (np_arange 0 (S - B) (if overlap then 1 else B)) as [starts|e];
    simpl in H; [|discriminate].
  injection H as <-. apply in_map_iff in Hw. destruct Hw as (st & <- & _).
  apply in_map_iff in Ht. destruct Ht as (idx & <- & Hidx).
  apply in_py_slice, in_arange_step1 in Hidx. now split.
Qed.

(** A pair listed by [get_env_seqs] is found by the two lookups of
    [__getitem__]. *)
Lemma env_seqs_lookup (c : catalog) (env seq : string) :
  In (env, seq) (catalog_env_seqs c) <->
  dict_mem c env = true /\ exists l, dict_get c env = Ok l /\ In seq l.
Proof.
  unfold catalog_env_seqs. rewrite in_flat_map. split.
  - intros (k & Hk & Hin).
    destruct (dict_get c k) as [l|e] eqn:Hl; [|destruct Hin].
    apply in_map_iff in Hin. destruct Hin as (s & Heq & Hs).
    injection Heq as -> ->. split; [now apply dict_mem_In|eauto].
  - intros (Hmem & l & Hl & Hs). exists env. split; [now apply dict_mem_In|].
    rewrite Hl. apply in_map_iff. now exists seq.
Qed.

(** On a listed pair and a frame in range the three assertions pass and
    the item is fetched. *)
Lemma getitem_valid (self : DatasetBase) (env seq : string) (idx size : Z)
  (log : list hook_call) :
  In (env, seq) (get_env_seqs self) ->
  get_size self env seq = Ok size -> 0 <= idx < size ->
  getitem self (env, seq, idx) log =
  (match getitem_impl self env seq idx with
   | Ok item => Ok (VTuple (as_tuple item ++ [VTriple (env, seq, idx)]))
   | Raise e => Raise e
   end,
   log ++ [CallGetSize env seq; CallGetItem env seq idx]).
Proof.
  intros Hin Hsize Hidx. apply env_seqs_lookup in Hin.
  destruct Hin as (Hmem & l & Hl & Hs). apply list_mem_In in Hs.
  unfold getitem, seqs in *. rewrite Hmem, Hl, Hs, Hsize. simpl.
  destruct (idx <? 0) eqn:E1; [lia|]. destruct (idx <? size) eqn:E2; [|lia].
  simpl. rewrite <- app_assoc. simpl.
  destruct (getitem_impl self env seq idx); reflexivity.
Qed.

(** X4. Every triple the sampler yields is an index that
    [DatasetBase.__getitem__] accepts, for every batch size, shuffle mode
    and overlap: its pair is listed by [get_env_seqs], its frame lies in
    [0, get_size), so the three assertions pass and the item is fetched
    with that very triple. *)
Theorem sampler_indices_are_valid :
  forall (rng : Type)
         (np_random_shuffle : forall A : Type, list A -> rng -> list A * rng),
    (forall (A : Type) (l : list A) (g : rng),
        Permutation l (fst (np_random_shuffle A l g))) ->
    forall (dataset : DatasetBase) (B : Z) (m : shuffle_mode) (overlap : bool)
           (g g' : rng) (sampler : DefaultSampler),
      DefaultSampler_init np_random_shuffle dataset B m overlap g =
        Ok (sampler, g') ->
      forall b env seq idx,
        In b (DefaultSampler_iter sampler) -> In (Some (env, seq, idx)) b ->
        In (env, seq) (get_env_seqs dataset) /\
        (exists size, get_size dataset env seq = Ok size /\ 0 <= idx < size) /\
        forall log,
          getitem dataset (env, seq, idx) log =
          (match getitem_impl dataset env seq idx with
           | Ok item => Ok (VTuple (as_tuple item ++ [VTriple (env, seq, idx)]))
           | Raise e => Raise e
           end,
           log ++ [CallGetSize env seq; CallGetItem env seq idx]).
Proof.
  intros rng np_random_shuffle Hperm dataset B m overlap g g' sampler Hinit
         b env seq idx Hb Ht.
  destruct (get_seq_sizes dataset) as [sizes|e] eqn:Hsizes;
    [|unfold DefaultSampler_init in Hinit; rewrite Hsizes in Hinit;
      discriminate].
  assert (Hw : exists w, is_window sizes B overlap w /\ In (env, seq, idx) w).
  { destruct (@init_batches rng np_random_shuffle Hperm dataset sizes B m
                overlap g g' sampler Hsizes Hinit b Hb)
      as [(_ & w & Hw & ->)|(_ & k & Hk)].
    - exists w. split; [assumption|]. apply in_map_iff in Ht.
      destruct Ht as (t & Heq & Hin). now injection Heq as ->.
    - now destruct (Hk _ Ht) as (_ & w & Hw & Hin); exists w. }
  destruct Hw as (w & ([es S] & ws & Hp & Hws & Hww) & Htw).
  simpl in Hws.
  destruct (@seq_batches_in_range es S B overlap ws w (env, seq, idx)
              Hws Hww Htw) as [Hes Hidx].
  simpl in Hes, Hidx. subst es.
  destruct (get_seq_sizes_ok dataset Hsizes) as [Hpairs Hall].
  rewrite Forall_forall in Hall. specialize (Hall _ Hp). simpl in Hall.
  assert (Hin : In (env, seq) (get_env_seqs dataset)).
  { rewrite <- Hpairs. apply in_map_iff. now exists (env, seq, S). }
  split; [assumption|]. split; [now exists S|].
  intros log. now apply getitem_valid with (size := S).
Qed.

Lemma sampler_indices_are_valid_witness :
  exists sampler,
    DefaultSampler_init rev_shuffle scenario 3 ShuffleAll true tt =
      Ok (sampler, tt) /\
    In [Some ("envA", "s1", 3); Some ("envA", "s1", 2); Some ("envA", "s1", 1)]
       (DefaultSampler_iter sampler) /\
    getitem scenario ("envA", "s1", 2) [] =
      (Ok (VTuple [VInt 2; VTuple [VStr "envA"; VStr "s1"; VInt 2]]),
       [CallGetSize "envA" "s1"; CallGetItem "envA" "s1" 2]).
Proof.
  eexists. split; [reflexivity|]. split.
  - vm_compute. auto 20.
  - apply (@sampler_indices_are_valid unit rev_shuffle rev_shuffle_perm
             scenario 3 ShuffleAll true tt tt _ eq_refl
             [Some ("envA", "s1", 3); Some ("envA", "s1", 2);
              Some ("envA", "s1", 1)] "envA" "s1" 2).
    + vm_compute. auto 20.
    + simpl. auto.
Defined.

(** ** The sampler: when the constructor raises *)

(** The first pair whose size is not available decides. *)
Lemma get_seq_sizes_raises (dataset : DatasetBase)
  (pre post : list (string * string)) (env seq : string) (e : exn) :
  get_env_seqs dataset = pre ++ (env, seq) :: post ->
  Forall (fun p => exists S, get_size dataset (fst p) (snd p) = Ok S) pre ->
  get_size dataset env seq = Raise e ->
  get_seq_sizes dataset = Raise e.
Proof.
  intros Hpairs Hpre He. unfold get_seq_sizes. rewrite Hpairs. clear Hpairs.
  induction Hpre as [|p pre [S HS] _ IH]; simpl.
  - now rewrite He.
  - rewrite HS. simpl. now rewrite IH.
Qed.

Lemma seq_batches_returns (es : string * string) (S B : Z) (overlap : bool) :
  overlap = true \/ B <> 0 -> exists ws, seq_batches es S B overlap = Ok ws.
Proof.
  intros H. unfold seq_batches, np_arange.
  destruct overlap; simpl; [eauto|].
  destruct (B =? 0) eqn:E; [lia|]. simpl. eauto.
Qed.



(** ** Item access: when the hooks are called *)

Ltac getitem_case :=
  repeat split; simpl; intros;
  repeat match goal with
         | H : _ /\ _ |- _ => destruct H
         | H : exists _, _ |- _ => destruct H
         | H : _ \/ _ |- _ => destruct H
         | H : False |- _ => destruct H
         | H : In _ [] |- _ => destruct H
         | H : Raise _ = Ok _ |- _ => discriminate H
         | H : Ok _ = Ok _ |- _ => injection H as <-
         | H : In _ (_ :: _) |- _ => destruct H
         | H1 : ?x = Ok ?a, H2 : ?x = Ok ?b |- _ =>
             rewrite H1 in H2; injection H2 as <-
         | H1 : ?x = Raise _, H2 : ?x = Ok _ |- _ =>
             rewrite H1 in H2; discriminate
         end;
  try discriminate; try contradiction; try lia; eauto.

(** X6. Which hooks [DatasetBase.__getitem__] calls, and when it returns.
    [get_size] is asked exactly when the pair is listed by [get_env_seqs]
    and the frame is not negative; [getitem_impl] is called exactly when
    moreover the frame is below the size, never with an index that was not
    checked; no other call is made. The access returns a value exactly
    when the pair is listed, the frame lies in [0, get_size) and
    [getitem_impl] returns. *)
Theorem getitem_calls_hooks_on_valid_index :
  forall (self : DatasetBase) (env seq : string) (idx : Z)
         (log : list hook_call),
    let listed := In (env, seq) (get_env_seqs self) in
    let in_range :=
      exists size, get_size self env seq = Ok size /\ 0 <= idx < size in
    (exists calls,
        snd (getitem self (env, seq, idx) log) = log ++ calls /\
        (In (CallGetSize env seq) calls <-> listed /\ 0 <= idx) /\
        (In (CallGetItem env seq idx) calls <-> listed /\ in_range) /\
        (calls = [] \/ calls = [CallGetSize env seq] \/
         calls = [CallGetSize env seq; CallGetItem env seq idx])) /\
    ((exists v, fst (getitem self (env, seq, idx) log) = Ok v) <->
     listed /\ in_range /\
     exists item, getitem_impl self env seq idx = Ok item).
Proof.
  intros self env seq idx log listed in_range. subst listed in_range.
  pose proof (env_seqs_lookup (seqs self) env seq) as Hv.
  fold (get_env_seqs self) in Hv. unfold getitem.
  destruct (dict_mem (seqs self) env) eqn:Hmem; simpl.
  2:{ assert (Hnv : ~ In (env, seq) (get_env_seqs self))
        by (rewrite Hv; intros [? _]; discriminate).
      split; [exists []; rewrite app_nil_r|]; getitem_case. }
  destruct (dict_get (seqs self) env) as [l|e] eqn:Hl; simpl.
  2:{ assert (Hnv : ~ In (env, seq) (get_env_seqs self))
        by (rewrite Hv; intros (_ & ? & ? & _); discriminate).
      split; [exists []; rewrite app_nil_r|]; getitem_case. }
  destruct (list_mem l seq) eqn:Hs; simpl.
  2:{ assert (Hnv : ~ In (env, seq) (get_env_seqs self)).
      { rewrite Hv. intros (_ & l' & Hl' & Hin). injection Hl' as <-.
        apply list_mem_In in Hin. congruence. }
      split; [exists []; rewrite app_nil_r|]; getitem_case. }
  assert (Hlisted : In (env, seq) (get_env_seqs self)).
  { apply Hv. split; [reflexivity|]. exists l. split; [reflexivity|].
    now apply list_mem_In. }
  destruct (idx <? 0) eqn:E1; simpl.
  { apply Z.ltb_lt in E1.
    split; [exists []; rewrite app_nil_r|]; getitem_case. }
  apply Z.ltb_ge in E1.
  destruct (get_size self env seq) as [size|e] eqn:Hsize; simpl.
  2:{ split; [exists [CallGetSize env seq]|]; getitem_case. }
  destruct (idx <? size) eqn:E2; simpl.
  2:{ apply Z.ltb_ge in E2.
      split; [exists [CallGetSize env seq]|]; getitem_case. }
  apply Z.ltb_lt in E2.
  destruct (getitem_impl self env seq idx) as [item|e] eqn:Hitem; simpl.
  - split; [exists [CallGetSize env seq; CallGetItem env seq idx];
            rewrite <- app_assoc|];
      getitem_case.
  - split; [exists [CallGetSize env seq; CallGetItem env seq idx];
            rewrite <- app_assoc|];
      getitem_case.
Qed.

(** ** Filtering: order, repetition, composition *)

Lemma filter_filter {A : Type} (f g : A -> bool) (l : list A) :
  filter g (filter f l) = filter (fun x => f x && g x) l.
Proof.
  induction l as [|x l IH]; simpl; [reflexivity|].
  destruct (f x); simpl; [|assumption].
  destruct (g x); now rewrite IH.
Qed.

Lemma with_seqs_twice (self : DatasetBase) (c1 c2 : catalog) :
  with_seqs (with_seqs self c1) c2 = with_seqs self c2.
Proof. reflexivity. Qed.

Section FilteringLaws.

Variable pattern : Type.
Variable re_compile : string -> result pattern.
Variable re_search : pattern -> string -> bool.

(** The call leaves the filtered catalog, for every catalog with one entry
    for each environment. *)
Lemma include_exclude_closed (self : DatasetBase)
  (include exclude : option string) (incl excl : option pattern) :
  dict_ok (seqs self) ->
  compile_opt re_compile include = Ok incl ->
  compile_opt re_compile exclude = Ok excl ->
  include_exclude re_compile re_search self include exclude =
  Ok (with_seqs self (filtered re_search incl excl (seqs self))).
Proof.
  intros Hok Hincl Hexcl. unfold include_exclude. rewrite Hincl, Hexcl. simpl.
  unfold get_env_seqs. rewrite catalog_env_seqs_entries by assumption.
  pose proof (@filter_loop_catalog pattern re_search incl excl
                (seqs self) [] Hok (fun k _ H => H)) as Hloop.
  simpl in Hloop. now rewrite Hloop.
Qed.

(** A call that returns has compiled its patterns. *)
Lemma include_exclude_compiled (self self' : DatasetBase)
  (include exclude : option string) :
  include_exclude re_compile re_search self include exclude = Ok self' ->
  exists incl excl,
    compile_opt re_compile include = Ok incl /\
    compile_opt re_compile exclude = Ok excl.
Proof.
  unfold include_exclude. intros H.
  destruct (compile_opt re_compile include) as [incl|e]; [|discriminate].
  destruct (compile_opt re_compile exclude) as [excl|e]; [|discriminate].
  eauto.
Qed.

Lemma entries_filtered (incl excl : option pattern) (c : catalog) :
  entries (filtered re_search incl excl c) =
  filter (stays re_search incl excl) (entries c).
Proof.
  unfold entries, filtered.
  induction c as [|[k l] c IH]; simpl; [reflexivity|].
  rewrite flat_map_app, filter_app, IH. f_equal.
  rewrite filter_map_swap. unfold kept_entry, stays. simpl.
  destruct (filter _ l) as [|x f] eqn:E.
  - destruct l; reflexivity.
  - simpl. now rewrite app_nil_r.
Qed.

(** Two filters, one after the other, are the filter that keeps what both
    keep. *)
Lemma filtered_compose (i1 e1 i2 e2 i e : option pattern) (c : catalog) :
  (forall s, negb (rejected re_search i e s) =
             negb (rejected re_search i1 e1 s) &&
             negb (rejected re_search i2 e2 s)) ->
  filtered re_search i2 e2 (filtered re_search i1 e1 c) =
  filtered re_search i e c.
Proof.
  intros Hk. unfold filtered.
  induction c as [|[k l] c IH]; simpl; [reflexivity|].
  rewrite flat_map_app, IH. f_equal. unfold kept_entry. simpl.
  assert (Hf : filter (fun seq => negb (rejected re_search i e
                                                 (get_seq_id k seq))) l =
               filter (fun seq => negb (rejected re_search i2 e2
                                                 (get_seq_id k seq)))
                      (filter (fun seq => negb (rejected re_search i1 e1
                                                         (get_seq_id k seq)))
                              l)).
  { rewrite filter_filter. apply filter_ext. intros s. apply Hk. }
  rewrite Hf.
  destruct (filter (fun seq => negb (rejected re_search i1 e1
                                              (get_seq_id k seq))) l)
    as [|x f1] eqn:E1.
  - destruct l; reflexivity.
  - simpl. rewrite app_nil_r.
    destruct l as [|y l']; [discriminate|].
    destruct (if negb (rejected re_search i2 e2 (get_seq_id k x)) then _
              else _); reflexivity.
Qed.

End FilteringLaws.

(** X7. [include_exclude] keeps the order of the catalog: on a catalog
    with one entry for each environment and with patterns that compile,
    the pairs listed afterwards are the pairs listed before without the
    rejected ones, in the same order and as often; the hooks and the root
    of the dataset are as before. *)
Theorem include_exclude_keeps_order :
  forall (pattern : Type) (re_compile : string -> result pattern)
         (re_search : pattern -> string -> bool) (self : DatasetBase)
         (include exclude : option string) (incl excl : option pattern),
    dict_ok (seqs self) ->
    compile_opt re_compile include = Ok incl ->
    compile_opt re_compile exclude = Ok excl ->
    exists self',
      include_exclude re_compile re_search self include exclude = Ok self' /\
      get_env_seqs self' =
        filter (stays re_search incl excl) (get_env_seqs self) /\
      path_prefix self' = path_prefix self /\
      get_size self' = get_size self /\
      getitem_impl self' = getitem_impl self.
Proof.
  intros pattern re_compile re_search self include exclude incl excl
         Hok Hincl Hexcl.
  exists (with_seqs self (filtered re_search incl excl (seqs self))).
  split; [now apply include_exclude_closed|].
  split; [|now repeat split].
  unfold get_env_seqs. simpl.
  rewrite !catalog_env_seqs_entries
    by (try apply filtered_dict_ok; assumption).
  apply entries_filtered.
Qed.

Lemma include_exclude_keeps_order_witness :
  exists self',
    include_exclude (fun s => Ok s) literal_search scenario
                    None (Some "s2") = Ok self' /\
    get_env_seqs self' = [("envA", "s1"); ("envB", "s3")].
Proof.
  destruct (@include_exclude_keeps_order string (fun s => Ok s) literal_search
              scenario None (Some "s2") None (Some "s2"))
    as (self' & Hcall & Hpairs & _).
  - repeat constructor; simpl; intuition discriminate.
  - reflexivity.
  - reflexivity.
  - exists self'. split; [exact Hcall|]. rewrite Hpairs. reflexivity.
Defined.

(** X8. Filtering twice with the same patterns changes nothing more: on a
    catalog with one entry for each environment, a second call of
    [include_exclude] with the arguments of a call that returned returns
    the dataset as the first call left it. *)
Theorem include_exclude_idempotent :
  forall (pattern : Type) (re_compile : string -> result pattern)
         (re_search : pattern -> string -> bool) (self self' : DatasetBase)
         (include exclude : option string),
    dict_ok (seqs self) ->
    include_exclude re_compile re_search self include exclude = Ok self' ->
    include_exclude re_compile re_search self' include exclude = Ok self'.
Proof.
  intros pattern re_compile re_search self self' include exclude Hok Hcall.
  destruct (include_exclude_compiled _ _ _ _ _ Hcall)
    as (incl & excl & Hincl & Hexcl).
  rewrite (@include_exclude_closed pattern re_compile re_search self include
             exclude incl excl Hok Hincl Hexcl) in Hcall.
  injection Hcall as <-.
  rewrite (@include_exclude_closed pattern re_compile re_search _ include
             exclude incl excl); [|now apply filtered_dict_ok|assumption..].
  simpl. rewrite with_seqs_twice. f_equal. f_equal.
  apply filtered_compose. intros s. now rewrite andb_diag.
Qed.

Lemma include_exclude_idempotent_witness :
  dict_ok (seqs scenario) /\
  exists self',
    include_exclude (fun s => Ok s) literal_search scenario
                    (Some "envA") (Some "s2") = Ok self' /\
    include_exclude (fun s => Ok s) literal_search self'
                    (Some "envA") (Some "s2") = Ok self'.
Proof.
  assert (Hok : dict_ok (seqs scenario))
    by (repeat constructor; simpl; intuition discriminate).
  split; [exact Hok|]. eexists. split; [reflexivity|].
  apply (@include_exclude_idempotent string (fun s => Ok s) literal_search
           scenario _ (Some "envA") (Some "s2") Hok).
  reflexivity.
Defined.

(** X9. Including and excluding in two calls is the same as in one: on a
    catalog with one entry for each environment, a call with the include
    pattern alone followed by a call with the exclude pattern alone, or
    the two in the other order, leaves the dataset that the single call
    with both patterns leaves. *)
Theorem include_exclude_in_two_calls :
  forall (pattern : Type) (re_compile : string -> result pattern)
         (re_search : pattern -> string -> bool) (self : DatasetBase)
         (include exclude : option string),
    dict_ok (seqs self) ->
    (forall s1 s2,
        include_exclude re_compile re_search self include None = Ok s1 ->
        include_exclude re_compile re_search s1 None exclude = Ok s2 ->
        include_exclude re_compile re_search self include exclude = Ok s2) /\
    (forall s1 s2,
        include_exclude re_compile re_search self None exclude = Ok s1 ->
        include_exclude re_compile re_search s1 include None = Ok s2 ->
        include_exclude re_compile re_search self include exclude = Ok s2).
Proof.
  intros pattern re_compile re_search self include exclude Hok.
  split; intros s1 s2 H1 H2.
  - destruct (include_exclude_compiled _ _ _ _ _ H1) as (incl & ? & Hincl & _).
    destruct (include_exclude_compiled _ _ _ _ _ H2) as (? & excl & _ & Hexcl).
    rewrite (@include_exclude_closed pattern re_compile re_search self include
               None incl None Hok Hincl eq_refl) in H1.
    injection H1 as <-.
    rewrite (@include_exclude_closed pattern re_compile re_search _ None
               exclude None excl) in H2;
      [|now apply filtered_dict_ok|reflexivity|assumption].
    injection H2 as <-.
    rewrite (@include_exclude_closed pattern re_compile re_search self include
               exclude incl excl Hok Hincl Hexcl).
    simpl. rewrite with_seqs_twice. f_equal. f_equal. symmetry.
    apply filtered_compose. intros s. unfold rejected.
    destruct incl, excl; simpl; try destruct (re_search _ s);
      try destruct (re_search _ s); reflexivity.
  - destruct (include_exclude_compiled _ _ _ _ _ H1) as (? & excl & _ & Hexcl).
    destruct (include_exclude_compiled _ _ _ _ _ H2) as (incl & ? & Hincl & _).
    rewrite (@include_exclude_closed pattern re_compile re_search self None
               exclude None excl Hok eq_refl Hexcl) in H1.
    injection H1 as <-.
    rewrite (@include_exclude_closed pattern re_compile re_search _ include
               None incl None) in H2;
      [|now apply filtered_dict_ok|assumption|reflexivity].
    injection H2 as <-.
    rewrite (@include_exclude_closed pattern re_compile re_search self include
               exclude incl excl Hok Hincl Hexcl).
    simpl. rewrite with_seqs_twice. f_equal. f_equal. symmetry.
    apply filtered_compose. intros s. unfold rejected.
    destruct incl, excl; simpl; try destruct (re_search _ s);
      try destruct (re_search _ s); reflexivity.
Qed.

Lemma include_exclude_in_two_calls_witness :
  dict_ok (seqs scenario) /\
  exists s1 s2,
    include_exclude (fun s => Ok s) literal_search scenario
                    (Some "envA") None = Ok s1 /\
    include_exclude (fun s => Ok s) literal_search s1 None (Some "s2") =
      Ok s2 /\
    include_exclude (fun s => Ok s) literal_search scenario
                    (Some "envA") (Some "s2") = Ok s2.
Proof.
  assert (Hok : dict_ok (seqs scenario))
    by (repeat constructor; simpl; intuition discriminate).
  split; [exact Hok|]. eexists. eexists.
  split; [reflexivity|]. split; [reflexivity|].
  apply (proj1 (@include_exclude_in_two_calls string (fun s => Ok s)
                  literal_search scenario (Some "envA") (Some "s2") Hok)
               _ _ eq_refl eq_refl).
Defined.

(** ** Random split: the order of the pairs *)

Lemma sublist_nil_l {A : Type} (l : list A) : sublist [] l.
Proof. induction l; now constructor. Qed.

Lemma sublist_refl {A : Type} (l : list A) : sublist l l.
Proof. induction l; now constructor. Qed.

Lemma insert_sorted_increasing (x : nat) (l : list nat) :
  increasing l -> ~ In x l -> increasing (insert_sorted x l).
Proof.
  induction l as [|y l IH]; simpl; intros Hinc Hx.
  - split; [constructor|exact I].
  - destruct Hinc as [Hy Hinc].
    destruct (x <=? y)%nat eqn:E.
    + apply Nat.leb_le in E. assert (x < y)%nat by lia. simpl.
      split; [|now split]. constructor; [assumption|].
      revert Hy. apply Forall_impl. intros; lia.
    + apply Nat.leb_gt in E. simpl. split.
      * apply Forall_forall. intros z Hz.
        apply (Permutation_in _ (insert_sorted_perm x l)) in Hz.
        destruct Hz as [<-|Hz]; [assumption|].
        rewrite Forall_forall in Hy. now apply Hy.
      * apply IH; [assumption|tauto].
Qed.

(** Sorting distinct indices puts them in strictly increasing order. *)
Lemma sorted_increasing (l : list nat) : NoDup l -> increasing (sorted l).
Proof.
  induction 1 as [|x l Hx _ IH]; simpl; [exact I|].
  apply insert_sorted_increasing; [assumption|].
  intros Hin. apply Hx. now apply (Permutation_in _ (sorted_perm l)).
Qed.

Lemma increasing_pred (l : list nat) :
  increasing l -> Forall (fun y => (0 < y)%nat) l -> increasing (map pred l).
Proof.
  induction l as [|x l IH]; simpl; [auto|]. intros [Hx Hinc] Hpos.
  inversion Hpos as [|? ? Hx0 Hpos']; subst. split; [|now apply IH].
  apply Forall_map. rewrite Forall_forall in *. intros y Hy.
  specialize (Hx y Hy). specialize (Hpos' y Hy). lia.
Qed.

(** The elements at increasing indices are a sublist. *)
Lemma sublist_map_nth {A : Type} (d : A) (l : list A) :
  forall idxs : list nat,
    increasing idxs -> Forall (fun i => (i < length l)%nat) idxs ->
    sublist (map (fun i => nth i l d) idxs) l.
Proof.
  induction l as [|a l IH]; intros idxs Hinc Hlt.
  - destruct idxs as [|i rest]; [constructor|].
    inversion Hlt; subst. simpl in *. lia.
  - assert (Hshift : forall js : list nat,
               Forall (fun y => (0 < y)%nat) js ->
               map (fun i => nth i (a :: l) d) js =
               map (fun i => nth i l d) (map pred js)).
    { intros js Hjs. rewrite map_map. apply map_ext_in. intros j Hj.
      rewrite Forall_forall in Hjs. specialize (Hjs j Hj).
      destruct j; [lia|reflexivity]. }
    assert (Hbound : forall js : list nat,
               Forall (fun y => (0 < y)%nat) js ->
               Forall (fun i => (i < length (a :: l))%nat) js ->
               Forall (fun i => (i < length l)%nat) (map pred js)).
    { intros js Hjs Hb. apply Forall_map. rewrite Forall_forall in *.
      intros j Hj. specialize (Hjs j Hj). specialize (Hb j Hj).
      simpl in Hb. lia. }
    destruct idxs as [|i rest]; [apply sublist_nil_l|].
    destruct Hinc as [Hi Hinc]. inversion Hlt as [|? ? Hi' Hlt']; subst.
    destruct i as [|i].
    + assert (Hpos : Forall (fun y => (0 < y)%nat) rest) by exact Hi.
      simpl map at 1. cbn [map nth]. rewrite Hshift by assumption.
      apply sublist_keep. apply IH; [now apply increasing_pred|auto].
    + assert (Hpos : Forall (fun y => (0 < y)%nat) (S i :: rest)).
      { constructor; [lia|]. revert Hi. apply Forall_impl. intros; lia. }
      rewrite Hshift by assumption. apply sublist_skip. apply IH.
      * apply increasing_pred; [now split|assumption].
      * apply Hbound; [assumption|]. now constructor.
Qed.

Lemma increasing_seq (a n : nat) : increasing (seq a n).
Proof.
  revert a. induction n as [|n IH]; intros a; simpl; [exact I|].
  split; [|apply IH]. apply Forall_forall. intros y Hy.
  apply in_seq in Hy. lia.
Qed.

(** Two increasing lists with the same elements are equal. *)
Lemma increasing_unique (l1 : list nat) :
  forall l2 : list nat,
    increasing l1 -> increasing l2 -> Permutation l1 l2 -> l1 = l2.
Proof.
  induction l1 as [|x l1 IH]; intros l2 H1 H2 Hp.
  - apply Permutation_nil in Hp. now subst.
  - destruct l2 as [|y l2];
      [apply Permutation_sym, Permutation_nil in Hp; discriminate|].
    destruct H1 as [Hx H1]. destruct H2 as [Hy H2].
    rewrite Forall_forall in Hx, Hy.
    assert (x = y).
    { assert (Hxin : In x (y :: l2))
        by (apply (Permutation_in _ Hp); now left).
      assert (Hyin : In y (x :: l1))
        by (apply (Permutation_in _ (Permutation_sym Hp)); now left).
      destruct Hxin as [->|Hxin]; [reflexivity|].
      destruct Hyin as [->|Hyin]; [reflexivity|].
      specialize (Hx _ Hyin). specialize (Hy _ Hxin). lia. }
    subst y. f_equal. apply IH; [assumption..|].
    now apply Permutation_cons_inv in Hp.
Qed.

(** Sorting a permutation of [0 .. n - 1] gives [0 .. n - 1]. *)
Lemma sorted_permutation (l : list nat) (n : nat) :
  Permutation l (seq 0 n) -> sorted l = seq 0 n.
Proof.
  intros Hp. apply increasing_unique.
  - apply sorted_increasing.
    apply (Permutation_NoDup (Permutation_sym Hp)), seq_NoDup.
  - apply increasing_seq.
  - etransitivity; [apply sorted_perm|exact Hp].
Qed.

(** ** Random split: building the catalog of a subset *)

Lemma setdefault_append_new (acc : catalog) (k s : string) :
  ~ In k (map fst acc) -> setdefault_append acc k s = acc ++ [(k, [s])].
Proof.
  induction acc as [|[k' l'] acc IH]; simpl; intros Hk; [reflexivity|].
  destruct (String.eqb k' k) eqn:E.
  - apply String.eqb_eq in E. tauto.
  - rewrite IH by tauto. reflexivity.
Qed.

Lemma setdefault_append_last (acc : catalog) (k : string) (l : list string)
  (s : string) :
  ~ In k (map fst acc) ->
  setdefault_append (acc ++ [(k, l)]) k s = acc ++ [(k, l ++ [s])].
Proof.
  induction acc as [|[k' l'] acc IH]; simpl; intros Hk.
  - now rewrite String.eqb_refl.
  - destruct (String.eqb k' k) eqn:E.
    + apply String.eqb_eq in E. tauto.
    + rewrite IH by tauto. reflexivity.
Qed.

Lemma fold_one_env_more (acc : catalog) (k : string) (l : list string) :
  ~ In k (map fst acc) ->
  forall l0 : list string,
    fold_left (fun c p => setdefault_append c (fst p) (snd p))
              (map (fun seq => (k, seq)) l) (acc ++ [(k, l0)]) =
    acc ++ [(k, l0 ++ l)].
Proof.
  intros Hk. induction l as [|s l IH]; intros l0; simpl.
  - now rewrite app_nil_r.
  - rewrite setdefault_append_last by assumption.
    rewrite IH. now rewrite <- app_assoc.
Qed.

(** The sequences of one environment, appended one after the other, make
    one entry at the end of the dictionary. *)
Lemma fold_one_env (acc : catalog) (k : string) (l : list string) :
  ~ In k (map fst acc) -> l <> [] ->
  fold_left (fun c p => setdefault_append c (fst p) (snd p))
            (map (fun seq => (k, seq)) l) acc =
  acc ++ [(k, l)].
Proof.
  intros Hk Hl. destruct l as [|s l]; [congruence|]. simpl.
  rewrite setdefault_append_new by assumption.
  now rewrite fold_one_env_more.
Qed.

(** Listing the pairs of a catalog and building a catalog from them gives
    the catalog back, when no environment is there twice or empty. *)
Lemma build_from_catalog (c : catalog) :
  forall acc : catalog,
    NoDup (map fst (acc ++ c)) -> Forall (fun kv => snd kv <> []) c ->
    fold_left (fun c p => setdefault_append c (fst p) (snd p)) (entries c) acc =
    acc ++ c.
Proof.
  induction c as [|[k l] c IH]; intros acc Hnd Hne.
  - simpl. now rewrite app_nil_r.
  - inversion Hne as [|? ? Hl Hne']; subst. simpl in Hl.
    unfold entries. simpl. rewrite fold_left_app.
    rewrite fold_one_env; [|
      rewrite map_app in Hnd; simpl in Hnd;
      apply NoDup_remove_2 in Hnd; intros Hin; apply Hnd;
      apply in_or_app; now left|assumption].
    fold (entries c). rewrite IH; [now rewrite <- app_assoc| |assumption].
    now rewrite <- app_assoc.
Qed.

Lemma build_seqs_round_trip (c : catalog) :
  dict_ok c -> Forall (fun kv => snd kv <> []) c ->
  build_seqs (catalog_env_seqs c) = c.
Proof.
  intros Hok Hne. rewrite catalog_env_seqs_entries by assumption.
  unfold build_seqs. fold (entries c). now rewrite build_from_catalog.
Qed.

Lemma sublist_In {A : Type} (l1 l2 : list A) (x : A) :
  sublist l1 l2 -> In x l1 -> In x l2.
Proof.
  induction 1 as [|y l1 l2 _ IH|y l1 l2 _ IH]; simpl; intros Hin.
  - assumption.
  - right. now apply IH.
  - destruct Hin as [->|Hin]; [now left|right; now apply IH].
Qed.

Lemma sublist_NoDup {A : Type} (l1 l2 : list A) :
  sublist l1 l2 -> NoDup l2 -> NoDup l1.
Proof.
  induction 1 as [|y l1 l2 Hs IH|y l1 l2 Hs IH]; intros Hnd.
  - constructor.
  - inversion Hnd; subst. now apply IH.
  - inversion Hnd as [|? ? Hy Hnd']; subst. constructor; [|now apply IH].
    intros Hin. apply Hy. now apply (@sublist_In _ l1 l2 y Hs).
Qed.

Lemma sublist_app_inv {A : Type} (l1 l2 : list A) :
  forall t : list A,
    sublist t (l1 ++ l2) ->
    exists t1 t2, t = t1 ++ t2 /\ sublist t1 l1 /\ sublist t2 l2.
Proof.
  induction l1 as [|x l1 IH]; intros t Ht; simpl in Ht.
  - exists [], t. repeat split; [constructor|assumption].
  - inversion Ht as [|? ? ? Ht'|? t' ? Ht']; subst.
    + destruct (IH _ Ht') as (t1 & t2 & -> & H1 & H2).
      exists t1, t2. repeat split; [now constructor|assumption].
    + destruct (IH _ Ht') as (t1 & t2 & -> & H1 & H2).
      exists (x :: t1), t2. repeat split; [now constructor|assumption].
Qed.

Lemma sublist_map_inv {A B : Type} (f : A -> B) (l : list A) :
  forall t : list B,
    sublist t (map f l) -> exists l1, t = map f l1 /\ sublist l1 l.
Proof.
  induction l as [|x l IH]; intros t Ht; simpl in Ht.
  - inversion Ht; subst. exists []. split; [reflexivity|constructor].
  - inversion Ht as [|? ? ? Ht'|? t' ? Ht']; subst.
    + destruct (IH _ Ht') as (l1 & -> & H1). exists l1.
      split; [reflexivity|now constructor].
    + destruct (IH _ Ht') as (l1 & -> & H1). exists (x :: l1).
      split; [reflexivity|now constructor].
Qed.

(** A sublist of the pairs of a catalog is the list of pairs of a catalog
    with some of its environments, none of them empty. *)
Lemma sublist_entries (c : catalog) :
  forall tk : list (string * string),
    sublist tk (entries c) ->
    exists c',
      tk = entries c' /\ Forall (fun kv => snd kv <> []) c' /\
      sublist (map fst c') (map fst c).
Proof.
  induction c as [|[k l] c IH]; intros tk Htk.
  - inversion Htk; subst. exists []. repeat split; constructor.
  - unfold entries in Htk. simpl in Htk. apply sublist_app_inv in Htk.
    destruct Htk as (t1 & t2 & -> & H1 & H2).
    apply sublist_map_inv in H1. destruct H1 as (l1 & -> & _).
    destruct (IH _ H2) as (c' & -> & Hne & Hkeys).
    destruct l1 as [|s l1].
    + exists c'. repeat split; [assumption|now constructor].
    + exists ((k, s :: l1) :: c'). repeat split.
      * constructor; [discriminate|assumption].
      * simpl. now constructor.
Qed.

(** The catalog built from a sublist of the pairs of a catalog lists that
    sublist. *)
Lemma build_seqs_sublist (c : catalog) (tk : list (string * string)) :
  dict_ok c -> sublist tk (catalog_env_seqs c) ->
  catalog_env_seqs (build_seqs tk) = tk.
Proof.
  intros Hok Htk. rewrite catalog_env_seqs_entries in Htk by assumption.
  fold (entries c) in Htk.
  destruct (@sublist_entries c tk Htk) as (c' & -> & Hne & Hkeys).
  assert (Hok' : dict_ok c')
    by (apply (@sublist_NoDup _ (map fst c') (map fst c) Hkeys), Hok).
  unfold build_seqs. rewrite build_from_catalog; [|assumption..].
  simpl. now apply catalog_env_seqs_entries.
Qed.

Lemma setdefault_append_nonempty (c : catalog) (env seq : string) :
  Forall (fun kv => snd kv <> []) c ->
  Forall (fun kv => snd kv <> []) (setdefault_append c env seq).
Proof.
  induction 1 as [|[k l] c Hl Hc IH]; simpl.
  - constructor; [discriminate|constructor].
  - destruct (String.eqb k env); constructor; try assumption.
    simpl. intros H. apply app_eq_nil in H. destruct H. discriminate.
Qed.

(** No list of a built catalog is empty. *)
Lemma build_seqs_nonempty (pairs : list (string * string)) :
  Forall (fun kv => snd kv <> []) (build_seqs pairs).
Proof.
  unfold build_seqs.
  assert (H : forall c : catalog,
             Forall (fun kv => snd kv <> []) c ->
             Forall (fun kv => snd kv <> [])
                    (fold_left (fun c p => setdefault_append c (fst p) (snd p))
                               pairs c)).
  { induction pairs as [|p pairs IH]; simpl; intros c Hc; [assumption|].
    apply IH. now apply setdefault_append_nonempty. }
  apply H. constructor.
Qed.

Lemma NoDup_concat_piece {A : Type} (L : list (list A)) (p : list A) :
  NoDup (concat L) -> In p L -> NoDup p.
Proof.
  induction L as [|q L IH]; simpl; intros Hnd Hin; [destruct Hin|].
  destruct Hin as [->|Hin].
  - now apply NoDup_app_remove_r in Hnd.
  - apply IH; [|assumption]. now apply NoDup_app_remove_l in Hnd.
Qed.

(** ** Random split: shape and order of the subsets *)

(** X10. The subsets of [rand_split] are datasets like their parent: each
    has the parent's root and hooks, and a catalog in which every
    environment has at least one sequence (and is there once), whatever
    the parent's catalog looks like. *)
Theorem rand_split_subsets_well_formed :
  forall (rng_permutation : Z -> nat -> list nat),
    (forall (seed : Z) (n : nat),
        Permutation (rng_permutation seed n) (seq 0 n)) ->
    forall (self : DatasetBase) (ratio : list Q) (seed : Z),
      Forall (fun r => (0 <= r)%Q) ratio ->
      (0 < qsum ratio)%Q ->
      exists subsets,
        rand_split rng_permutation self ratio seed = Ok subsets /\
        Forall (fun s =>
                  Forall (fun kv => snd kv <> []) (seqs s) /\
                  dict_ok (seqs s) /\
                  path_prefix s = path_prefix self /\
                  get_size s = get_size self /\
                  getitem_impl s = getitem_impl self)
               subsets.
Proof.
  intros rp Hperm self ratio seed Hr Hs.
  destruct (rand_split_pieces rp Hperm self seed Hr Hs) as (Hrun & _ & _).
  eexists. split; [exact Hrun|].
  apply Forall_forall. intros s Hin. apply in_map_iff in Hin.
  destruct Hin as (piece & <- & _). simpl.
  split; [apply build_seqs_nonempty|].
  split; [apply build_seqs_pairs|]. now repeat split.
Qed.

Lemma rand_split_subsets_well_formed_witness :
  Forall (fun r => (0 <= r)%Q) [7 # 10; 3 # 10]%Q /\
  (0 < qsum [7 # 10; 3 # 10])%Q /\
  exists subsets,
    rand_split rev_permutation five_seqs [7 # 10; 3 # 10]%Q 42 = Ok subsets /\
    Forall (fun s =>
              Forall (fun kv => snd kv <> []) (seqs s) /\
              dict_ok (seqs s) /\
              path_prefix s = path_prefix five_seqs /\
              get_size s = get_size five_seqs /\
              getitem_impl s = getitem_impl five_seqs)
           subsets.
Proof.
  assert (Hr : Forall (fun r => (0 <= r)%Q) [7 # 10; 3 # 10]%Q)
    by (repeat constructor; discriminate).
  assert (Hs : (0 < qsum [7 # 10; 3 # 10])%Q) by reflexivity.
  split; [exact Hr|]. split; [exact Hs|].
  exact (@rand_split_subsets_well_formed rev_permutation rev_permutation_perm
           five_seqs [7 # 10; 3 # 10]%Q 42 Hr Hs).
Defined.

(** X11. A subset lists its pairs in the order of the parent: for a
    parent catalog with one entry for each environment, the pairs of
    every subset are the parent's pairs with some left out, the others in
    the parent's order (the permutation only chooses, the sort puts the
    choice back in order). *)
Theorem rand_split_keeps_order :
  forall (rng_permutation : Z -> nat -> list nat),
    (forall (seed : Z) (n : nat),
        Permutation (rng_permutation seed n) (seq 0 n)) ->
    forall (self : DatasetBase) (ratio : list Q) (seed : Z),
      dict_ok (seqs self) ->
      Forall (fun r => (0 <= r)%Q) ratio ->
      (0 < qsum ratio)%Q ->
      exists subsets,
        rand_split rng_permutation self ratio seed = Ok subsets /\
        Forall (fun s => sublist (get_env_seqs s) (get_env_seqs self)) subsets.
Proof.
  intros rp Hperm self ratio seed Hok Hr Hs.
  destruct (rand_split_pieces rp Hperm self seed Hr Hs) as (Hrun & Hcat & _).
  eexists. split; [exact Hrun|].
  apply Forall_forall. intros s Hin. apply in_map_iff in Hin.
  destruct Hin as (piece & <- & Hpiece).
  set (total := length (get_env_seqs self)) in *.
  assert (Hnd : NoDup piece).
  { apply NoDup_concat_piece with (2 := Hpiece). rewrite Hcat.
    apply (Permutation_NoDup (Permutation_sym (Hperm seed total))),
      seq_NoDup. }
  assert (Hsub : sublist (taken self piece) (get_env_seqs self)).
  { unfold taken. apply sublist_map_nth; [now apply sorted_increasing|].
    apply Forall_forall. intros i Hi.
    apply (Permutation_in _ (sorted_perm piece)) in Hi.
    assert (Hp : In i (rp seed total))
      by (rewrite <- Hcat; apply in_concat; eauto).
    apply (Permutation_in _ (Hperm seed total)) in Hp.
    apply in_seq in Hp. fold total. lia. }
  unfold get_env_seqs at 1. simpl.
  now rewrite (@build_seqs_sublist (seqs self) (taken self piece) Hok Hsub).
Qed.

Lemma rand_split_keeps_order_witness :
  dict_ok (seqs five_seqs) /\
  exists subsets,
    rand_split rev_permutation five_seqs [7 # 10; 3 # 10]%Q 42 = Ok subsets /\
    Forall (fun s => sublist (get_env_seqs s) (get_env_seqs five_seqs)) subsets.
Proof.
  assert (Hok : dict_ok (seqs five_seqs))
    by (repeat constructor; simpl; intuition discriminate).
  split; [exact Hok|].
  apply (@rand_split_keeps_order rev_permutation rev_permutation_perm
           five_seqs [7 # 10; 3 # 10]%Q 42 Hok).
  - repeat constructor; discriminate.
  - reflexivity.
Defined.

(** X12. Splitting into one part gives the whole dataset back: with a
    single positive ratio, [rand_split] returns one subset, with the
    parent's root and hooks and a catalog equal to the parent's (same
    environments, same sequences, same order), when the parent's catalog
    has no empty environment. Listing the pairs and rebuilding the
    catalog with [setdefault] and [append] is a round trip. *)
Theorem rand_split_single_ratio :
  forall (rng_permutation : Z -> nat -> list nat),
    (forall (seed : Z) (n : nat),
        Permutation (rng_permutation seed n) (seq 0 n)) ->
    forall (self : DatasetBase) (r : Q) (seed : Z),
      (0 < r)%Q ->
      dict_ok (seqs self) ->
      Forall (fun kv => snd kv <> []) (seqs self) ->
      build_seqs (get_env_seqs self) = seqs self /\
      rand_split rng_permutation self [r] seed = Ok [self].
Proof.
  intros rp Hperm self r seed Hpos Hok Hne.
  assert (Hround : build_seqs (get_env_seqs self) = seqs self)
    by now apply build_seqs_round_trip.
  split; [exact Hround|].
  assert (Hr : Forall (fun r => (0 <= r)%Q) [r])
    by (constructor; [lra|constructor]).
  assert (Hs : (0 < qsum [r])%Q) by (unfold qsum; simpl; lra).
  destruct (rand_split_pieces rp Hperm self seed Hr Hs) as (Hrun & Hcat & Hlen).
  rewrite Hrun. clear Hrun.
  set (total := length (get_env_seqs self)) in *.
  remember (np_split (rp seed total) (split_idx [r] total)) as pieces.
  destruct pieces as [|piece [|]]; try discriminate.
  simpl in Hcat. rewrite app_nil_r in Hcat. subst piece. simpl.
  do 2 f_equal. unfold taken.
  rewrite (@sorted_permutation (rp seed total) total (Hperm seed total)).
  unfold total. rewrite map_nth_seq, Hround. apply with_seqs_same.
Qed.

Lemma rand_split_single_ratio_witness :
  (0 < 1)%Q /\
  build_seqs (get_env_seqs five_seqs) = seqs five_seqs /\
  rand_split rev_permutation five_seqs [1%Q] 42 = Ok [five_seqs].
Proof.
  split; [reflexivity|].
  apply (@rand_split_single_ratio rev_permutation rev_permutation_perm
           five_seqs 1%Q 42).
  - reflexivity.
  - repeat constructor; simpl; intuition discriminate.
  - repeat constructor; discriminate.
Defined.

(** ** Identifiers of sequences *)

Lemma append_underscore_inj (e1 : string) :
  forall e2 s1 s2 : string,
    has_underscore e1 = false -> has_underscore e2 = false ->
    (e1 ++ String "_"%char s1)%string = (e2 ++ String "_"%char s2)%string ->
    e1 = e2 /\ s1 = s2.
Proof.
  induction e1 as [|c1 e1 IH]; intros [|c2 e2] s1 s2 H1 H2 Heq;
    simpl in *.
  - injection Heq as ->. now split.
  - injection Heq as <- _. now rewrite Ascii.eqb_refl in H2.
  - injection Heq as -> _. now rewrite Ascii.eqb_refl in H1.
  - injection Heq as -> Heq.
    apply orb_false_iff in H1. apply orb_false_iff in H2.
    destruct (IH e2 s1 s2) as [-> ->]; tauto.
Qed.

(** X13. When do two pairs have the same identifier. [get_seq_id] tells
    apart all pairs whose environment names hold no underscore: equal
    identifiers then mean equal environments and equal sequences. With an
    underscore in an environment name two different pairs can share one
    identifier, and [include_exclude], which tests the identifier, treats
    them alike. *)
Theorem get_seq_id_injective_without_underscore :
  (forall env1 seq1 env2 seq2 : string,
      has_underscore env1 = false -> has_underscore env2 = false ->
      get_seq_id env1 seq1 = get_seq_id env2 seq2 ->
      env1 = env2 /\ seq1 = seq2) /\
  (get_seq_id "a_b" "c" = get_seq_id "a" "b_c" /\
   ("a_b", "c") <> ("a", "b_c")) /\
  (forall (pattern : Type) (re_search : pattern -> string -> bool)
          (incl excl : option pattern) (p q : string * string),
      get_seq_id (fst p) (snd p) = get_seq_id (fst q) (snd q) ->
      stays re_search incl excl p = stays re_search incl excl q).
Proof.
  split; [|split].
  - intros env1 seq1 env2 seq2 H1 H2 Heq. unfold get_seq_id in Heq.
    now apply append_underscore_inj.
  - split; [reflexivity|discriminate].
  - intros pattern re_search incl excl p q Heq. unfold stays.
    now rewrite Heq.
Qed.

Lemma get_seq_id_injective_without_underscore_witness :
  has_underscore "envA" = false /\
  has_underscore "envB" = false /\
  get_seq_id "envA" "s1" <> get_seq_id "envB" "s1".
Proof.
  split; [reflexivity|]. split; [reflexivity|]. intros Heq.
  apply (proj1 get_seq_id_injective_without_underscore) in Heq;
    [|reflexivity..].
  destruct Heq as [Heq _]. discriminate Heq.
Defined.

(** ** Item access after filtering and splitting *)

Lemma dict_mem_get (c : catalog) (k : string) :
  dict_mem c k = true -> exists l, dict_get c k = Ok l.
Proof.
  intros H. apply dict_mem_In in H.
  induction c as [|[k' l'] c IH]; simpl in *; [destruct H|].
  destruct (String.eqb k' k) eqn:E; [eauto|].
  destruct H as [->|H]; [now rewrite String.eqb_refl in E|auto].
Qed.

(** Two datasets with the same hooks fetch the same for a pair that both
    list. *)
Lemma getitem_same_hooks (self self' : DatasetBase) (env seq : string)
  (idx : Z) (log : list hook_call) :
  get_size self' = get_size self ->
  getitem_impl self' = getitem_impl self ->
  In (env, seq) (get_env_seqs self) ->
  In (env, seq) (get_env_seqs self') ->
  getitem self' (env, seq, idx) log = getitem self (env, seq, idx) log.
Proof.
  intros Hsize Himpl H H'.
  apply env_seqs_lookup in H. destruct H as (Hm & l & Hl & Hs).
  apply env_seqs_lookup in H'. destruct H' as (Hm' & l' & Hl' & Hs').
  apply list_mem_In in Hs, Hs'. unfold getitem, seqs in *.
  now rewrite Hm, Hm', Hl, Hl', Hs, Hs', Hsize, Himpl.
Qed.

(** A pair that is not listed is refused by one of the first two
    assertions, before any hook is called. *)
Lemma getitem_unlisted (self : DatasetBase) (env seq : string) (idx : Z)
  (log : list hook_call) :
  ~ In (env, seq) (get_env_seqs self) ->
  exists msg,
    getitem self (env, seq, idx) log = (Raise (AssertionError msg), log) /\
    (msg = NoSuchEnvironment env \/ msg = NoSuchSequence env seq).
Proof.
  intros Hnot. unfold get_env_seqs in Hnot. rewrite env_seqs_lookup in Hnot.
  unfold getitem.
  destruct (dict_mem (seqs self) env) eqn:Hm; simpl; [|eauto].
  destruct (dict_mem_get _ _ Hm) as [l Hl]. rewrite Hl.
  destruct (list_mem l seq) eqn:Hs; simpl; [|eauto].
  exfalso. apply Hnot. split; [reflexivity|]. exists l.
  split; [assumption|]. now apply list_mem_In.
Qed.

(** X14. Item access after [include_exclude]: for a pair of the catalog
    that the filter keeps, [__getitem__] does after the call what it did
    before (same value or exception, same hook calls); for a pair that
    the filter rejects it raises [AssertionError], for a missing
    environment or a missing sequence, and calls no hook. *)
Theorem include_exclude_then_getitem :
  forall (pattern : Type) (re_compile : string -> result pattern)
         (re_search : pattern -> string -> bool) (self : DatasetBase)
         (include exclude : option string) (incl excl : option pattern),
    dict_ok (seqs self) ->
    compile_opt re_compile include = Ok incl ->
    compile_opt re_compile exclude = Ok excl ->
    exists self',
      include_exclude re_compile re_search self include exclude = Ok self' /\
      forall env seq idx log,
        In (env, seq) (get_env_seqs self) ->
        (stays re_search incl excl (env, seq) = true ->
         getitem self' (env, seq, idx) log =
           getitem self (env, seq, idx) log) /\
        (stays re_search incl excl (env, seq) = false ->
         exists msg,
           getitem self' (env, seq, idx) log =
             (Raise (AssertionError msg), log) /\
           (msg = NoSuchEnvironment env \/ msg = NoSuchSequence env seq)).
Proof.
  intros pattern re_compile re_search self include exclude incl excl
         Hok Hincl Hexcl.
  exists (with_seqs self (filtered re_search incl excl (seqs self))).
  split; [now apply include_exclude_closed|].
  assert (Hpairs :
            get_env_seqs
              (with_seqs self (filtered re_search incl excl (seqs self))) =
            filter (stays re_search incl excl) (get_env_seqs self)).
  { unfold get_env_seqs. simpl.
    rewrite !catalog_env_seqs_entries
      by (try apply filtered_dict_ok; assumption).
    apply entries_filtered. }
  intros env seq idx log Hin. split; intros Hst.
  - apply getitem_same_hooks; [reflexivity|reflexivity|assumption|].
    rewrite Hpairs. apply filter_In. now split.
  - apply getitem_unlisted. rewrite Hpairs. intros H.
    apply filter_In in H. destruct H as [_ H]. congruence.
Qed.

Lemma include_exclude_then_getitem_witness :
  exists self',
    include_exclude (fun s => Ok s) literal_search scenario
                    None (Some "s2") = Ok self' /\
    getitem self' ("envA", "s1", 4) [] = getitem scenario ("envA", "s1", 4) [] /\
    getitem self' ("envA", "s2", 0) [] =
      (Raise (AssertionError (NoSuchSequence "envA" "s2")), []).
Proof.
  destruct (@include_exclude_then_getitem string (fun s => Ok s)
              literal_search scenario None (Some "s2") None (Some "s2"))
    as (self' & Hcall & Hget).
  - repeat constructor; simpl; intuition discriminate.
  - reflexivity.
  - reflexivity.
  - exists self'. split; [exact Hcall|]. split.
    + apply (Hget "envA" "s1" 4 []); [simpl; auto|reflexivity].
    + vm_compute in Hcall. injection Hcall as <-. reflexivity.
Defined.

(** X15. Item access on the subsets of [rand_split]: every pair of the
    parent is listed by one of the subsets; for a pair it lists, a subset
    fetches what the parent fetches (same value or exception, same hook
    calls); for every other pair it raises [AssertionError], for a missing
    environment or a missing sequence, and calls no hook. *)
Theorem rand_split_then_getitem :
  forall (rng_permutation : Z -> nat -> list nat),
    (forall (seed : Z) (n : nat),
        Permutation (rng_permutation seed n) (seq 0 n)) ->
    forall (self : DatasetBase) (ratio : list Q) (seed : Z),
      Forall (fun r => (0 <= r)%Q) ratio ->
      (0 < qsum ratio)%Q ->
      exists subsets,
        rand_split rng_permutation self ratio seed = Ok subsets /\
        (forall env seq,
            In (env, seq) (get_env_seqs self) ->
            exists s, In s subsets /\ In (env, seq) (get_env_seqs s)) /\
        (forall s env seq idx log,
            In s subsets ->
            (In (env, seq) (get_env_seqs s) ->
             In (env, seq) (get_env_seqs self) /\
             getitem s (env, seq, idx) log =
               getitem self (env, seq, idx) log) /\
            (~ In (env, seq) (get_env_seqs s) ->
             exists msg,
               getitem s (env, seq, idx) log =
                 (Raise (AssertionError msg), log) /\
               (msg = NoSuchEnvironment env \/
                msg = NoSuchSequence env seq))).
Proof.
  intros rp Hperm self ratio seed Hr Hs.
  destruct (rand_split_pieces rp Hperm self seed Hr Hs) as (Hrun & Hcat & _).
  pose proof (taken_all rp Hperm self _ seed Hcat) as Hall.
  set (pieces := np_split (rp seed (length (get_env_seqs self)))
                          (split_idx ratio (length (get_env_seqs self)))) in *.
  assert (Hsub : forall piece p,
             In p (get_env_seqs (with_seqs self (build_seqs (taken self piece))))
             <-> In p (taken self piece)).
  { intros piece p. unfold get_env_seqs. simpl.
    destruct (build_seqs_pairs (taken self piece)) as [_ Hp].
    split; apply Permutation_in; [assumption|now apply Permutation_sym]. }
  eexists. split; [exact Hrun|]. split.
  - intros env seq Hin.
    apply (Permutation_in _ (Permutation_sym Hall)) in Hin.
    apply in_concat in Hin. destruct Hin as (tk & Htk & Hin).
    apply in_map_iff in Htk. destruct Htk as (piece & <- & Hpiece).
    exists (with_seqs self (build_seqs (taken self piece))).
    split; [apply in_map_iff; eauto|now apply Hsub].
  - intros s env seq idx log Hin. apply in_map_iff in Hin.
    destruct Hin as (piece & <- & Hpiece). split.
    + intros Hlisted.
      assert (Hparent : In (env, seq) (get_env_seqs self)).
      { apply (Permutation_in _ Hall). apply in_concat.
        exists (taken self piece). split; [now apply in_map|].
        now apply Hsub. }
      split; [assumption|]. now apply getitem_same_hooks.
    + apply getitem_unlisted.
Qed.

Lemma rand_split_then_getitem_witness :
  Forall (fun r => (0 <= r)%Q) [7 # 10; 3 # 10]%Q /\
  (0 < qsum [7 # 10; 3 # 10])%Q /\
  exists subsets,
    rand_split rev_permutation five_seqs [7 # 10; 3 # 10]%Q 42 = Ok subsets /\
    exists s, In s subsets /\ In ("envB", "s4") (get_env_seqs s).
Proof.
  assert (Hr : Forall (fun r => (0 <= r)%Q) [7 # 10; 3 # 10]%Q)
    by (repeat constructor; discriminate).
  assert (Hs : (0 < qsum [7 # 10; 3 # 10])%Q) by reflexivity.
  split; [exact Hr|]. split; [exact Hs|].
  destruct (@rand_split_then_getitem rev_permutation rev_permutation_perm
              five_seqs [7 # 10; 3 # 10]%Q 42 Hr Hs)
    as (subsets & Hrun & Hcover & _).
  exists subsets. split; [exact Hrun|].
  apply Hcover. simpl. auto 10.
Defined.

(** ** The hooks of the base class *)

(** X16. What the hooks of the base class make of item access and of the
    sampler. On an instance that overrides neither [get_size] nor
    [getitem_impl], [__getitem__] raises [NotImplementedError] for a
    listed pair and a frame that is not negative, after asking [get_size]
    and before [getitem_impl]; a negative frame is still refused by the
    assertion, before any hook. [DefaultSampler] raises
    [NotImplementedError] as soon as the catalog lists a pair, and
    returns a sampler without batches when it lists none. *)
Theorem base_class_hooks_are_abstract :
  forall (rng : Type)
         (np_random_shuffle : forall A : Type, list A -> rng -> list A * rng),
    (forall (A : Type) (l : list A) (g : rng),
        Permutation l (fst (np_random_shuffle A l g))) ->
    forall (root : string) (c : catalog),
      let self := base_dataset root c in
      (forall env seq idx log,
          In (env, seq) (get_env_seqs self) ->
          (0 <= idx ->
           getitem self (env, seq, idx) log =
             (Raise NotImplementedError, log ++ [CallGetSize env seq])) /\
          (idx < 0 ->
           getitem self (env, seq, idx) log =
             (Raise (AssertionError (IndexOutOfBound env seq idx)), log))) /\
      (forall B m overlap g,
          (get_env_seqs self <> [] ->
           DefaultSampler_init np_random_shuffle self B m overlap g =
             Raise NotImplementedError) /\
          (get_env_seqs self = [] ->
           exists sampler g',
             DefaultSampler_init np_random_shuffle self B m overlap g =
               Ok (sampler, g') /\
             DefaultSampler_iter sampler = [] /\
             DefaultSampler_len sampler = 0)).
Proof.
  intros rng np_random_shuffle Hperm root c self. split.
  - intros env seq idx log Hin. apply env_seqs_lookup in Hin.
    destruct Hin as (Hm & l & Hl & Hs). apply list_mem_In in Hs.
    unfold getitem. simpl in *. rewrite Hm, Hl, Hs. simpl. split; intros H.
    + destruct (idx <? 0) eqn:E; [lia|reflexivity].
    + destruct (idx <? 0) eqn:E; [reflexivity|lia].
  - intros B m overlap g. split.
    + intros Hne. unfold DefaultSampler_init, get_seq_sizes.
      destruct (get_env_seqs self) as [|p pairs]; [congruence|reflexivity].
    + intros Hnil. unfold DefaultSampler_init, get_seq_sizes.
      rewrite Hnil. simpl.
      pose proof (@shuffle_if_perm rng np_random_shuffle Hperm _ (is_seq m)
                    (@nil (string * string * Z)) g) as Hp.
      destruct (shuffle_if np_random_shuffle (is_seq m) [] g) as [sizes' g1].
      simpl in Hp. apply Permutation_nil in Hp. subst sizes'. simpl.
      assert (Hb : exists g3,
                 (if is_env_or_all m
                  then regroup np_random_shuffle
                         (groupby (fun b : triple => fst (fst b)) []) B g1
                  else (@nil (list (option triple)), g1)) = ([], g3))
        by (destruct (is_env_or_all m); simpl; eauto).
      destruct Hb as [g3 Hb]. simpl in Hb. rewrite Hb.
      pose proof (@shuffle_if_perm rng np_random_shuffle Hperm _ (is_all m)
                    (@nil (list (option triple))) g3) as Hp'.
      destruct (shuffle_if np_random_shuffle (is_all m) [] g3) as [bl g4].
      simpl in Hp'. apply Permutation_nil in Hp'. subst bl.
      eexists _, _. split; [reflexivity|]. now split.
Qed.

Lemma base_class_hooks_are_abstract_witness :
  getitem (base_dataset "/data" [("envA", ["s1"])]) ("envA", "s1", 0) [] =
    (Raise NotImplementedError, [CallGetSize "envA" "s1"]) /\
  DefaultSampler_init rev_shuffle (base_dataset "/data" [("envA", ["s1"])])
                      2 ShuffleAll true tt =
    Raise NotImplementedError.
Proof.
  destruct (@base_class_hooks_are_abstract unit rev_shuffle rev_shuffle_perm
              "/data" [("envA", ["s1"])]) as [Hget Hinit].
  split.
  - apply (Hget "envA" "s1" 0 []); [simpl; auto|lia].
  - apply (Hinit 2 ShuffleAll true tt). discriminate.
Defined.

(** ** Construction and the catalog cache *)

Lemma getattr_setattr_same (d : instance_dict) (k : string) (v : attr_value) :
  getattr (setattr d k v) k = Ok v.
Proof.
  induction d as [|[k' x] d IH]; simpl.
  - now rewrite String.eqb_refl.
  - destruct (String.eqb k' k) eqn:E; simpl; rewrite E; auto.
Qed.

Lemma getattr_setattr_other (d : instance_dict) (k a : string)
  (v : attr_value) :
  a <> k -> getattr (setattr d k v) a = getattr d a.
Proof.
  intros Hne. induction d as [|[k' x] d IH]; simpl.
  - destruct (String.eqb k a) eqn:E; [|reflexivity].
    apply String.eqb_eq in E. congruence.
  - destruct (String.eqb k' k) eqn:E; simpl.
    + apply String.eqb_eq in E. subst k'.
      destruct (String.eqb k a) eqn:E'; [|reflexivity].
      apply String.eqb_eq in E'. congruence.
    + now rewrite IH.
Qed.

Lemma setattr_keys (d : instance_dict) (k a : string) (v : attr_value) :
  In a (map fst (setattr d k v)) -> a = k \/ In a (map fst d).
Proof.
  induction d as [|[k' x] d IH]; simpl.
  - intros [<-|[]]. now left.
  - destruct (String.eqb k' k); simpl; intros [<-|H]; auto.
    destruct (IH H); auto.
Qed.

Lemma setattr_NoDup (d : instance_dict) (k : string) (v : attr_value) :
  NoDup (map fst d) -> NoDup (map fst (setattr d k v)).
Proof.
  induction d as [|[k' x] d IH]; simpl; intros Hnd.
  - repeat constructor. intros [].
  - inversion Hnd as [|? ? Hk Hnd']; subst.
    destruct (String.eqb k' k) eqn:E; simpl; [now constructor|].
    constructor; [|now apply IH]. intros Hin.
    apply setattr_keys in Hin. destruct Hin as [->|Hin]; [|tauto].
    now rewrite String.eqb_refl in E.
Qed.

Lemma getattr_absent (d : instance_dict) (a : string) :
  ~ In a (map fst d) -> getattr d a = Raise (AttributeError a).
Proof.
  induction d as [|[k x] d IH]; simpl; intros Hn; [reflexivity|].
  destruct (String.eqb k a) eqn:E; [|apply IH; tauto].
  apply String.eqb_eq in E. tauto.
Qed.

(** The state dictionary holds, under each name asked for, the value of
    the attribute. *)
Lemma state_dict_of_holds (self : instance_dict) (names : list string) :
  forall d0 d : instance_dict,
    state_dict_of self names d0 = Ok d ->
    NoDup (map fst d0) ->
    NoDup (map fst d) /\
    (forall a, In a names ->
               getattr d a = getattr self a /\ exists v, getattr self a = Ok v) /\
    (forall a, ~ In a names -> getattr d a = getattr d0 a).
Proof.
  induction names as [|n names IH]; intros d0 d Hd Hnd; simpl in Hd.
  - injection Hd as <-. split; [assumption|]. split; [intros a []|auto].
  - destruct (getattr self n) as [v|e] eqn:Hv; simpl in Hd; [|discriminate].
    destruct (IH _ _ Hd (@setattr_NoDup d0 n v Hnd)) as (Hnd' & Hin & Hout).
    split; [assumption|]. split.
    + intros a [<-|Ha]; [|now apply Hin].
      destruct (in_dec string_dec n names) as [Hn|Hn]; [now apply Hin|].
      rewrite (Hout n Hn), getattr_setattr_same, Hv. eauto.
    + intros a Ha. simpl in Ha.
      rewrite (Hout a) by tauto. apply getattr_setattr_other.
      intros ->. tauto.
Qed.

(** After the attributes of a state dictionary were set, an attribute
    has the value of the dictionary when the dictionary names it, and its
    value from before otherwise. *)
Lemma getattr_restore (d : instance_dict) :
  forall (self : instance_dict) (a : string),
    NoDup (map fst d) ->
    getattr (restore self d) a =
    match getattr d a with
    | Ok v => Ok v
    | Raise _ => getattr self a
    end.
Proof.
  unfold restore.
  induction d as [|[k v] d IH]; intros self a Hnd; simpl; [reflexivity|].
  inversion Hnd as [|? ? Hk Hnd']; subst. rewrite IH by assumption.
  destruct (String.eqb k a) eqn:E.
  - apply String.eqb_eq in E. subst a.
    rewrite (@getattr_absent d k Hk). apply getattr_setattr_same.
  - destruct (getattr d a); [reflexivity|].
    apply getattr_setattr_other. intros ->.
    now rewrite String.eqb_refl in E.
Qed.

Lemma files_dump_law (f : files) (p : string) (d : instance_dict) (f' : files) :
  files_dump f p d = Ok f' ->
  files_is_file f' p = true /\ files_load f' p = Ok d.
Proof.
  unfold files_dump, files_is_file. intros H. injection H as <-. simpl.
  now rewrite String.eqb_refl.
Qed.



Lemma getattr_present (d : instance_dict) (a : string) :
  In a (map fst d) -> exists v, getattr d a = Ok v.
Proof.
  induction d as [|[k x] d IH]; simpl; intros H; [destruct H|].
  destruct (String.eqb k a) eqn:E; [eauto|].
  destruct H as [->|H]; [now rewrite String.eqb_refl in E|auto].
Qed.

(** The first name without an attribute stops the making of the state
    dictionary. *)
Lemma state_dict_of_raises (self : instance_dict) (pre post : list string)
  (n : string) :
  Forall (fun a => In a (map fst self)) pre -> ~ In n (map fst self) ->
  forall d0 : instance_dict,
    state_dict_of self (pre ++ n :: post) d0 = Raise (AttributeError n).
Proof.
  intros Hpre Hn. induction Hpre as [|a pre Ha _ IH]; intros d0; simpl.
  - now rewrite (@getattr_absent self n Hn).
  - destruct (@getattr_present self a Ha) as [v ->]. simpl. apply IH.
Qed.



(** ** Random split: the sizes of a split in two *)

(** Rounding does not pass an integer bound. *)
Lemma np_round_le (x : Q) (n : Z) : (x <= inject_Z n)%Q -> np_round x <= n.
Proof.
  intros Hx. pose proof (np_round_near x) as [_ Hhi].
  destruct (Z_le_gt_dec (np_round x) n) as [H|H]; [assumption|exfalso].
  assert (H1 : n + 1 <= np_round x) by lia.
  rewrite Zle_Qle, inject_Z_plus in H1. change (inject_Z 1) with 1%Q in H1.
  lra.
Qed.

Lemma share_le_total (r s t : Q) :
  (0 <= r)%Q -> (r <= s)%Q -> (0 < s)%Q -> (0 <= t)%Q ->
  (r / s * t <= t)%Q.
Proof.
  intros Hr Hrs Hs Ht.
  assert (H1 : (r / s <= 1)%Q) by (apply Qle_shift_div_r; [assumption|lra]).
  assert (H2 : (r / s * t <= 1 * t)%Q) by now apply Qmult_le_compat_r.
  lra.
Qed.



(** ** The sampler: batch sizes that are not positive *)

Lemma regroup_nonpositive (rng : Type)
  (np_random_shuffle : forall A : Type, list A -> rng -> list A * rng)
  (groups : list (string * list triple)) (B : Z) :
  B <= 0 -> forall g : rng, fst (regroup np_random_shuffle groups B g) = [].
Proof.
  intros HB. induction groups as [|[k grp] groups IH]; intros g; simpl.
  - reflexivity.
  - destruct (np_random_shuffle triple grp g) as [grp' g1].
    specialize (IH g1).
    destruct (regroup np_random_shuffle groups B g1) as [more g2].
    simpl in *. subst more. unfold zip_longest_iter.
    destruct (B <=? 0) eqn:E; [reflexivity|lia].
Qed.

(** X20. What a batch size that is not positive gives (the constructor
    does not check it). With the regrouping of the modes env and all,
    every sampler built with a batch size of zero or less has no batch at
    all. With a batch size of zero, with overlap and without regrouping,
    the sampler of a dataset with known sizes has one empty batch for
    every frame of every pair, and no other. *)
Theorem nonpositive_batch_size :
  forall (rng : Type)
         (np_random_shuffle : forall A : Type, list A -> rng -> list A * rng),
    (forall (A : Type) (l : list A) (g : rng),
        Permutation l (fst (np_random_shuffle A l g))) ->
    forall (dataset : DatasetBase) (m : shuffle_mode) (g : rng),
      (forall B overlap sampler g',
          B <= 0 -> is_env_or_all m = true ->
          DefaultSampler_init np_random_shuffle dataset B m overlap g =
            Ok (sampler, g') ->
          DefaultSampler_iter sampler = []) /\
      (forall sizes,
          is_env_or_all m = false ->
          get_seq_sizes dataset = Ok sizes ->
          exists sampler g',
            DefaultSampler_init np_random_shuffle dataset 0 m true g =
              Ok (sampler, g') /\
            Forall (fun b => b = []) (DefaultSampler_iter sampler) /\
            DefaultSampler_len sampler =
              Z.of_nat (list_sum (map (fun p => Z.to_nat (snd p)) sizes))).
Proof.
  intros rng np_random_shuffle Hperm dataset m g. split.
  - intros B overlap sampler g' HB Hm Hinit.
    unfold DefaultSampler_init in Hinit.
    destruct (get_seq_sizes dataset) as [sizes|e]; simpl in Hinit;
      [|discriminate].
    destruct (shuffle_if np_random_shuffle (is_seq m) sizes g)
      as [sizes' g1].
    destruct (build_batches np_random_shuffle sizes' B m overlap g1)
      as [[bl g2]|e]; simpl in Hinit; [|discriminate].
    rewrite Hm in Hinit.
    pose proof (@regroup_nonpositive rng np_random_shuffle
                  (groupby (fun b : triple => fst (fst b)) (concat bl)) B HB g2)
      as Hre.
    destruct (regroup np_random_shuffle _ B g2) as [bl' g3].
    simpl in Hre. subst bl'.
    pose proof (@shuffle_if_perm rng np_random_shuffle Hperm _ (is_all m)
                  (@nil (list (option triple))) g3) as Hp.
    destruct (shuffle_if np_random_shuffle (is_all m) [] g3) as [bl'' g4].
    simpl in Hp. apply Permutation_nil in Hp. subst bl''.
    now injection Hinit as <- _.
  - intros sizes Hm Hsizes. unfold DefaultSampler_init.
    rewrite Hsizes. simpl.
    pose proof (@shuffle_if_perm rng np_random_shuffle Hperm _ (is_seq m)
                  sizes g) as Hp.
    destruct (shuffle_if np_random_shuffle (is_seq m) sizes g)
      as [sizes' g1].
    simpl in Hp.
    destruct (@build_batches_groups rng np_random_shuffle Hperm
                (fun es S => sliding_windows es S 0) 0 m true
                (fun es S => @seq_batches_overlap es S 0 (Z.le_refl 0))
                sizes' g1) as (groups & g2 & -> & HF & _).
    simpl. rewrite Hm.
    assert (Hall : is_all m = false) by (destruct m; auto; discriminate).
    rewrite Hall. simpl. eexists _, _. split; [reflexivity|].
    unfold DefaultSampler_iter, DefaultSampler_len. simpl.
    apply Forall2_perm_flat_map in HF. split.
    + apply Forall_forall. intros b Hb. apply in_map_iff in Hb.
      destruct Hb as (w & <- & Hw).
      apply (Permutation_in _ (Permutation_sym HF)) in Hw.
      apply in_flat_map in Hw. destruct Hw as (p & _ & Hw).
      unfold sliding_windows in Hw. apply in_map_iff in Hw.
      destruct Hw as (off & <- & _). reflexivity.
    + rewrite length_map, <- (Permutation_length HF), length_flat_map.
      f_equal. rewrite (Permutation_list_sum
                          (Permutation_map
                             (fun p : string * string * Z =>
                                Z.to_nat (snd p)) Hp)).
      f_equal. apply map_ext. intros p. unfold sliding_windows.
      rewrite length_map, length_seq. f_equal. lia.
Qed.

Lemma nonpositive_batch_size_witness :
  (exists sampler g',
      DefaultSampler_init rev_shuffle scenario 0 ShuffleAll true tt =
        Ok (sampler, g') /\
      DefaultSampler_iter sampler = []) /\
  exists sampler g',
    DefaultSampler_init rev_shuffle scenario 0 ShuffleBatch true tt =
      Ok (sampler, g') /\
    Forall (fun b => b = []) (DefaultSampler_iter sampler) /\
    DefaultSampler_len sampler = 18.
Proof.
  split.
  - eexists _, _. split; [reflexivity|].
    apply (proj1 (@nonpositive_batch_size unit rev_shuffle rev_shuffle_perm
                    scenario ShuffleAll tt)
                 0 true _ tt (Z.le_refl 0) eq_refl eq_refl).
  - apply (proj2 (@nonpositive_batch_size unit rev_shuffle rev_shuffle_perm
                    scenario ShuffleBatch tt)
                 [("envA", "s1", 5); ("envA", "s2", 3); ("envB", "s3", 10)]
                 eq_refl eq_refl).
Defined.

(** ** The sampler: without shuffling *)

Lemma build_batches_none (rng : Type)
  (np_random_shuffle : forall A : Type, list A -> rng -> list A * rng)
  (B : Z) (overlap : bool) (sizes : list ((string * string) * Z)) (g : rng) :
  build_batches np_random_shuffle sizes B ShuffleNone overlap g =
  let? ws := rmap (fun p => seq_batches (fst p) (snd p) B overlap) sizes in
  Ok (concat ws, g).
Proof.
  induction sizes as [|[es S] sizes IH]; simpl; [reflexivity|].
  destruct (seq_batches es S B overlap) as [ws|e]; simpl; [|reflexivity].
  rewrite IH. now destruct (rmap _ sizes).
Qed.

Lemma init_none (rng : Type)
  (np_random_shuffle : forall A : Type, list A -> rng -> list A * rng)
  (dataset : DatasetBase) (B : Z) (overlap : bool) (g : rng) :
  DefaultSampler_init np_random_shuffle dataset B ShuffleNone overlap g =
  let? sizes := get_seq_sizes dataset in
  let? ws := rmap (fun p => seq_batches (fst p) (snd p) B overlap) sizes in
  Ok ({| seq_sizes := sizes; bs := B;
         batches := map (map Some) (concat ws) |}, g).
Proof.
  unfold DefaultSampler_init.
  destruct (get_seq_sizes dataset) as [sizes|e]; simpl; [|reflexivity].
  rewrite build_batches_none. now destruct (rmap _ sizes).
Qed.

(** X21. A sampler that does not shuffle does not use [np.random]: for
    every value of [shuffle] other than the four modes, the constructor
    leaves the state of the generator as it was, and its outcome (the
    sampler or the exception) is the same whatever the generator and its
    state. *)
Theorem sampler_without_shuffle_ignores_generator :
  forall (rng1 rng2 : Type)
         (shuffle1 : forall A : Type, list A -> rng1 -> list A * rng1)
         (shuffle2 : forall A : Type, list A -> rng2 -> list A * rng2)
         (dataset : DatasetBase) (B : Z) (overlap : bool)
         (g1 : rng1) (g2 : rng2),
    match DefaultSampler_init shuffle1 dataset B ShuffleNone overlap g1,
          DefaultSampler_init shuffle2 dataset B ShuffleNone overlap g2 with
    | Ok (s1, g1'), Ok (s2, g2') => s1 = s2 /\ g1' = g1 /\ g2' = g2
    | Raise e1, Raise e2 => e1 = e2
    | _, _ => False
    end.
Proof.
  intros rng1 rng2 shuffle1 shuffle2 dataset B overlap g1 g2.
  rewrite !init_none.
  destruct (get_seq_sizes dataset) as [sizes|e]; simpl; [|reflexivity].
  destruct (rmap _ sizes) as [ws|e]; simpl; [|reflexivity].
  now repeat split.
Qed.

(** ** The sampler: batches of one environment follow each other *)

Lemma map_constant {A B : Type} (f : A -> B) (c : B) (l : list A) :
  Forall (fun x => f x = c) l -> map f l = repeat c (length l).
Proof.
  induction 1 as [|x l Hx _ IH]; simpl; [reflexivity|]. now rewrite Hx, IH.
Qed.

Lemma flat_map_repeat {A B : Type} (c : B) (n : A -> nat) (l : list A) :
  flat_map (fun x => repeat c (n x)) l = repeat c (list_sum (map n l)).
Proof.
  induction l as [|x l IH]; simpl; [reflexivity|].
  now rewrite IH, repeat_app.
Qed.

(** The environments of the groups of whole windows, each counted once
    for every window of the group, are the environments of the windows. *)
Lemma groupby_runs (n : nat) (W : list (list triple)) :
  (0 < n)%nat ->
  Forall (fun w => length w = n /\
                   exists k, Forall (fun t : triple => fst (fst t) = k) w) W ->
  flat_map (fun kg => repeat (Some (fst kg)) (length (snd kg) / n))
           (groupby (fun t : triple => fst (fst t)) (concat W)) =
  map (fun w => batch_env (map Some w)) W.
Proof.
  intros Hn HW.
  pose proof (groupby_blocks (fun t : triple => fst (fst t)) Hn HW) as Hb.
  induction HW as [|w W [Hlen [k Hk]] HW IH]; simpl; [reflexivity|].
  assert (Hw : batch_env (map Some w) = Some k).
  { destruct w as [|t w]; [simpl in Hlen; lia|].
    inversion Hk; subst. reflexivity. }
  rewrite Hw.
  assert (Hb' : Forall (fun kg : string * list triple =>
                          exists j, length (snd kg) = (j * n)%nat)
                       (groupby (fun t : triple => fst (fst t)) (concat W)))
    by (apply groupby_blocks; assumption).
  specialize (IH Hb'). clear Hb.
  rewrite (groupby_app_uniform (fun t : triple => fst (fst t)) (k := k));
    [|intros ->; simpl in Hlen; lia|assumption].
  destruct (groupby (fun t : triple => fst (fst t)) (concat W))
    as [|[k' g] gs].
  - simpl in *. rewrite <- IH, Hlen, Nat.div_same by lia. reflexivity.
  - pose proof (Forall_inv Hb') as [j Hj]. simpl in Hj.
    destruct (String.eqb k k') eqn:E.
    + apply String.eqb_eq in E. subst k'. simpl in *.
      rewrite <- IH, length_app, Hlen, Hj.
      replace (n + j * n)%nat with (S j * n)%nat by lia.
      rewrite !Nat.div_mul by lia. reflexivity.
    + simpl in *. rewrite <- IH, Hlen, Nat.div_same by lia. reflexivity.
Qed.

Lemma flat_map_flat_map {A B C : Type} (g : B -> list C) (h : A -> list B)
  (l : list A) :
  flat_map g (flat_map h l) = flat_map (fun x => flat_map g (h x)) l.
Proof.
  induction l as [|x l IH]; simpl; [reflexivity|].
  now rewrite flat_map_app, IH.
Qed.

Lemma flat_map_map {A B C : Type} (g : B -> list C) (f : A -> B)
  (l : list A) :
  flat_map g (map f l) = flat_map (fun x => g (f x)) l.
Proof.
  induction l as [|x l IH]; simpl; [reflexivity|]. now rewrite IH.
Qed.

(** The environments of the windows of the pairs, window after window. *)
Lemma windows_envs (B : Z) (overlap : bool)
  (ps : list ((string * string) * Z)) (groups : list (list (list triple))) :
  0 < B ->
  Forall2 (fun p grp => Permutation (windows_of (fst p) (snd p) B overlap) grp)
          ps groups ->
  map (fun w => batch_env (map Some w)) (concat groups) =
  flat_map (fun p => repeat (Some (fst (fst p))) (n_batches (snd p) B overlap))
           ps.
Proof.
  intros HB. induction 1 as [|[es S] grp ps groups Hp _ IH]; simpl;
    [reflexivity|].
  rewrite map_app, IH. f_equal. simpl in Hp.
  rewrite <- (length_windows_of es S B overlap), (Permutation_length Hp).
  apply map_constant. apply Forall_forall. intros w Hw.
  apply (Permutation_in _ (Permutation_sym Hp)) in Hw.
  apply windows_of_shape in Hw. destruct Hw as [Hlen Hes].
  destruct w as [|t w]; [simpl in Hlen; lia|].
  pose proof (Forall_inv Hes) as Ht. simpl. now rewrite Ht.
Qed.

Section SamplerEnvironments.

Variable rng : Type.
Variable np_random_shuffle : forall A : Type, list A -> rng -> list A * rng.

Hypothesis np_random_shuffle_perm :
  forall (A : Type) (l : list A) (g : rng),
    Permutation l (fst (np_random_shuffle l g)).

(** Re-slicing groups of whole windows gives, group after group, as many
    batches as the group has windows, all of the environment of the
    group. *)
Lemma regroup_envs (n : Z) (groups : list (string * list triple)) :
  0 < n ->
  Forall (fun kg =>
            (exists j, length (snd kg) = (j * Z.to_nat n)%nat) /\
            Forall (fun t : triple => fst (fst t) = fst kg) (snd kg))
         groups ->
  forall g : rng,
    map batch_env (fst (regroup np_random_shuffle groups n g)) =
    flat_map (fun kg => repeat (Some (fst kg)) (length (snd kg) / Z.to_nat n))
             groups.
Proof.
  intros Hn HF.
  induction HF as [|[k grp] groups [[j Hj] Hk] _ IH]; intros g; simpl;
    [reflexivity|].
  pose proof (np_random_shuffle_perm grp g) as Hp.
  destruct (np_random_shuffle grp g) as [grp' g1]. simpl in Hp, Hj, Hk.
  specialize (IH g1).
  destruct (regroup np_random_shuffle groups n g1) as [more g2].
  simpl in *. rewrite map_app, IH. f_equal.
  assert (Hlen : length grp' = (j * Z.to_nat n)%nat)
    by (rewrite <- Hj; symmetry; now apply Permutation_length).
  destruct (@zip_longest_iter_exact _ grp' n j Hn Hlen) as [Hz1 Hz2].
  rewrite Hj, Nat.div_mul by lia. rewrite <- Hz1.
  apply map_constant. apply Forall_forall. intros b Hb.
  rewrite Forall_forall in Hz2. destruct (Hz2 b Hb) as (w & -> & Hw).
  destruct w as [|t w]; [simpl in Hw; lia|]. simpl. f_equal.
  assert (Ht : In t grp').
  { apply (@zip_longest_iter_member _ grp' n (map Some (t :: w)) t Hb).
    now left. }
  apply (Permutation_in _ (Permutation_sym Hp)) in Ht.
  rewrite Forall_forall in Hk. now apply Hk.
Qed.

(** Unless all batches are shuffled at the end, the environments of the
    successive batches are those of the pairs in the order of
    [seq_sizes], each as often as the pair has start offsets. *)
Lemma init_env_order (dataset : DatasetBase)
  (sizes : list ((string * string) * Z)) (B : Z) (m : shuffle_mode)
  (overlap : bool) (g : rng) :
  0 < B -> is_all m = false -> get_seq_sizes dataset = Ok sizes ->
  exists sampler g',
    DefaultSampler_init np_random_shuffle dataset B m overlap g =
      Ok (sampler, g') /\
    Permutation sizes (seq_sizes sampler) /\
    (is_seq m = false -> seq_sizes sampler = sizes) /\
    map batch_env (batches sampler) =
      flat_map (fun p => repeat (Some (fst (fst p)))
                                (n_batches (snd p) B overlap))
               (seq_sizes sampler).
Proof.
  intros HB Hall Hsizes. unfold DefaultSampler_init. rewrite Hsizes. simpl.
  pose proof (@shuffle_if_perm rng np_random_shuffle np_random_shuffle_perm
                _ (is_seq m) sizes g) as Hp.
  assert (Hid : is_seq m = false ->
                fst (shuffle_if np_random_shuffle (is_seq m) sizes g) = sizes)
    by now intros ->.
  destruct (shuffle_if np_random_shuffle (is_seq m) sizes g) as [sizes' g1].
  simpl in Hp, Hid.
  destruct (@build_batches_groups rng np_random_shuffle np_random_shuffle_perm
              (fun es S => windows_of es S B overlap) B m overlap
              (fun es S => @seq_batches_windows_of es S B overlap HB)
              sizes' g1) as (groups & g2 & -> & HF & _).
  simpl. rewrite Hall.
  pose proof (@windows_envs B overlap sizes' groups HB HF) as Henvs.
  assert (Hshape : Forall (fun w => length w = Z.to_nat B /\
                                    exists k, Forall (fun t : triple =>
                                                        fst (fst t) = k) w)
                          (concat groups)).
  { apply Forall_forall. intros w Hw.
    apply (Permutation_in _ (Permutation_sym (@Forall2_perm_flat_map _ _
             (fun p : string * string * Z =>
                windows_of (fst p) (snd p) B overlap) sizes' groups HF)))
      in Hw.
    apply in_flat_map in Hw. destruct Hw as ([es S] & _ & Hw).
    apply windows_of_shape in Hw. destruct Hw as [Hl Hes].
    split; [assumption|]. exists (fst es). revert Hes. apply Forall_impl.
    now intros t ->. }
  destruct (is_env_or_all m) eqn:Hm.
  - assert (Hgroups :
              Forall (fun kg : string * list triple =>
                        (exists j, length (snd kg) = (j * Z.to_nat B)%nat) /\
                        Forall (fun t : triple => fst (fst t) = fst kg)
                               (snd kg))
                     (groupby (fun t : triple => fst (fst t))
                              (concat (concat groups)))).
    { pose proof (@groupby_blocks _ (fun t : triple => fst (fst t))
                    (Z.to_nat B) (concat groups) ltac:(lia) Hshape) as H1.
      pose proof (groupby_key (fun t : triple => fst (fst t))
                    (concat (concat groups))) as H2.
      rewrite Forall_forall in *. intros kg Hkg. split; auto. }
    pose proof (@regroup_envs B _ HB Hgroups g2) as Hre.
    rewrite groupby_runs in Hre by (try lia; exact Hshape).
    destruct (regroup np_random_shuffle _ B g2) as [bl g3]. simpl in Hre.
    simpl. eexists _, _. split; [reflexivity|]. simpl.
    split; [assumption|]. split; [assumption|]. now rewrite Hre.
  - simpl. eexists _, _. split; [reflexivity|]. simpl.
    split; [assumption|]. split; [assumption|].
    now rewrite map_map, <- Henvs.
Qed.

End SamplerEnvironments.

(** Counting by pairs and counting by environments of the catalog agree. *)
Lemma sizes_envs_catalog (dataset : DatasetBase)
  (sizes : list ((string * string) * Z)) (B : Z) (overlap : bool) :
  dict_ok (seqs dataset) -> get_seq_sizes dataset = Ok sizes ->
  flat_map (fun p => repeat (Some (fst (fst p))) (n_batches (snd p) B overlap))
           sizes =
  flat_map (fun kv => repeat (Some (fst kv))
                             (env_batches dataset B overlap kv))
           (seqs dataset).
Proof.
  intros Hok Hsizes.
  destruct (get_seq_sizes_ok dataset Hsizes) as [Hpairs Hall].
  set (nb := fun q : string * string =>
               match get_size dataset (fst q) (snd q) with
               | Ok size => n_batches size B overlap
               | Raise _ => 0%nat
               end).
  assert (H1 : flat_map (fun p => repeat (Some (fst (fst p)))
                                         (n_batches (snd p) B overlap)) sizes =
               flat_map (fun q => repeat (Some (fst q)) (nb q))
                        (map fst sizes)).
  { clear Hpairs Hsizes.
    induction Hall as [|p l Hp _ IH]; simpl; [reflexivity|].
    rewrite IH. f_equal. unfold nb. now rewrite Hp. }
  rewrite H1, Hpairs. unfold get_env_seqs.
  rewrite catalog_env_seqs_entries by assumption.
  rewrite flat_map_flat_map. apply flat_map_ext. intros [k l].
  rewrite flat_map_map. simpl.
  exact (flat_map_repeat (Some k) (fun seq => nb (k, seq)) l).
Qed.

(** X22. Batches of one environment follow each other. For a positive
    batch size and unless all batches are shuffled at the end (mode all),
    the environments of the successive batches are those of the pairs in
    the order of [seq_sizes], each pair counted once for each of its
    start offsets. Hence without the shuffle of pairs (other values,
    batch, env) the batches come environment after environment in the
    order of the catalog, each environment with as many batches as its
    sequences have start offsets: an environment, once left, does not
    come back. *)
Theorem batches_of_an_environment_are_consecutive :
  forall (rng : Type)
         (np_random_shuffle : forall A : Type, list A -> rng -> list A * rng),
    (forall (A : Type) (l : list A) (g : rng),
        Permutation l (fst (np_random_shuffle A l g))) ->
    forall (dataset : DatasetBase) (sizes : list ((string * string) * Z))
           (B : Z) (m : shuffle_mode) (overlap : bool) (g : rng),
      0 < B ->
      get_seq_sizes dataset = Ok sizes ->
      m <> ShuffleAll ->
      exists sampler g',
        DefaultSampler_init np_random_shuffle dataset B m overlap g =
          Ok (sampler, g') /\
        Permutation sizes (seq_sizes sampler) /\
        map batch_env (DefaultSampler_iter sampler) =
          flat_map (fun p => repeat (Some (fst (fst p)))
                                    (n_batches (snd p) B overlap))
                   (seq_sizes sampler) /\
        (m <> ShuffleSeq -> dict_ok (seqs dataset) ->
         map batch_env (DefaultSampler_iter sampler) =
           flat_map (fun kv => repeat (Some (fst kv))
                                      (env_batches dataset B overlap kv))
                    (seqs dataset)).
Proof.
  intros rng np_random_shuffle Hperm dataset sizes B m overlap g HB Hsizes Hm.
  assert (Hall : is_all m = false) by (destruct m; auto; congruence).
  destruct (@init_env_order rng np_random_shuffle Hperm dataset sizes B m
              overlap g HB Hall Hsizes)
    as (sampler & g' & Hinit & Hp & Hid & Henvs).
  exists sampler, g'. unfold DefaultSampler_iter.
  split; [assumption|]. split; [assumption|]. split; [assumption|].
  intros Hseq Hok.
  assert (Hs : is_seq m = false) by (destruct m; auto; congruence).
  rewrite Henvs, (Hid Hs). now apply sizes_envs_catalog.
Qed.

Lemma batches_of_an_environment_are_consecutive_witness :
  0 < 2 /\
  get_seq_sizes scenario =
    Ok [("envA", "s1", 5); ("envA", "s2", 3); ("envB", "s3", 10)] /\
  exists sampler g',
    DefaultSampler_init rev_shuffle scenario 2 ShuffleEnv false tt =
      Ok (sampler, g') /\
    map batch_env (DefaultSampler_iter sampler) =
      repeat (Some "envA") 3 ++ repeat (Some "envB") 4.
Proof.
  split; [lia|]. split; [reflexivity|].
  destruct (@batches_of_an_environment_are_consecutive
              unit rev_shuffle rev_shuffle_perm scenario
              [("envA", "s1", 5); ("envA", "s2", 3); ("envB", "s3", 10)]
              2 ShuffleEnv false tt)
    as (sampler & g' & Hinit & _ & _ & Hcat);
    [lia|reflexivity|discriminate|].
  exists sampler, g'. split; [exact Hinit|].
  rewrite Hcat; [reflexivity|discriminate|].
  repeat constructor; simpl; intuition discriminate.
Defined.

(** ** The sampler: which frames are emitted *)

Lemma in_present {A : Type} (b : list (option A)) (x : A) :
  In x (present b) <-> In (Some x) b.
Proof.
  unfold present. rewrite in_flat_map. split.
  - intros ([y|] & Hy & Hx); simpl in Hx; [|destruct Hx].
    destruct Hx as [<-|[]]. assumption.
  - intros H. exists (Some x). split; [assumption|now left].
Qed.

Lemma in_window (es : string * string) (off B : Z) (t : triple) :
  In t (window es off B) <-> fst t = es /\ off <= snd t < off + B.
Proof.
  split; [apply window_pair|].
  intros [Hes Hidx]. unfold window. apply in_map_iff.
  exists (Z.to_nat (snd t - off)). split.
  - destruct t as [es' idx]. simpl in *. subst es'. f_equal. lia.
  - apply in_seq. lia.
Qed.

(** The frames of the windows of a pair. *)
Lemma in_windows_of (es : string * string) (S B : Z) (overlap : bool)
  (t : triple) :
  0 < B ->
  (exists w, In w (windows_of es S B overlap) /\ In t w) <->
  fst t = es /\ 0 <= snd t < covered S B overlap.
Proof.
  intros HB. unfold windows_of, covered, sliding_windows, chunks.
  destruct overlap.
  - split.
    + intros (w & Hw & Ht). apply in_map_iff in Hw.
      destruct Hw as (off & <- & Hoff). apply in_seq in Hoff.
      apply in_window in Ht. destruct Ht as [Hes Hidx]. split; [assumption|].
      destruct (B <? S) eqn:E; [apply Z.ltb_lt in E|apply Z.ltb_ge in E]; lia.
    + intros [Hes Hidx].
      destruct (B <? S) eqn:E; [apply Z.ltb_lt in E|lia].
      exists (window es (Z.of_nat (Z.to_nat (Z.min (snd t) (S - B - 1)))) B).
      split.
      * apply in_map_iff. eexists. split; [reflexivity|]. apply in_seq. lia.
      * apply in_window. split; [assumption|]. lia.
  - split.
    + intros (w & Hw & Ht). apply in_map_iff in Hw.
      destruct Hw as (j & <- & Hj). apply in_seq in Hj.
      apply in_window in Ht. destruct Ht as [Hes Hidx]. split; [assumption|].
      nia.
    + intros [Hes Hidx].
      exists (window es (Z.of_nat (Z.to_nat (snd t / B)) * B) B).
      assert (H0 : 0 <= snd t / B) by (apply Z.div_pos; lia).
      pose proof (Z.mul_div_le (snd t) B HB) as H1.
      pose proof (Z.mod_pos_bound (snd t) B HB) as H2.
      pose proof (Z.div_mod (snd t) B ltac:(lia)) as H3.
      assert (H4 : snd t / B < Z.of_nat (n_batches S B false))
        by (apply Z.div_lt_upper_bound; lia).
      split.
      * apply in_map_iff. eexists. split; [reflexivity|]. apply in_seq. lia.
      * apply in_window. split; [assumption|]. rewrite Z2Nat.id by lia. lia.
Qed.

(** X23. Which frames a sampler yields. For a positive batch size and in
    every shuffle mode, the triple of frame [idx] of a pair is in some
    batch exactly when the pair is in the catalog, with size [S] say, and
    [idx] is one of the first frames of the pair: with overlap the frames
    [0 .. S - 2] when [S] is more than the batch size and none
    otherwise, so that the last frame of a sequence is never yielded;
    without overlap the frames of the whole chunks without the final
    one. *)
Theorem sampler_frames_emitted :
  forall (rng : Type)
         (np_random_shuffle : forall A : Type, list A -> rng -> list A * rng),
    (forall (A : Type) (l : list A) (g : rng),
        Permutation l (fst (np_random_shuffle A l g))) ->
    forall (dataset : DatasetBase) (sizes : list ((string * string) * Z))
           (B : Z) (m : shuffle_mode) (overlap : bool) (g : rng),
      0 < B ->
      get_seq_sizes dataset = Ok sizes ->
      exists sampler g',
        DefaultSampler_init np_random_shuffle dataset B m overlap g =
          Ok (sampler, g') /\
        (forall env seq idx,
            (exists b, In b (DefaultSampler_iter sampler) /\
                       In (Some (env, seq, idx)) b) <->
            (exists S, In (env, seq, S) sizes /\
                       0 <= idx < covered S B overlap)) /\
        (forall env seq S b,
            overlap = true -> In (env, seq, S) sizes ->
            In b (DefaultSampler_iter sampler) ->
            ~ In (Some (env, seq, S - 1)) b).
Proof.
  intros rng np_random_shuffle Hperm dataset sizes B m overlap g HB Hsizes.
  destruct (@init_anatomy rng np_random_shuffle Hperm dataset sizes B m overlap
              g HB Hsizes) as (sampler & g' & Hinit & _ & _ & Hall & _).
  exists sampler, g'. split; [assumption|].
  unfold DefaultSampler_iter.
  assert (Hiff : forall env seq idx,
             (exists b, In b (batches sampler) /\
                        In (Some (env, seq, idx)) b) <->
             (exists S, In (env, seq, S) sizes /\
                        0 <= idx < covered S B overlap)).
  { intros env seq idx. split.
    - intros (b & Hb & Ht).
      assert (Hin : In (env, seq, idx) (flat_map present (batches sampler))).
      { apply in_flat_map. exists b. split; [assumption|].
        now apply in_present. }
      apply (Permutation_in _ Hall) in Hin. apply in_concat in Hin.
      destruct Hin as (w & Hw & Htw). apply in_flat_map in Hw.
      destruct Hw as ([es S] & Hp & Hw). simpl in Hw.
      destruct (proj1 (@in_windows_of es S B overlap (env, seq, idx) HB))
        as [Hes Hidx]; [eauto|].
      simpl in Hes, Hidx. subst es. eauto.
    - intros (S & Hp & Hidx).
      destruct (proj2 (@in_windows_of (env, seq) S B overlap (env, seq, idx)
                         HB)) as (w & Hw & Htw); [now split|].
      assert (Hin : In (env, seq, idx)
                       (concat (flat_map (fun p => windows_of (fst p) (snd p)
                                                              B overlap)
                                         sizes))).
      { apply in_concat. exists w. split; [|assumption].
        apply in_flat_map. exists (env, seq, S). now split. }
      apply (Permutation_in _ (Permutation_sym Hall)) in Hin.
      apply in_flat_map in Hin. destruct Hin as (b & Hb & Ht).
      exists b. split; [assumption|]. now apply in_present. }
  split; [exact Hiff|].
  intros env seq S b -> Hp Hb Ht.
  destruct (proj1 (Hiff env seq (S - 1))) as (S' & Hp' & Hidx); [eauto|].
  destruct (get_seq_sizes_ok dataset Hsizes) as [_ Hsz].
  rewrite Forall_forall in Hsz.
  pose proof (Hsz _ Hp) as H1. pose proof (Hsz _ Hp') as H2.
  simpl in H1, H2. rewrite H1 in H2. injection H2 as <-.
  unfold covered in Hidx. destruct (B <? S); lia.
Qed.

Lemma sampler_frames_emitted_witness :
  0 < 3 /\
  get_seq_sizes scenario =
    Ok [("envA", "s1", 5); ("envA", "s2", 3); ("envB", "s3", 10)] /\
  exists sampler g',
    DefaultSampler_init rev_shuffle scenario 3 ShuffleAll true tt =
      Ok (sampler, g') /\
    (exists b, In b (DefaultSampler_iter sampler) /\
               In (Some ("envB", "s3", 8)) b) /\
    forall b, In b (DefaultSampler_iter sampler) ->
              ~ In (Some ("envB", "s3", 10 - 1)) b.
Proof.
  split; [lia|]. split; [reflexivity|].
  destruct (@sampler_frames_emitted unit rev_shuffle rev_shuffle_perm scenario
              [("envA", "s1", 5); ("envA", "s2", 3); ("envB", "s3", 10)]
              3 ShuffleAll true tt)
    as (sampler & g' & Hinit & Hiff & Hlast); [lia|reflexivity|].
  exists sampler, g'. split; [exact Hinit|]. split.
  - apply Hiff. exists 10. split; [simpl; auto|]. vm_compute.
    split; discriminate || reflexivity.
  - intros b Hb.
    apply (Hlast "envB" "s3" 10 b eq_refl); [simpl; auto|exact Hb].
Defined.

(** ** Random split: the lists of the subsets as objects *)

(** One turn of the loop of [rand_split]: the lists of the new dictionary
    are new objects, each its own. *)
Lemma h_make_subset_fresh (h : heap) (self : loc) (attrs : list (string * loc))
  (env_seqs : list (string * string)) (piece : list nat) :
  heap_get h self = Some (OInstance attrs) ->
  Forall (fun i => (i < length env_seqs)%nat) piece ->
  exists h' items,
    h_make_subset h self env_seqs piece = Ok (length h, h') /\
    extends h h' /\
    heap_get h' (length h) =
      Some (OInstance (ref_set attrs "_seqs" (S (length h)))) /\
    heap_get h' (S (length h)) = Some (ODict items) /\
    NoDup (map snd items) /\
    Forall (fun kl => (length h <= snd kl < length h')%nat /\
                      exists xs, heap_get h' (snd kl) = Some (OList xs))
           items.
Proof.
  intros Hself Hpiece. unfold h_make_subset. rewrite Hself.
  rewrite (np_take_ok _ ("", ""))
    by (eapply Permutation_Forall;
        [apply Permutation_sym, sorted_perm|exact Hpiece]).
  simpl. rewrite length_app. simpl.
  replace (length h + 1)%nat with (S (length h)) by lia.
  set (n := length h).
  set (h2 := heap_set ((h ++ [OInstance attrs]) ++ [ODict []]) n
                      (OInstance (ref_set attrs "_seqs" (S n)))).
  assert (Hb : building h2 n n (S n) attrs []).
  { assert (Hlen2 : length h2 = S (S n)).
    { unfold h2. rewrite length_heap_set, !length_app. simpl. unfold n. lia. }
    split; [lia|]. split.
    - unfold h2. apply heap_get_set_same. rewrite !length_app. simpl.
      unfold n. lia.
    - exists []. split; [|split; [constructor|split; constructor]].
      unfold h2. rewrite heap_get_set_other by lia.
      replace (S n) with (length (h ++ [OInstance attrs]))
        by (rewrite length_app; simpl; unfold n; lia).
      apply heap_get_new. }
  destruct (h_fill_ok
              (map (fun i => nth i env_seqs ("", "")) (sorted piece)) Hb)
    as (h' & Hrun & Hb' & Hframe).
  rewrite Hrun. simpl.
  destruct Hb' as (Hd & Hsub & items & Hdict & Hrep & Hnd & Hfresh).
  exists h', items. split; [reflexivity|]. split; [|split; [|split; [|split]]].
  - intros l o Hl. apply Hframe; [now apply heap_get_lt in Hl|].
    unfold h2. pose proof (heap_get_lt _ _ Hl).
    rewrite heap_get_set_other by (unfold n; lia).
    now apply heap_get_app_old, heap_get_app_old.
  - exact Hsub.
  - exact Hdict.
  - exact Hnd.
  - apply Forall_forall. intros kl Hin.
    destruct (@represents_cell h' items _ kl Hrep Hin) as (xs & Hcell).
    rewrite Forall_forall in Hfresh. specialize (Hfresh kl Hin).
    pose proof (heap_get_lt _ _ Hcell) as Hlt.
    split; [split; [exact Hfresh|exact Hlt]|eauto].
Qed.

(** The loop of [rand_split]: the lists of a subset are made after the
    subset and before the next one. *)
Lemma h_subsets_fresh (self : loc) (attrs : list (string * loc))
  (env_seqs : list (string * string)) (pieces : list (list nat)) (h : heap) :
  heap_get h self = Some (OInstance attrs) ->
  Forall (Forall (fun i => (i < length env_seqs)%nat)) pieces ->
  exists subsets h',
    h_subsets h self env_seqs pieces = Ok (subsets, h') /\
    extends h h' /\
    Forall (fun s =>
              (length h <= s)%nat /\
              heap_get h' s = Some (OInstance (ref_set attrs "_seqs" (S s))) /\
              exists items,
                heap_get h' (S s) = Some (ODict items) /\
                NoDup (map snd items) /\
                Forall (fun kl => (s <= snd kl)%nat /\
                                  exists xs,
                                    heap_get h' (snd kl) = Some (OList xs))
                       items)
           subsets /\
    (forall i j a b items,
        (i < j)%nat -> nth_error subsets i = Some a ->
        nth_error subsets j = Some b ->
        heap_get h' (S a) = Some (ODict items) ->
        Forall (fun kl => (snd kl < b)%nat) items).
Proof.
  intros Hself Hpieces. revert h Hself.
  induction Hpieces as [|piece pieces Hpiece _ IH]; intros h Hself; simpl.
  - exists [], h. split; [reflexivity|]. split; [apply extends_refl|].
    split; [constructor|]. intros i j a b items _ Hi. now destruct i.
  - destruct (@h_make_subset_fresh h self attrs env_seqs piece Hself Hpiece)
      as (h1 & items0 & -> & He1 & Hs1 & Hd1 & Hnd1 & Hl1).
    simpl.
    destruct (IH h1 (He1 _ _ Hself)) as (subsets & h' & -> & He & HF & Hinc).
    simpl. exists (length h :: subsets), h'. split; [reflexivity|].
    split; [eapply extends_trans; eauto|]. split; [constructor|].
    + split; [lia|]. split; [exact (He _ _ Hs1)|].
      exists items0. split; [exact (He _ _ Hd1)|]. split; [assumption|].
      revert Hl1. apply Forall_impl. intros kl [Hb (xs & Hxs)].
      split; [exact (proj1 Hb)|]. exists xs. exact (He _ _ Hxs).
    + revert HF. apply Forall_impl. intros s (Hs & Hrest).
      split; [|exact Hrest]. apply extends_length in He1. lia.
    + intros [|i] [|j] a b items Hij Hi Hj Hdict; simpl in Hi, Hj; try lia.
      * injection Hi as Hi. subst a.
        assert (Hitems : items = items0)
          by (pose proof (He _ _ Hd1) as Hd1'; simpl in Hd1'; congruence).
        subst items.
        apply nth_error_In in Hj. rewrite Forall_forall in HF.
        destruct (HF b Hj) as [Hb _].
        revert Hl1. apply Forall_impl. intros kl [[_ Hkl] _].
        exact (Nat.lt_le_trans _ _ _ Hkl Hb).
      * apply (Hinc i j a b); auto. lia.
Qed.

(** The lists a catalog that can be read refers to are objects of the
    store. *)
Lemma read_dict_list_locs (h : heap) (d : loc) (c : catalog) (l : loc) :
  read_dict h d = Ok c -> In l (list_locs h d) -> (l < length h)%nat.
Proof.
  unfold read_dict, list_locs.
  destruct (heap_get h d) as [[|items| |]|]; try discriminate.
  intros Hread Hin. apply in_map_iff in Hin. destruct Hin as (kl & <- & Hin).
  apply rmap_ok_Forall2 in Hread.
  apply In_nth_error in Hin. destruct Hin as [i Hi].
  destruct (@Forall2_nth_error_l _ _ _ _ _ i kl Hread Hi) as (kv & _ & Hkv).
  unfold read_list in Hkv.
  destruct (heap_get h (snd kl)) as [[xs| | |]|] eqn:Hcell; try discriminate.
  now apply heap_get_lt in Hcell.
Qed.

(** X24. The subsets of [rand_split] share no list of sequences. In the
    store after the call, the lists that the dictionary of a subset
    refers to are objects made by the call, one for each environment of
    the subset; none of them is a list of the receiver's catalog, and
    none is a list of another subset. A change made in place to the
    catalog of a subset, as [include_exclude] makes, therefore reaches
    neither the receiver nor the other subsets. *)
Theorem rand_split_shares_no_list :
  forall (rng_permutation : Z -> nat -> list nat),
    (forall (seed : Z) (n : nat),
        Permutation (rng_permutation seed n) (seq 0 n)) ->
    forall (h : heap) (self : loc) (attrs : list (string * loc)) (c : catalog)
           (ratio : list Q) (seed : Z),
      heap_get h self = Some (OInstance attrs) ->
      read_seqs h self = Ok c ->
      Forall (fun r => (0 <= r)%Q) ratio ->
      (0 < qsum ratio)%Q ->
      exists subsets h',
        h_rand_split rng_permutation h self ratio seed = Ok (subsets, h') /\
        forall i s,
          nth_error subsets i = Some s ->
          exists d,
            h_attr h' s "_seqs" = Ok d /\
            NoDup (list_locs h' d) /\
            forall l,
              In l (list_locs h' d) ->
              (length h <= l)%nat /\
              (exists xs, heap_get h' l = Some (OList xs)) /\
              (forall d0,
                  h_attr h self "_seqs" = Ok d0 -> ~ In l (list_locs h d0)) /\
              (forall j s' d',
                  j <> i -> nth_error subsets j = Some s' ->
                  h_attr h' s' "_seqs" = Ok d' -> ~ In l (list_locs h' d')).
Proof.
  intros rp Hperm h self attrs c ratio seed Hself Hread Hr Hs.
  unfold h_rand_split. rewrite Hread. simpl.
  set (env_seqs := catalog_env_seqs c).
  set (total := length env_seqs).
  set (pieces := np_split (rp seed total) (split_idx ratio total)).
  destruct (split_idx_chain total Hr Hs) as [Hch Hlen].
  assert (Hrange : Forall (Forall (fun i => (i < length env_seqs)%nat)) pieces)
    by (apply pieces_in_range; [apply Hperm|exact Hch]).
  destruct (@h_subsets_fresh self attrs env_seqs pieces h Hself Hrange)
    as (subsets & h' & Hrun & He & HF & Hinc).
  exists subsets, h'. split; [exact Hrun|].
  rewrite Forall_forall in HF.
  assert (Hattr : forall s, heap_get h' s =
                    Some (OInstance (ref_set attrs "_seqs" (S s))) ->
                  h_attr h' s "_seqs" = Ok (S s)).
  { intros s Hcell. unfold h_attr. now rewrite Hcell, ref_get_set_same. }
  intros i s Hi.
  destruct (HF s (nth_error_In _ _ Hi))
    as (Hs0 & Hcell & items & Hdict & Hnd & Hlists).
  exists (S s). split; [now apply Hattr|].
  unfold list_locs at 1 2. rewrite Hdict. split; [exact Hnd|].
  intros l Hl. apply in_map_iff in Hl. destruct Hl as (kl & <- & Hkl).
  rewrite Forall_forall in Hlists. destruct (Hlists kl Hkl) as [Hge Hxs].
  split; [unfold loc in *; lia|]. split; [exact Hxs|]. split.
  - intros d0 Hd0 Hin. unfold read_seqs in Hread. rewrite Hd0 in Hread.
    simpl in Hread.
    pose proof (@read_dict_list_locs h d0 c (snd kl) Hread Hin).
    unfold loc in *. lia.
  - intros j s' d' Hji Hj Hd' Hin.
    destruct (HF s' (nth_error_In _ _ Hj))
      as (_ & Hcell' & items' & Hdict' & _ & Hlists').
    rewrite (Hattr _ Hcell') in Hd'. injection Hd' as <-.
    unfold list_locs in Hin. rewrite Hdict' in Hin.
    apply in_map_iff in Hin. destruct Hin as (kl' & Heq & Hkl').
    rewrite Forall_forall in Hlists'. destruct (Hlists' kl' Hkl') as [Hge' _].
    destruct (Nat.lt_total i j) as [Hlt|[->|Hlt]]; [|congruence|].
    + pose proof (Hinc i j s s' items Hlt Hi Hj Hdict) as Hbelow.
      rewrite Forall_forall in Hbelow. specialize (Hbelow kl Hkl).
      unfold loc in *. lia.
    + pose proof (Hinc j i s' s items' Hlt Hj Hi Hdict') as Hbelow.
      rewrite Forall_forall in Hbelow. specialize (Hbelow kl' Hkl').
      unfold loc in *. lia.
Qed.

Lemma rand_split_shares_no_list_witness :
  heap_get five_seqs_heap 4%nat =
    Some (OInstance [("path_prefix", 0%nat); ("_seqs", 3%nat)]) /\
  read_seqs five_seqs_heap 4%nat = Ok (seqs five_seqs) /\
  Forall (fun r => (0 <= r)%Q) [7 # 10; 3 # 10]%Q /\
  (0 < qsum [7 # 10; 3 # 10])%Q /\
  exists subsets h',
    h_rand_split rev_permutation five_seqs_heap 4%nat [7 # 10; 3 # 10]%Q 42 =
      Ok (subsets, h') /\
    forall i s,
      nth_error subsets i = Some s ->
      exists d, h_attr h' s "_seqs" = Ok d /\ NoDup (list_locs h' d).
Proof.
  assert (Hr : Forall (fun r => (0 <= r)%Q) [7 # 10; 3 # 10]%Q)
    by (repeat constructor; discriminate).
  assert (Hs : (0 < qsum [7 # 10; 3 # 10])%Q) by reflexivity.
  split; [reflexivity|]. split; [reflexivity|].
  split; [exact Hr|]. split; [exact Hs|].
  destruct (@rand_split_shares_no_list rev_permutation rev_permutation_perm
              five_seqs_heap 4%nat _ _ [7 # 10; 3 # 10]%Q 42
              eq_refl eq_refl Hr Hs) as (subsets & h' & Hrun & Hlists).
  exists subsets, h'. split; [exact Hrun|]. intros i s Hi.
  destruct (Hlists i s Hi) as (d & Hd & Hnd & _). eauto.
Defined.
